(** * Cross-document discrepancy check: a shallow embedding

    This development models [scripts/doc-discrepancy-check.js]: the numeric
    normaliser, the context-key builder, the traversal of the document
    tree, the fact extractor, the word-overlap similarity, the greedy
    clustering and the assembly of the report.

    Conventions.
    - A JavaScript string is a list of code units.  The model covers the
      code units U+0000..U+00FF (type [ascii], read as Latin-1).
    - A JavaScript Number is an IEEE-754 binary64 value, modelled with the
      standard library's [spec_float] at precision 53 and [emax] 1024.
    - Regular expressions are values of an abstract syntax, run by a
      backtracking matcher that follows the ECMAScript matching rules
      (ordered alternation, greedy quantifiers with the empty-iteration
      check, capture groups, [\b], [^] and [$]).
    - Loops over matches carry a fuel argument; the lemmas of the section
      on fuel show that the fuel given by the program is never exhausted.
    - The file system is what [readdir] lists for the directories below
      WEBROOT and what [readFile] gives for a path relative to WEBROOT.
      [walk] runs over the listings, the pass reads the documents it
      finds, and [writeFile] puts the report among the entries of WEBROOT.
      [Number.prototype.toLocaleString] and the conversion of a Number to
      a string are parameters of the report. *)

From Stdlib Require Import ZArith QArith Ascii String List Lia Bool DecimalString.
From Stdlib Require Import SpecFloat.
From stdpp Require Import base list gmap strings.

Close Scope Q_scope.
Open Scope nat_scope.
Open Scope list_scope.

(** ** Strings and characters *)

Definition jsstring := list ascii.

Definition str (s : string) : jsstring := list_ascii_of_string s.

Definition code (c : ascii) : N := N_of_ascii c.

Definition isDigit (c : ascii) : bool :=
  ((48 <=? code c) && (code c <=? 57))%N.

Definition isLowerAZ (c : ascii) : bool :=
  ((97 <=? code c) && (code c <=? 122))%N.

Definition isUpperAZ (c : ascii) : bool :=
  ((65 <=? code c) && (code c <=? 90))%N.

(** [\w]: ASCII letters, digits and the underscore. *)
Definition isWordChar (c : ascii) : bool :=
  isDigit c || isLowerAZ c || isUpperAZ c || (code c =? 95)%N.

(** [\s] and [String.prototype.trim]: WhiteSpace and LineTerminator code
    units below U+0100 (TAB, LF, VT, FF, CR, SP, NBSP). *)
Definition isSpace (c : ascii) : bool :=
  (((9 <=? code c) && (code c <=? 13)) || (code c =? 32) || (code c =? 160))%N.

(** [toLowerCase] of one Latin-1 code unit: A-Z and the accented capitals
    U+00C0..U+00DE except the multiplication sign U+00D7. *)
Definition toLowerChar (c : ascii) : ascii :=
  if isUpperAZ c then ascii_of_N (code c + 32)
  else if ((192 <=? code c) && (code c <=? 222) && negb (code c =? 215))%N
       then ascii_of_N (code c + 32)
       else c.

Definition toLowerCase (s : jsstring) : jsstring := map toLowerChar s.

(** Case folding of the ASCII letters, used by the [i] flag. *)
Definition asciiUpper (c : ascii) : ascii :=
  if isLowerAZ c then ascii_of_N (code c - 32) else c.

Definition asciiLower (c : ascii) : ascii :=
  if isUpperAZ c then ascii_of_N (code c + 32) else c.

Fixpoint dropWhile {A} (p : A -> bool) (l : list A) : list A :=
  match l with
  | [] => []
  | x :: l' => if p x then dropWhile p l' else l
  end.

Fixpoint takeWhile {A} (p : A -> bool) (l : list A) : list A :=
  match l with
  | [] => []
  | x :: l' => if p x then x :: takeWhile p l' else []
  end.

(** [String.prototype.trim]. *)
Definition trim (s : jsstring) : jsstring :=
  rev (dropWhile isSpace (rev (dropWhile isSpace s))).

(** [s.slice(start, end)] for non-negative arguments. *)
Definition slice (s : jsstring) (start stop : nat) : jsstring :=
  firstn (stop - start) (skipn start s).

(** [s.slice(-n)]: the trailing [n] code units. *)
Definition sliceLast (n : nat) (s : jsstring) : jsstring :=
  skipn (length s - n) s.

(** ** Regular expressions *)

Inductive charset : Type :=
| CsChar (c : ascii)
| CsRange (lo hi : ascii)
| CsDigit
| CsSpace
| CsUnion (a b : charset)
| CsNot (a : charset).

Fixpoint cs_has (cs : charset) (c : ascii) : bool :=
  match cs with
  | CsChar x => (code x =? code c)%N
  | CsRange lo hi => ((code lo <=? code c) && (code c <=? code hi))%N
  | CsDigit => isDigit c
  | CsSpace => isSpace c
  | CsUnion a b => cs_has a c || cs_has b c
  | CsNot a => negb (cs_has a c)
  end.

(** Membership under the [i] flag.  Every pattern of the program is made
    of ASCII characters and [\s], for which canonicalisation only folds
    the ASCII letters. *)
Definition cs_mem (ic : bool) (cs : charset) (c : ascii) : bool :=
  cs_has cs c || (ic && (cs_has cs (asciiUpper c) || cs_has cs (asciiLower c))).

Inductive regex : Type :=
| REmpty
| RSet (cs : charset)
| RSeq (r1 r2 : regex)
| RAlt (r1 r2 : regex)
| RQuant (min : nat) (max : option nat) (r : regex)
| RGroup (n : nat) (r : regex)
| RWordB
| RBol
| REol.

Definition RStar (r : regex) : regex := RQuant 0 None r.
Definition RPlus (r : regex) : regex := RQuant 1 None r.
Definition ROpt (r : regex) : regex := RQuant 0 (Some 1) r.
Definition RChar (c : ascii) : regex := RSet (CsChar c).

Fixpoint RLit (s : jsstring) : regex :=
  match s with
  | [] => REmpty
  | [c] => RChar c
  | c :: s' => RSeq (RChar c) (RLit s')
  end.

Fixpoint RSeqs (l : list regex) : regex :=
  match l with
  | [] => REmpty
  | [r] => r
  | r :: l' => RSeq r (RSeqs l')
  end.

Fixpoint RAlts (l : list regex) : regex :=
  match l with
  | [] => REmpty
  | [r] => r
  | r :: l' => RAlt r (RAlts l')
  end.

Definition RWords (l : list string) : regex := RAlts (map (fun w => RLit (str w)) l).

(** The capture groups inside a pattern; a quantifier resets them at the
    start of each iteration. *)
Fixpoint groups_in (r : regex) : list nat :=
  match r with
  | RSeq r1 r2 | RAlt r1 r2 => groups_in r1 ++ groups_in r2
  | RQuant _ _ r1 => groups_in r1
  | RGroup n r1 => n :: groups_in r1
  | _ => []
  end.

(** A matcher state: the input before the current position (nearest code
    unit first), the input from the position on, and the captures. *)
Record mstate : Type := MState {
  ms_before : list ascii;
  ms_rest : list ascii;
  ms_caps : list (nat * jsstring)
}.

Definition ms_pos (st : mstate) : nat := length (ms_before st).

Definition progressed (st st1 : mstate) : bool :=
  length (ms_rest st1) <? length (ms_rest st).

(** The input consumed between two states of one run. *)
Definition captured (st st1 : mstate) : jsstring :=
  firstn (length (ms_rest st) - length (ms_rest st1)) (ms_rest st).

Fixpoint cap_lookup (n : nat) (caps : list (nat * jsstring)) : option jsstring :=
  match caps with
  | [] => None
  | (m, s) :: caps' => if m =? n then Some s else cap_lookup n caps'
  end.

Definition set_cap (n : nat) (s : jsstring) (st : mstate) : mstate :=
  MState (ms_before st) (ms_rest st) ((n, s) :: ms_caps st).

Definition clear_caps (gs : list nat) (st : mstate) : mstate :=
  match gs with
  | [] => st
  | _ => MState (ms_before st) (ms_rest st)
           (List.filter (fun p => negb (existsb (Nat.eqb (fst p)) gs)) (ms_caps st))
  end.

Definition headIsWord (l : list ascii) : bool :=
  match l with
  | c :: _ => isWordChar c
  | [] => false
  end.

Definition atWordBoundary (st : mstate) : bool :=
  xorb (headIsWord (ms_before st)) (headIsWord (ms_rest st)).

Definition cont := mstate -> option mstate.

(** The quantifier loop (RepeatMatcher).  [fuel] bounds the number of
    iterations: an iteration either lowers [min] or consumes input. *)
Fixpoint repeat_loop (body : mstate -> cont -> option mstate) (gs : list nat)
    (fuel min : nat) (max : option nat) (st : mstate) (k : cont) : option mstate :=
  match max with
  | Some 0 => k st
  | _ =>
    match fuel with
    | 0 => k st
    | S fuel' =>
      let d := fun st1 =>
        if (min =? 0) && negb (progressed st st1) then None
        else repeat_loop body gs fuel' (pred min) (option_map pred max) st1 k in
      if min =? 0 then
        match body (clear_caps gs st) d with
        | Some x => Some x
        | None => k st
        end
      else body (clear_caps gs st) d
    end
  end.

Fixpoint rmatch (ic : bool) (r : regex) (st : mstate) (k : cont) {struct r} : option mstate :=
  match r with
  | REmpty => k st
  | RSet cs =>
    match ms_rest st with
    | c :: rest' =>
      if cs_mem ic cs c then k (MState (c :: ms_before st) rest' (ms_caps st)) else None
    | [] => None
    end
  | RSeq r1 r2 => rmatch ic r1 st (fun st1 => rmatch ic r2 st1 k)
  | RAlt r1 r2 =>
    match rmatch ic r1 st k with
    | Some x => Some x
    | None => rmatch ic r2 st k
    end
  | RQuant min max r1 =>
    repeat_loop (rmatch ic r1) (groups_in r1) (min + length (ms_rest st)) min max st k
  | RGroup n r1 => rmatch ic r1 st (fun st1 => k (set_cap n (captured st st1) st1))
  | RWordB => if atWordBoundary st then k st else None
  | RBol => match ms_before st with [] => k st | _ => None end
  | REol => match ms_rest st with [] => k st | _ => None end
  end.

(** A regular expression object: pattern and flags. *)
Record RegExp : Type := mkRegExp {
  re_pattern : regex;
  re_ignoreCase : bool;
  re_global : bool
}.

(** One attempt at the current position. *)
Definition match_here (re : RegExp) (before rest : list ascii) : option mstate :=
  rmatch (re_ignoreCase re) (re_pattern re) (MState before rest []) Some.

(** The leftmost match at or after the current position: its start and
    its final state. *)
Fixpoint scan (re : RegExp) (before rest : list ascii) : option (mstate * mstate) :=
  match match_here re before rest with
  | Some st1 => Some (MState before rest [], st1)
  | None =>
    match rest with
    | [] => None
    | c :: rest' => scan re (c :: before) rest'
    end
  end.

Record MatchResult : Type := mkMatch {
  m_index : nat;
  m_0 : jsstring;
  m_caps : list (nat * jsstring);
  m_end : mstate
}.

Definition m_group (n : nat) (m : MatchResult) : option jsstring :=
  cap_lookup n (m_caps m).

Definition mkResult (p : mstate * mstate) : MatchResult :=
  mkMatch (ms_pos (fst p)) (captured (fst p) (snd p)) (ms_caps (snd p)) (snd p).

(** [re.exec(text)] with [lastIndex] at the position of [st]. *)
Definition exec_from (re : RegExp) (st : mstate) : option MatchResult :=
  option_map mkResult (scan re (ms_before st) (ms_rest st)).

(** [re.exec(text)] / [text.match(re)] from the start of the text. *)
Definition exec (re : RegExp) (text : jsstring) : option MatchResult :=
  exec_from re (MState [] text []).

(** [re.test(text)]. *)
Definition test (re : RegExp) (text : jsstring) : bool :=
  match exec re text with Some _ => true | None => false end.

(** The input skipped between the position of a search and the start of
    the match it found. *)
Definition skipped (rest : list ascii) (st0 : mstate) : jsstring :=
  firstn (length rest - length (ms_rest st0)) rest.

(** [text.replace(re, repl)] for a global [re] and a replacement string
    without substitution patterns. *)
Fixpoint replace_loop (fuel : nat) (re : RegExp) (repl : jsstring)
    (before rest : list ascii) : jsstring :=
  match fuel with
  | 0 => rest
  | S fuel' =>
    match scan re before rest with
    | None => rest
    | Some (st0, st1) =>
      skipped rest st0 ++ repl ++
      (if progressed st0 st1
       then replace_loop fuel' re repl (ms_before st1) (ms_rest st1)
       else match ms_rest st1 with
            | [] => []
            | c :: rest' => c :: replace_loop fuel' re repl (c :: ms_before st1) rest'
            end)
    end
  end.

Definition replace (re : RegExp) (repl : jsstring) (text : jsstring) : jsstring :=
  if re_global re then replace_loop (S (length text)) re repl [] text
  else match scan re [] text with
       | None => text
       | Some (st0, st1) => skipped text st0 ++ repl ++ ms_rest st1
       end.

(** [text.split(re)] without a limit, for a pattern without capture
    groups: [chunk] holds the code units since the last separator. *)
Fixpoint split_loop (fuel : nat) (re : RegExp) (chunk before rest : list ascii)
    : list jsstring :=
  match fuel with
  | 0 => [rev chunk ++ rest]
  | S fuel' =>
    match rest with
    | [] => [rev chunk]
    | c :: rest' =>
      match match_here re before rest with
      | None => split_loop fuel' re (c :: chunk) (c :: before) rest'
      | Some st1 =>
        if (length (ms_rest st1) =? length rest) && (length chunk =? 0)
        then split_loop fuel' re (c :: chunk) (c :: before) rest'
        else rev chunk :: split_loop fuel' re [] (ms_before st1) (ms_rest st1)
      end
    end
  end.

Definition split (re : RegExp) (text : jsstring) : list jsstring :=
  match text with
  | [] => match match_here re [] [] with Some _ => [] | None => [[]] end
  | _ => split_loop (2 * S (length text)) re [] [] text
  end.

(** ** Numbers *)

Definition jsnum := spec_float.

Definition prec : Z := 53.
Definition emax : Z := 1024.

Definition NaN : jsnum := S754_nan.

(** The Number nearest to an integer (ties to even). *)
Definition num_of_Z (z : Z) : jsnum := binary_normalize prec emax z 0 false.

(** The Number nearest to [m * 10^e10] (ties to even). *)
Definition num_of_dec (m : N) (e10 : Z) : jsnum :=
  match m with
  | N0 => S754_zero false
  | Npos p =>
    if (0 <=? e10)%Z then num_of_Z (Zpos p * 10 ^ e10)
    else SFdiv prec emax (S754_finite false p 0)
                         (S754_finite false (Z.to_pos (10 ^ (- e10))) 0)
  end.

Definition num_mul (x y : jsnum) : jsnum := SFmul prec emax x y.

(** [x < y] on Numbers; false when either side is NaN. *)
Definition num_lt (x y : jsnum) : bool := SFltb x y.

(** SameValueZero, the equality of [Set] and [Map] keys. *)
Definition sameValueZero (x y : jsnum) : bool :=
  match x, y with
  | S754_nan, S754_nan => true
  | _, _ => SFeqb x y
  end.

(** A Number that is neither NaN nor an infinity, and is not negative. *)
Definition finiteNonNeg (x : jsnum) : bool :=
  match x with
  | S754_zero _ => true
  | S754_finite s _ _ => negb s
  | _ => false
  end.

(** The exact rational value of a finite Number. *)
Definition num_toQ (x : jsnum) : option Q :=
  match x with
  | S754_zero _ => Some (Qmake 0 1)
  | S754_finite s m e =>
    let v := match e with
             | Zneg p => Qmake (Zpos m) (2 ^ p)
             | _ => Qmake (Zpos m * 2 ^ e) 1
             end in
    Some (if s then Qopp v else v)
  | _ => None
  end.

Definition num_1e6 : jsnum := num_of_Z 1000000.
Definition num_1e3 : jsnum := num_of_Z 1000.
Definition num_10 : jsnum := num_of_Z 10.
Definition num_20 : jsnum := num_of_Z 20.

Definition digitsValue (ds : list ascii) : N :=
  fold_left (fun acc c => (acc * 10 + (code c - 48))%N) ds 0%N.

Definition takeSign (s : jsstring) : bool * jsstring :=
  match s with
  | "-"%char :: t => (true, t)
  | "+"%char :: t => (false, t)
  | _ => (false, s)
  end.

Definition withSign (neg : bool) (x : jsnum) : jsnum :=
  if neg then SFopp x else x.

Fixpoint startsWith (p s : jsstring) : bool :=
  match p, s with
  | [], _ => true
  | a :: p', b :: s' => (code a =? code b)%N && startsWith p' s'
  | _ :: _, [] => false
  end.

(** The exponent part of a decimal literal: [e] or [E], an optional sign
    and at least one digit; 0 when absent. *)
Definition exponentPart (s : jsstring) : Z :=
  match s with
  | c :: t =>
    if ((code c =? 101) || (code c =? 69))%N then
      let '(neg, t') := takeSign t in
      match takeWhile isDigit t' with
      | [] => 0%Z
      | ds => if neg then (- Z.of_N (digitsValue ds))%Z else Z.of_N (digitsValue ds)
      end
    else 0%Z
  | [] => 0%Z
  end.

(** [parseFloat]: leading white space is skipped, then the longest prefix
    that is a decimal literal is converted; NaN when there is none. *)
Definition parseFloat (s : jsstring) : jsnum :=
  let '(neg, s2) := takeSign (dropWhile isSpace s) in
  if startsWith (str "Infinity") s2 then S754_infinity neg
  else
    let ip := takeWhile isDigit s2 in
    let r1 := dropWhile isDigit s2 in
    let '(fp, r2) := match r1 with
                     | "."%char :: t => (takeWhile isDigit t, dropWhile isDigit t)
                     | _ => ([], r1)
                     end in
    match ip ++ fp with
    | [] => NaN
    | ds => withSign neg
              (num_of_dec (digitsValue ds) (exponentPart r2 - Z.of_nat (length fp)))
    end.

(** [parseInt(s, 10)]. *)
Definition parseInt10 (s : jsstring) : jsnum :=
  let '(neg, s2) := takeSign (dropWhile isSpace s) in
  match takeWhile isDigit s2 with
  | [] => NaN
  | ds => withSign neg (num_of_Z (Z.of_N (digitsValue ds)))
  end.

(** ** The numeric normaliser *)

Definition cDigit : regex := RSet CsDigit.
Definition cSpace : regex := RSet CsSpace.

(** [/,/g] *)
Definition re_comma : RegExp := mkRegExp (RChar ",") false true.

(** [/^\d+$/] *)
Definition re_allDigits : RegExp :=
  mkRegExp (RSeqs [RBol; RPlus cDigit; REol]) false false.

(** [/^\d*\.?\d+\s*(million|M|m)$/] *)
Definition re_million : RegExp :=
  mkRegExp (RSeqs [RBol; RStar cDigit; ROpt (RChar "."); RPlus cDigit; RStar cSpace;
                   RGroup 1 (RWords ["million"; "M"; "m"]%string); REol]) false false.

(** [/^\d*\.?\d+\s*(thousand|k|K)$/] *)
Definition re_thousand : RegExp :=
  mkRegExp (RSeqs [RBol; RStar cDigit; ROpt (RChar "."); RPlus cDigit; RStar cSpace;
                   RGroup 1 (RWords ["thousand"; "k"; "K"]%string); REol]) false false.

(** [/^[\d,]+(?:\.\d+)?$/] *)
Definition re_plain : RegExp :=
  mkRegExp (RSeqs [RBol; RPlus (RSet (CsUnion CsDigit (CsChar ",")));
                   ROpt (RSeq (RChar ".") (RPlus cDigit)); REol]) false false.

Definition normalizeNum (s : jsstring) : option jsnum :=
  let n := trim (replace re_comma [] s) in
  if test re_allDigits n then Some (parseInt10 n)
  else if test re_million n then Some (num_mul (parseFloat n) num_1e6)
  else if test re_thousand n then Some (num_mul (parseFloat n) num_1e3)
  else match exec re_plain n with
       | Some m => Some (parseFloat (replace re_comma [] (m_0 m)))
       | None => None
       end.

Definition magnitudeWords : list string :=
  ["million"; "M"; "m"; "thousand"; "k"; "K"]%string.

(** [/\$([\d,.]+)\s*(million|M|m|thousand|k|K)?/i] *)
Definition re_parseDollar : RegExp :=
  mkRegExp (RSeqs [RChar "$";
                   RGroup 1 (RPlus (RSet (CsUnion CsDigit (CsUnion (CsChar ",") (CsChar ".")))));
                   RStar cSpace;
                   ROpt (RGroup 2 (RWords magnitudeWords))]) true false.

Definition jsstring_eqb (a b : jsstring) : bool := bool_decide (a = b).

(** [null] is [None].  Group 1 is outside every quantifier, so it is set
    in every match. *)
Definition parseDollar (s : jsstring) : option jsnum :=
  match exec re_parseDollar s with
  | None => None
  | Some m =>
    match m_group 1 m with
    | None => None
    | Some g1 =>
      let v := parseFloat (replace re_comma [] g1) in
      match m_group 2 m with
      | Some (c :: g2) =>
        let u := toLowerCase (c :: g2) in
        if jsstring_eqb u (str "million") || jsstring_eqb u (str "m")
        then Some (num_mul v num_1e6)
        else if jsstring_eqb u (str "thousand") || jsstring_eqb u (str "k")
             then Some (num_mul v num_1e3)
             else Some v
      | _ => Some v
      end
    end
  end.

(** ** The context-key builder *)

(** [/\s+/g] *)
Definition re_spaces : RegExp := mkRegExp (RPlus cSpace) false true.

(** [(?:\s*(?:million|M|m|thousand|k|K))?] *)
Definition magnitudeTail : regex :=
  ROpt (RSeq (RStar cSpace) (RWords magnitudeWords)).

Definition csNumeric : charset :=
  CsUnion CsDigit (CsUnion (CsChar ",") (CsChar ".")).

(** [/\$[\d,.]+(?:\s*(?:million|M|m|thousand|k|K))?/gi] *)
Definition re_maskDollar : RegExp :=
  mkRegExp (RSeqs [RChar "$"; RPlus (RSet csNumeric); magnitudeTail]) true true.

(** [/\b\d[\d,.]*(?:\s*(?:million|M|m|thousand|k|K))?\b/g] *)
Definition re_maskNumber : RegExp :=
  mkRegExp (RSeqs [RWordB; cDigit; RStar (RSet csNumeric); magnitudeTail; RWordB])
           false true.

Definition csKeyChar : charset :=
  CsUnion (CsRange "a" "z") (CsUnion (CsRange "0" "9") (CsUnion (CsChar "#") CsSpace)).

(** [/[^a-z0-9#\s]/g] *)
Definition re_nonKey : RegExp := mkRegExp (RSet (CsNot csKeyChar)) false true.

Definition makeContextKeyLen (text : jsstring) (pos len : nat) : jsstring :=
  let start := Nat.max 0 (pos - len) in
  let stop := Nat.min (length text) (pos + 25) in
  let window := trim (replace re_spaces (str " ") (slice text start stop)) in
  let window := replace re_maskDollar (str "$#") window in
  let window := replace re_maskNumber (str "#") window in
  let window :=
    trim (replace re_spaces (str " ")
            (replace re_nonKey (str " ") (toLowerCase window))) in
  sliceLast 70 window.

(** The default argument [len = 55]. *)
Definition makeContextKey (text : jsstring) (pos : nat) : jsstring :=
  makeContextKeyLen text pos 55.

(** ** The traversal of the document tree *)

Definition TEXT_EXT : gset jsstring :=
  list_to_set (map str [".html"; ".json"; ".md"; ".yml"; ".yaml"; ".txt"]%string).

Definition IGNORE : gset jsstring :=
  list_to_set (map str [".git"; "node_modules"; "scripts"; "fonts"; "docs/assets"]%string).

(** What [walk] observes of the file system: [readdir] with
    [withFileTypes] throws or returns the entries of a directory in
    the order of the host; an entry has a name and, when [isDirectory()]
    holds, the outcome of reading it in turn. *)
Inductive Dirent : Type :=
| FileEnt (name : jsstring)
| DirEnt (name : jsstring) (dir : Listing)
with Listing : Type :=
| Throws
| Entries (es : list Dirent).

Definition d_name (e : Dirent) : jsstring :=
  match e with
  | FileEnt name | DirEnt name _ => name
  end.

Definition backslash : ascii := "092"%char.

(** [/\\/g] *)
Definition re_backslash : RegExp := mkRegExp (RChar backslash) false true.

(** [/\.[^.]+$/] *)
Definition re_ext : RegExp :=
  mkRegExp (RSeqs [RChar "."; RPlus (RSet (CsNot (CsChar "."))); REol]) false false.

(** [(name.match(/\.[^.]+$/) || [""])[0].toLowerCase()] *)
Definition extOf (name : jsstring) : jsstring :=
  toLowerCase (match exec re_ext name with Some m => m_0 m | None => [] end).

(** [prefix ? `${prefix}/${name}` : name] *)
Definition relOf (prefix name : jsstring) : jsstring :=
  match prefix with
  | [] => name
  | _ => prefix ++ str "/" ++ name
  end.

(** [walk(dir, prefix)]; [dir] stands for the outcome of
    [readdir(join(dir, prefix))]. *)
Fixpoint walk (dir : Listing) (prefix : jsstring) {struct dir} : list jsstring :=
  match dir with
  | Throws => []
  | Entries entries =>
    (fix loop (entries : list Dirent) (out : list jsstring) : list jsstring :=
       match entries with
       | [] => out
       | e :: entries' =>
         let rel := relOf prefix (d_name e) in
         let norm := replace re_backslash (str "/") rel in
         if bool_decide (d_name e ∈ IGNORE) then loop entries' out
         else match e with
              | DirEnt _ sub => loop entries' (out ++ walk sub rel)
              | FileEnt _ =>
                if bool_decide (extOf (d_name e) ∈ TEXT_EXT)
                then loop entries' (out ++ [norm])
                else loop entries' out
              end
       end) entries []
  end.

(** ** The fact extractor *)

Inductive FactType : Type := dollar | count.

Record Fact : Type := mkFact {
  f_type : FactType;
  f_key : jsstring;
  f_value : jsnum;
  f_unit : option jsstring;
  f_raw : jsstring;
  f_file : jsstring
}.

(** What the extractor observes of the buffer returned by [readFile]: its
    length in bytes and its decoding as UTF-8. *)
Record Buffer : Type := mkBuffer {
  buf_length : N;
  buf_toString : jsstring
}.

(** The outcome of [readFile]: a buffer, or a rejected promise. *)
Inductive ReadResult : Type :=
| ReadOk (buf : Buffer)
| ReadError.

Definition MAX_FILE_MB : N := 2.

(** [/\x00/] *)
Definition re_nul : RegExp := mkRegExp (RChar zero) false false.

(** [/\$[\d,]+(?:\.\d+)?(?:\s*(?:million|M|m|thousand|k|K))?/g] *)
Definition dollarRe : RegExp :=
  mkRegExp (RSeqs [RChar "$"; RPlus (RSet (CsUnion CsDigit (CsChar ",")));
                   ROpt (RSeq (RChar ".") (RPlus cDigit)); magnitudeTail]) false true.

(** [/replace|regex|exec|match|substr|char/] *)
Definition re_codeLike : RegExp :=
  mkRegExp (RWords ["replace"; "regex"; "exec"; "match"; "substr"; "char"]%string)
           false false.

Definition plural (w : string) : regex := RSeq (RLit (str w)) (ROpt (RChar "s")).

(** [/\b(\d{1,4})\s*(vehicles?|sites?|units?|acres?|metres?|dogs?|grill\s+sites?|fleet|years?|months?|treehouses?|sections?|nodes?)\b/gi] *)
Definition countRe : RegExp :=
  mkRegExp
    (RSeqs [RWordB; RGroup 1 (RQuant 1 (Some 4) cDigit); RStar cSpace;
            RGroup 2 (RAlts [plural "vehicle"; plural "site"; plural "unit";
                             plural "acre"; plural "metre"; plural "dog";
                             RSeqs [RLit (str "grill"); RPlus cSpace; plural "site"];
                             RLit (str "fleet"); plural "year"; plural "month";
                             plural "treehouse"; plural "section"; plural "node"]);
            RWordB]) true true.

(** The state of a global regular expression between two [exec] calls:
    the text split at [lastIndex]. *)
Definition resume (m : MatchResult) : mstate :=
  MState (ms_before (m_end m)) (ms_rest (m_end m)) [].

(** The loop over the monetary matches. *)
Fixpoint dollarLoop (fuel : nat) (filePath text : jsstring) (st : mstate)
    (facts : list Fact) : list Fact :=
  match fuel with
  | 0 => facts
  | S fuel' =>
    match exec_from dollarRe st with
    | None => facts
    | Some m =>
      match parseDollar (m_0 m) with
      | None => dollarLoop fuel' filePath text (resume m) facts
      | Some value =>
        let key := makeContextKey text (m_index m) in
        if length key <? 12 then dollarLoop fuel' filePath text (resume m) facts
        else if num_lt value num_10 && test re_codeLike key
             then dollarLoop fuel' filePath text (resume m) facts
             else dollarLoop fuel' filePath text (resume m)
                    (facts ++ [mkFact dollar key value None (m_0 m) filePath])
      end
    end
  end.

Definition groupOr (n : nat) (m : MatchResult) : jsstring :=
  match m_group n m with Some g => g | None => [] end.

(** The loop over the unit-count matches. *)
Fixpoint countLoop (fuel : nat) (filePath text : jsstring) (st : mstate)
    (facts : list Fact) : list Fact :=
  match fuel with
  | 0 => facts
  | S fuel' =>
    match exec_from countRe st with
    | None => facts
    | Some m =>
      let num := parseInt10 (groupOr 1 m) in
      let unit := replace re_spaces (str " ") (toLowerCase (groupOr 2 m)) in
      let key := makeContextKey text (m_index m) in
      if length key <? 5 then countLoop fuel' filePath text (resume m) facts
      else countLoop fuel' filePath text (resume m)
             (facts ++ [mkFact count key num (Some unit) (m_0 m) filePath])
    end
  end.

Definition extractFacts (filePath : jsstring) (file : ReadResult) : list Fact :=
  match file with
  | ReadError => []
  | ReadOk buf =>
    if (MAX_FILE_MB * 1024 * 1024 <? buf_length buf)%N then []
    else
      let text := buf_toString buf in
      match text with
      | [] => []
      | _ =>
        if test re_nul text then []
        else
          let facts := dollarLoop (S (length text)) filePath text (MState [] text []) [] in
          countLoop (S (length text)) filePath text (MState [] text []) facts
      end
  end.

(** ** Similarity of context keys *)

Definition isToken (w : jsstring) : bool :=
  (1 <? length w) && negb (jsstring_eqb w (str "#")).

(** [new Set(a.split(/\s+/).filter(...))] *)
Definition tokenSet (a : jsstring) : gset jsstring :=
  list_to_set (List.filter isToken (split re_spaces a)).

(** The quotient [inter / union] as an exact rational.  The Number the
    program computes is this rational rounded to binary64.  Rounding is
    monotone and 0.5 is representable, and a quotient below 0.5 stays
    at least [1 / (2 * union)] below it, so for unions of fewer than
    2^54 words the threshold test of [groupSimilarKeys] gives the same
    answer on both. *)
Definition keySimilarity (a b : jsstring) : Q :=
  let wa := tokenSet a in
  let wb := tokenSet b in
  let inter := size (filter (fun w => w ∈ wb) wa) in
  let union := size (wa ∪ wb) in
  if union =? 0 then Qmake 0 1 else Qmake (Z.of_nat inter) (Pos.of_nat union).

Definition linked (g o : jsstring) : bool :=
  Qle_bool (Qmake 1 2) (keySimilarity g o).

(** ** Insertion-ordered maps ([Map]) *)

Section JSMap.
Context {K V : Type} (eqb : K -> K -> bool).

Fixpoint map_get (k : K) (m : list (K * V)) : option V :=
  match m with
  | [] => None
  | (k', v) :: m' => if eqb k' k then Some v else map_get k m'
  end.

Definition map_has (k : K) (m : list (K * V)) : bool :=
  match map_get k m with Some _ => true | None => false end.

(** An existing key keeps its place in the iteration order. *)
Fixpoint map_set (k : K) (v : V) (m : list (K * V)) : list (K * V) :=
  match m with
  | [] => [(k, v)]
  | (k', v') :: m' => if eqb k' k then (k', v) :: m' else (k', v') :: map_set k v m'
  end.

End JSMap.

(** [if (!m.has(k)) m.set(k, []); m.get(k).push(x)]: the array stored
    under [k] grows in place. *)
Definition map_push {K X} (eqb : K -> K -> bool) (k : K) (x : X)
    (m : list (K * list X)) : list (K * list X) :=
  let m1 := if map_has eqb k m then m else map_set eqb k [] m in
  match map_get eqb k m1 with
  | Some l => map_set eqb k (l ++ [x]) m1
  | None => m1
  end.

Definition KeyMap := list (jsstring * list Fact).
Definition ValueMap := list (jsnum * list Fact).

Definition pushByKey (byKey : KeyMap) (fact : Fact) : KeyMap :=
  map_push jsstring_eqb (f_key fact) fact byKey.

Definition pushByValue (byValue : ValueMap) (f : Fact) : ValueMap :=
  map_push sameValueZero (f_value f) f byValue.

(** [[...new Set(values)]] *)
Definition uniqValues (values : list jsnum) : list jsnum :=
  fold_left (fun acc v => if existsb (fun u => sameValueZero u v) acc then acc else acc ++ [v])
            values [].

(** [[...new Set(strings)]], also [a.filter((r, i, a) => a.indexOf(r) === i)] *)
Definition uniqStrings (l : list jsstring) : list jsstring :=
  fold_left (fun acc v => if existsb (jsstring_eqb v) acc then acc else acc ++ [v]) l [].

(** ** Greedy clustering *)

(** The inner loop: [o] ranges over all keys; [group] and [used] grow. *)
Definition absorb (st : list jsstring * gset jsstring) (o : jsstring)
    : list jsstring * gset jsstring :=
  let '(group, used) := st in
  if bool_decide (o ∈ used) then st
  else if existsb (fun g => linked g o) group then (group ++ [o], {[o]} ∪ used)
       else st.

(** The outer loop body. *)
Definition cluster (keys : list jsstring)
    (st : gset jsstring * list (list jsstring)) (k : jsstring)
    : gset jsstring * list (list jsstring) :=
  let '(used, groups) := st in
  if bool_decide (k ∈ used) then st
  else
    let '(group, used') := fold_left absorb keys ([k], {[k]} ∪ used) in
    (used', groups ++ [group]).

Definition groupSimilarKeys (factsByKey : KeyMap) : list (list jsstring) :=
  let keys := map fst factsByKey in
  snd (fold_left (cluster keys) keys (∅, [])).

(** ** The main pass *)

Record Conflict : Type := mkConflict {
  c_key : jsstring;
  c_byValue : ValueMap;
  c_list : list Fact
}.

Record CrossConflict : Type := mkCross {
  x_keys : list jsstring;
  x_byValue : ValueMap;
  x_facts : list Fact
}.

(** The documents handed to the pass, in traversal order: each path with
    the outcome of reading it. *)
Definition Corpus := list (jsstring * ReadResult).

Definition collectFacts (files : Corpus) : list Fact :=
  fold_left (fun allFacts f => allFacts ++ extractFacts (fst f) (snd f)) files [].

(** [files = await walk(WEBROOT)], each path with what [readFile] gives
    for it. *)
Definition documents (dir : Listing) (readFile : jsstring -> ReadResult) : Corpus :=
  map (fun p => (p, readFile p)) (walk dir []).

Definition groupByKey (allFacts : list Fact) : KeyMap :=
  fold_left pushByKey allFacts [].

Definition directConflicts (byKey : KeyMap) : list Conflict :=
  fold_left
    (fun conflicts e =>
       let '(key, list) := e in
       let values := map f_value list in
       let uniq := uniqValues values in
       if length uniq <=? 1 then conflicts
       else conflicts ++ [mkConflict key (fold_left pushByValue list []) list])
    byKey [].

(** [/replace|regex|exec|char|substr/] *)
Definition re_codeLikeGroup : RegExp :=
  mkRegExp (RWords ["replace"; "regex"; "exec"; "char"; "substr"]%string) false false.

Definition crossConflicts (byKey : KeyMap) (similarGroups : list (list jsstring))
    : list CrossConflict :=
  fold_left
    (fun cross group =>
       if length group <=? 1 then cross
       else
         let allInGroup :=
           flat_map (fun k => match map_get jsstring_eqb k byKey with
                              | Some l => l
                              | None => []
                              end) group in
         let values := map f_value allInGroup in
         let uniq := uniqValues values in
         if length uniq <=? 1 then cross
         else if forallb (fun v => num_lt v num_20) values
                 && existsb (test re_codeLikeGroup) group
              then cross
              else cross ++ [mkCross group (fold_left pushByValue allInGroup []) allInGroup])
    similarGroups [].

(** [conflicts.some((c) => keys.includes(c.key))] *)
Definition alreadyReported (conflicts : list Conflict) (x : CrossConflict) : bool :=
  existsb (fun c => existsb (jsstring_eqb (c_key c)) (x_keys x)) conflicts.

(** The clusters that reach section 2 of the report. *)
Definition reportedCross (conflicts : list Conflict) (cross : list CrossConflict)
    : list CrossConflict :=
  List.filter (fun x => negb (alreadyReported conflicts x)) cross.

Fixpoint join (sep : jsstring) (l : list jsstring) : jsstring :=
  match l with
  | [] => []
  | [x] => x
  | x :: l' => x ++ sep ++ join sep l'
  end.

Definition ellipsis (n : nat) (k : jsstring) : jsstring :=
  slice k 0 n ++ (if n <? length k then str "..." else []).










Section Report.
(** [Number.prototype.toLocaleString] depends on the host locale and
    [Number::toString] is the host's shortest round-trip printer; the
    pass uses them as given. *)
Variable toLocaleString : jsnum -> jsstring.
Variable numberToString : jsnum -> jsstring.








End Report.

(** A text document as [readFile] returns it (ASCII content, so its
    UTF-8 encoding has one byte per code unit). *)
Definition doc (s : string) : ReadResult :=
  ReadOk (mkBuffer (N.of_nat (length (str s))) (str s)).

(** ** Notions used by the statements *)

(** The matches of a pattern, without the priorities of the backtracking
    search: [Matches ic r st st'] when [r] can consume the input between
    [st] and [st']. *)
Inductive Matches (ic : bool) : regex -> mstate -> mstate -> Prop :=
| M_Empty st : Matches ic REmpty st st
| M_Set cs c before rest caps :
    cs_mem ic cs c = true ->
    Matches ic (RSet cs) (MState before (c :: rest) caps) (MState (c :: before) rest caps)
| M_Seq r1 r2 st st1 st2 :
    Matches ic r1 st st1 -> Matches ic r2 st1 st2 -> Matches ic (RSeq r1 r2) st st2
| M_AltL r1 r2 st st' : Matches ic r1 st st' -> Matches ic (RAlt r1 r2) st st'
| M_AltR r1 r2 st st' : Matches ic r2 st st' -> Matches ic (RAlt r1 r2) st st'
| M_QuantStop min max r st :
    min = 0 \/ max = Some 0 -> Matches ic (RQuant min max r) st st
| M_QuantStep min max r st st1 st2 :
    max <> Some 0 ->
    Matches ic r (clear_caps (groups_in r) st) st1 ->
    (min = 0 -> progressed st st1 = true) ->
    Matches ic (RQuant (pred min) (option_map pred max) r) st1 st2 ->
    Matches ic (RQuant min max r) st st2
| M_Group n r st st1 :
    Matches ic r st st1 -> Matches ic (RGroup n r) st (set_cap n (captured st st1) st1)
| M_WordB st : atWordBoundary st = true -> Matches ic RWordB st st
| M_Bol st : ms_before st = [] -> Matches ic RBol st st
| M_Eol st : ms_rest st = [] -> Matches ic REol st st.

(** [st'] is reached from [st] by consuming the word [w]. *)
Definition consumes (st st' : mstate) (w : list ascii) : Prop :=
  ms_rest st = w ++ ms_rest st' /\ ms_before st' = rev w ++ ms_before st.

(** The search only answers with matches. *)
Definition sound (ic : bool) (r : regex) : Prop :=
  forall st k x, rmatch ic r st k = Some x ->
    exists st', Matches ic r st st' /\ k st' = Some x.

(** The search finds a match whenever there is one. *)
Definition complete (ic : bool) (r : regex) : Prop :=
  forall st st' k, Matches ic r st st' -> k st' <> None -> rmatch ic r st k <> None.

Definition startState (before rest : list ascii) : mstate := MState before rest [].

Definition headOutside (ic : bool) (cs : charset) (l : list ascii) : Prop :=
  match l with
  | [] => True
  | c :: _ => cs_mem ic cs c = false
  end.

(** ** Numerals and magnitude suffixes *)

Inductive Magnitude : Type :=
| MagNone | MagK | MagKUpper | MagThousand | MagMUpper | MagM | MagMillion.

Definition magnitudeText (g : Magnitude) : jsstring :=
  match g with
  | MagNone => []
  | MagK => str "k"
  | MagKUpper => str "K"
  | MagThousand => str "thousand"
  | MagMUpper => str "M"
  | MagM => str "m"
  | MagMillion => str "million"
  end.

(** The multiplication the suffix stands for, in binary64. *)
Definition scaled (g : Magnitude) (v : jsnum) : jsnum :=
  match g with
  | MagNone => v
  | MagK | MagKUpper | MagThousand => num_mul v num_1e3
  | MagMUpper | MagM | MagMillion => num_mul v num_1e6
  end.

Definition isComma (c : ascii) : bool := (code c =? 44)%N.

Definition stripCommas (s : jsstring) : jsstring :=
  List.filter (fun c => negb (isComma c)) s.

Definition fractionText (fs : list ascii) : jsstring :=
  match fs with
  | [] => []
  | _ => "."%char :: fs
  end.

(** A numeral: an integer part of digits and thousands separators with
    at least one digit, and the digits of an optional fraction. *)
Definition numeralText (ip fs : list ascii) : jsstring := ip ++ fractionText fs.

Definition isNumeral (ip fs : list ascii) : bool :=
  forallb (fun c => isDigit c || isComma c) ip && existsb isDigit ip && forallb isDigit fs.

(** The Number nearest to the numeral. *)
Definition numeralValue (ip fs : list ascii) : jsnum :=
  num_of_dec (digitsValue (stripCommas ip ++ fs)) (- Z.of_nat (length fs)).

(** The shape shared by the two suffix patterns of [normalizeNum]:
    [^\d*\.?\d+\s*(w1|w2|...)$]. *)
Definition suffixPattern (ws : list string) : regex :=
  RSeqs [RBol; RStar cDigit; ROpt (RChar "."); RPlus cDigit; RStar cSpace;
         RGroup 1 (RWords ws); REol].

(** The captures after the magnitude group. *)
Definition capsAfter (g : Magnitude) (run : jsstring) : list (nat * jsstring) :=
  match g with
  | MagNone => [(1, run)]
  | _ => [(2, magnitudeText g); (1, run)]
  end.

(** The code units a context key is made of: [a-z], [0-9], [#] and the
    space. *)
Definition keyChar (c : ascii) : bool :=
  isLowerAZ c || isDigit c || (code c =? 35)%N || (code c =? 32)%N.

Definition textCovid : jsstring :=
  str "The covid19 relief fund raised $5 million for 12 dogs.".

Definition docCurrencies : ReadResult :=
  doc "Donations are accepted in $, EUR and GBP at the shelter.".

Definition absorbInv (keys : list jsstring) (used0 : gset jsstring)
    (st : list jsstring * gset jsstring) : Prop :=
  NoDup (fst st) /\ fst st <> [] /\
  (forall x, x ∈ snd st <-> x ∈ used0 \/ x ∈ fst st) /\
  (forall x, x ∈ fst st -> x ∉ used0) /\
  (forall x, x ∈ fst st -> x ∈ keys).

Definition clusterInv (keys : list jsstring) (st : gset jsstring * list (list jsstring)) : Prop :=
  NoDup (concat (snd st)) /\
  (forall x, x ∈ fst st <-> x ∈ concat (snd st)) /\
  (forall x, x ∈ concat (snd st) -> x ∈ keys) /\
  Forall (fun g => g <> []) (snd st).

(** [y] is stored under some key of the map. *)
Definition inMap {K X} (m : list (K * list X)) (y : X) : Prop :=
  exists k l, (k, l) ∈ m /\ y ∈ l.

(** Three documents: two state a count under one key with different
    values, the third states it under a similar key. *)
Definition corpusThree : Corpus :=
  [(str "a.md", doc "Our shelter program now serves 12 dogs every single week.");
   (str "b.md", doc "Our shelter program now serves 15 dogs every single week.");
   (str "c.md", doc "The shelter program serves 12 dogs every week.")].

(** A monetary fact under 10 whose key holds a code-like token. *)
Definition codeLikeSmall (f : Fact) : bool :=
  match f_type f with
  | dollar => num_lt (f_value f) num_10 && test re_codeLike (f_key f)
  | count => false
  end.

(** The facts a report can show: those of a direct conflict or of a
    cross-context conflict, whether listed or grouped by value. *)
Definition inReport (files : Corpus) (f : Fact) : Prop :=
  let byKey := groupByKey (collectFacts files) in
  let conflicts := directConflicts byKey in
  let cross := crossConflicts byKey (groupSimilarKeys byKey) in
  (exists c, c ∈ conflicts /\ (f ∈ c_list c \/ inMap (c_byValue c) f)) \/
  (exists x, x ∈ cross /\ (f ∈ x_facts x \/ inMap (x_byValue x) f)).

Definition corpusFee : Corpus :=
  [(str "fees.md", doc "The adoption fee is only $5 for each of the puppies.")].

Definition factFee : Fact :=
  mkFact dollar (str "the adoption fee is only # for each of the puppie")
         (num_of_Z 5) None (str "$5") (str "fees.md").

(** ** Notions used by the further properties *)

(** The paths one entry of a listing contributes. *)
Definition walkEntry (prefix : jsstring) (e : Dirent) : list jsstring :=
  let rel := relOf prefix (d_name e) in
  if bool_decide (d_name e ∈ IGNORE) then []
  else match e with
       | DirEnt _ sub => walk sub rel
       | FileEnt _ =>
         if bool_decide (extOf (d_name e) ∈ TEXT_EXT)
         then [replace re_backslash (str "/") rel]
         else []
       end.

(** The files of a tree, each as the chain of entry names that leads to
    it, in the order of the listings. *)
Fixpoint chains (dir : Listing) : list (list jsstring) :=
  match dir with
  | Throws => []
  | Entries es =>
    flat_map (fun e => match e with
                       | FileEnt name => [[name]]
                       | DirEnt name sub => map (cons name) (chains sub)
                       end) es
  end.

(** No name on the chain is ignored and the last one has a text
    extension. *)
Definition kept (chain : list jsstring) : bool :=
  forallb (fun name => negb (bool_decide (name ∈ IGNORE))) chain
  && bool_decide (extOf (List.last chain []) ∈ TEXT_EXT).

(** Every entry of the tree has a name. *)
Fixpoint named (dir : Listing) : bool :=
  match dir with
  | Throws => true
  | Entries es =>
    forallb (fun e => match e with
                      | FileEnt name => negb (bool_decide (name = []))
                      | DirEnt name sub => negb (bool_decide (name = [])) && named sub
                      end) es
  end.

Definition treeSite : Listing :=
  Entries [FileEnt (str "index.HTML"); FileEnt (str "logo.png");
           DirEnt (str ".git") (Entries [FileEnt (str "config.txt")]);
           DirEnt (str "docs")
             (Entries [DirEnt (str "assets") (Entries [FileEnt (str "a.md")]);
                       DirEnt (str "locked") Throws;
                       FileEnt (str "README")]);
           FileEnt (str "z.txt")].

(** No two white-space code units in a row. *)
Fixpoint singleSpaced (s : jsstring) : bool :=
  match s with
  | c :: (d :: _) as s' => negb (isSpace c && isSpace d) && singleSpaced s'
  | _ => true
  end.

(** A text with the value of every digit forgotten. *)
Definition maskDigit (c : ascii) : ascii := if isDigit c then "0"%char else c.

Definition digitShape (s : jsstring) : jsstring := map maskDigit s.

Definition allAscii : list ascii := map ascii_of_nat (seq 0 256).

(** The classes of a pattern do not tell one digit from another. *)
Fixpoint digitBlind (ic : bool) (r : regex) : bool :=
  match r with
  | RSet cs =>
    forallb (fun c => Bool.eqb (cs_mem ic cs (maskDigit c)) (cs_mem ic cs c)) allAscii
  | RSeq r1 r2 | RAlt r1 r2 => digitBlind ic r1 && digitBlind ic r2
  | RQuant _ _ r1 | RGroup _ r1 => digitBlind ic r1
  | _ => true
  end.

Definition shapeState (st : mstate) : mstate :=
  MState (digitShape (ms_before st)) (digitShape (ms_rest st))
         (map (fun p => (fst p, digitShape (snd p))) (ms_caps st)).

Definition textFive : jsstring := str "The appeal raised $5 million for the dogs.".
Definition textSix : jsstring := str "The appeal raised $6 million for the dogs.".

(** Two continuations that agree up to the value of digits. *)
Definition shapeCont (k k' : cont) : Prop :=
  forall st1, k' (shapeState st1) = option_map shapeState (k st1).

(** A Number that is not NaN and whose sign is positive: [+0], a
    positive finite Number or [+Infinity]. *)
Definition nonNegNumber (x : jsnum) : bool :=
  match x with
  | S754_zero s | S754_finite s _ _ | S754_infinity s => negb s
  | S754_nan => false
  end.

Definition isDot (c : ascii) : bool := (code c =? 46)%N.

(** A text that begins like an unsigned decimal literal: a digit, or a
    dot and a digit. *)
Definition digitLed (s : jsstring) : bool :=
  match s with
  | c :: t => isDigit c || (isDot c && match t with d :: _ => isDigit d | [] => false end)
  | [] => false
  end.

(** The fraction that follows the integer part of a decimal literal,
    and what is left after it. *)
Definition fracSplit (r1 : jsstring) : jsstring * jsstring :=
  match r1 with
  | "."%char :: t => (takeWhile isDigit t, dropWhile isDigit t)
  | _ => ([], r1)
  end.

(** The code units of [[\d,.]]. *)
Definition isNumeric (c : ascii) : bool := isDigit c || isComma c || isDot c.

(** [f] records a match of [re] in [text]: its raw text stands at the
    offset its key was taken at, and [st1] is the state after the match. *)
Definition recordsMatch (re : RegExp) (text : jsstring) (f : Fact) (st1 : mstate) : Prop :=
  exists pre,
    text = pre ++ f_raw f ++ ms_rest st1 /\
    f_key f = makeContextKey text (length pre) /\
    Matches (re_ignoreCase re) (re_pattern re)
      (startState (rev pre) (f_raw f ++ ms_rest st1)) st1.

Definition capOr (n : nat) (st1 : mstate) : jsstring :=
  match cap_lookup n (ms_caps st1) with Some g => g | None => [] end.

(** What the first loop of [extractFacts] pushes. *)
Definition dollarFact (filePath text : jsstring) (f : Fact) : Prop :=
  f_type f = dollar /\ f_file f = filePath /\ f_unit f = None /\
  12 <= length (f_key f) /\
  parseDollar (f_raw f) = Some (f_value f) /\
  exists st1, recordsMatch dollarRe text f st1.

(** What the second loop pushes. *)
Definition countFact (filePath text : jsstring) (f : Fact) : Prop :=
  f_type f = count /\ f_file f = filePath /\
  5 <= length (f_key f) /\
  exists st1, recordsMatch countRe text f st1 /\
    f_value f = parseInt10 (capOr 1 st1) /\
    f_unit f = Some (replace re_spaces (str " ") (toLowerCase (capOr 2 st1))).

Definition textOf (file : ReadResult) : jsstring :=
  match file with
  | ReadOk buf => buf_toString buf
  | ReadError => []
  end.

Definition docDogs : ReadResult :=
  doc "Our shelter program now serves 12 dogs every single week.".

Definition factDogs : Fact :=
  mkFact count (str "our shelter program now serves # dogs every single week")
         (num_of_Z 12) (Some (str "dogs")) (str "12 dogs") (str "a.md").

(** The facts stated under [k], in the order of the pass. *)
Definition factsUnder (k : jsstring) (facts : list Fact) : list Fact :=
  List.filter (fun f => jsstring_eqb (f_key f) k) facts.

(** The representative of a Number among the keys of a [Set] or [Map]:
    the two zeros are one key. *)
Definition keyOf (x : jsnum) : jsnum :=
  match x with
  | S754_zero _ => S754_zero false
  | _ => x
  end.

(** The facts of [l] whose value is the same [Map] key as [v]. *)
Definition factsWorth (v : jsnum) (l : list Fact) : list Fact :=
  List.filter (fun f => sameValueZero (f_value f) v) l.

Definition crossThree : CrossConflict :=
  hd (mkCross [] [] [])
     (crossConflicts (groupByKey (collectFacts corpusThree))
        (groupSimilarKeys (groupByKey (collectFacts corpusThree)))).

(** A cluster grown from a first key: every later key was linked to a
    key already in the cluster when it was added. *)
Inductive Chained : list jsstring -> Prop :=
| chained_seed k : Chained [k]
| chained_push group o :
    Chained group -> (exists g, g ∈ group /\ linked g o = true) ->
    Chained (group ++ [o]).

(** Every key linked to the first key of a cluster lies in that cluster
    or in an earlier one. *)
Definition seedsAbsorb (keys : list jsstring) (groups : list (list jsstring)) : Prop :=
  forall i g k o,
    groups !! i = Some g -> head g = Some k -> o ∈ keys -> linked k o = true ->
    exists j g', j <= i /\ groups !! j = Some g' /\ o ∈ g'.

Definition keysShelter : KeyMap :=
  [(str "shelter program serves dogs", []); (str "shelter program serves cats", [])].

(** A word: at least one code unit, none of them white space. *)
Definition isWord (w : jsstring) : bool :=
  negb (bool_decide (w = [])) && forallb (fun c => negb (isSpace c)) w.

Definition stateFee : mstate := MState [] (str "a $5 fee") [].

Definition matchFee : MatchResult :=
  mkMatch 2 (str "$5") [] (MState (str "5$ a") (str " fee") []).

Definition treeFees : Listing := Entries [FileEnt (str "fees.md")].

Definition readFees (p : jsstring) : ReadResult :=
  doc "The adoption fee is only $5 for each of the puppies.".

Definition conflictThree : Conflict :=
  hd (mkConflict [] [] []) (directConflicts (groupByKey (collectFacts corpusThree))).

(** ** Masked windows *)

(** The window of [makeContextKey] after the two masking replacements. *)
Definition maskedWindow (text : jsstring) (pos : nat) : jsstring :=
  let start := Nat.max 0 (pos - 55) in
  let stop := Nat.min (length text) (pos + 25) in
  let window := trim (replace re_spaces (str " ") (slice text start stop)) in
  let window := replace re_maskDollar (str "$#") window in
  replace re_maskNumber (str "#") window.

(** What [makeContextKey] makes of the masked window. *)
Definition keyOfWindow (window : jsstring) : jsstring :=
  sliceLast 70
    (trim (replace re_spaces (str " ")
             (replace re_nonKey (str " ") (toLowerCase window)))).

(** How a global replacement runs over an input: a code unit where no
    match starts is copied, and a match gives the replacement. *)
Inductive Rewrites (re : RegExp) (repl : jsstring)
    : list ascii -> list ascii -> jsstring -> Prop :=
| rewrites_end before :
    match_here re before [] = None -> Rewrites re repl before [] []
| rewrites_copy before c rest out :
    match_here re before (c :: rest) = None ->
    Rewrites re repl (c :: before) rest out ->
    Rewrites re repl before (c :: rest) (c :: out)
| rewrites_match before rest st1 out :
    match_here re before rest = Some st1 ->
    progressed (startState before rest) st1 = true ->
    Rewrites re repl (ms_before st1) (ms_rest st1) out ->
    Rewrites re repl before rest (repl ++ out).

(** An input with some of its segments replaced by [repl]. *)
Inductive Patched (repl : jsstring) : jsstring -> jsstring -> Prop :=
| patched_nil : Patched repl [] []
| patched_keep c s o : Patched repl s o -> Patched repl (c :: s) (c :: o)
| patched_cut m s o : Patched repl s o -> Patched repl (m ++ s) (repl ++ o).

(** A pattern without empty matches. *)
Definition progresses (re : RegExp) : Prop :=
  forall before rest st1,
    match_here re before rest = Some st1 -> progressed (startState before rest) st1 = true.

(** Where a reader of a text stands: outside a word, in a word made of
    digits so far, or in a word that holds a letter or an underscore or
    follows one. *)
Inductive WordState : Type := Outside | OnlyDigits | Mixed.

Definition wordStep (s : WordState) (c : ascii) : WordState :=
  if isDigit c then match s with Mixed => Mixed | _ => OnlyDigits end
  else if isWordChar c then Mixed else Outside.

(** No word of the text read from state [s] is made of digits only. *)
Fixpoint noBareNumeral (s : WordState) (text : jsstring) : bool :=
  match text with
  | [] => match s with OnlyDigits => false | _ => true end
  | c :: text' =>
    match s with OnlyDigits => isWordChar c | _ => true end
    && noBareNumeral (wordStep s c) text'
  end.

(** What the state of the reader says about the place of a replacement
    run: outside a word the place is not inside a word of the input, and
    in a word of digits the attempt at the start of the word failed. *)
Definition numeralInv (s : WordState) (before rest : list ascii) : Prop :=
  match s with
  | Outside => headIsWord rest = true -> headIsWord before = false
  | Mixed => True
  | OnlyDigits =>
    exists ds before0,
      ds <> [] /\ Forall (fun c => isDigit c = true) ds /\
      before = rev ds ++ before0 /\ headIsWord before0 = false /\
      match_here re_maskNumber before0 (ds ++ rest) = None
  end.

Definition isDollar (c : ascii) : bool := (code c =? 36)%N.

Definition headIsNumeric (s : jsstring) : bool :=
  match s with
  | c :: _ => isNumeric c
  | [] => false
  end.

(** No dollar sign is followed by a digit, a comma or a dot. *)
Fixpoint noAmount (s : jsstring) : bool :=
  match s with
  | c :: s' => negb (isDollar c && headIsNumeric s') && noAmount s'
  | [] => true
  end.

(** A letter or the underscore: a word character that is not a digit. *)
Definition isNameChar (c : ascii) : bool := isWordChar c && negb (isDigit c).

(** A digit next to a letter or an underscore. *)
Definition clash (a b : ascii) : bool :=
  (isDigit a && isNameChar b) || (isNameChar a && isDigit b).

Definition clashHead (c : ascii) (s : jsstring) : bool :=
  match s with
  | d :: _ => clash c d
  | [] => false
  end.

(** No digit of the text stands next to a letter or an underscore. *)
Fixpoint digitsApart (s : jsstring) : bool :=
  match s with
  | c :: s' => negb (clashHead c s') && digitsApart s'
  | [] => true
  end.

(** ** Leading digits, clusters and runs of the pass *)

(** Every match of the pattern is non-empty and starts with a code unit
    that [p] accepts. *)
Fixpoint startsWithin (ic : bool) (p : ascii -> bool) (r : regex) : bool :=
  match r with
  | RSet cs => forallb (fun c => implb (cs_mem ic cs c) (p c)) allAscii
  | RSeq r1 _ | RGroup _ r1 => startsWithin ic p r1
  | RAlt r1 r2 => startsWithin ic p r1 && startsWithin ic p r2
  | RQuant (S _) None r1 | RQuant (S _) (Some (S _)) r1 => startsWithin ic p r1
  | _ => false
  end.

Definition headIsDigit (s : jsstring) : bool :=
  match s with
  | c :: _ => isDigit c
  | [] => false
  end.

(** The facts stated under the keys of a cluster, key by key. *)
Definition clusterFacts (allFacts : list Fact) (group : list jsstring) : list Fact :=
  flat_map (fun k => factsUnder k allFacts) group.

(** Two documents that state a count under two similar keys; both keys
    hold the word [character]. *)
Definition corpusStory : Corpus :=
  [(str "a.md", doc "Every character in the story feeds 12 dogs each day.");
   (str "b.md", doc "Every character in this story feeds 15 dogs each day.")].

(** Two documents that state one count under two similar keys. *)
Definition corpusTwoKeys : Corpus :=
  [(str "a.md", doc "Our shelter program now serves 12 dogs every single week.");
   (str "c.md", doc "The shelter program serves 15 dogs every week.")].








(** * Properties *)

(** ** The matcher and its matches *)

Lemma clear_caps_rest gs st : ms_rest (clear_caps gs st) = ms_rest st.
Proof. now destruct gs. Qed.

Lemma clear_caps_before gs st : ms_before (clear_caps gs st) = ms_before st.
Proof. now destruct gs. Qed.

Lemma consumes_trans st st1 st2 w1 w2 :
  consumes st st1 w1 -> consumes st1 st2 w2 -> consumes st st2 (w1 ++ w2).
Proof.
  intros [H1 H2] [H3 H4]. split.
  - now rewrite H1, H3, app_assoc.
  - now rewrite H4, H2, rev_app_distr, app_assoc.
Qed.

Lemma Matches_consumes ic r st st' :
  Matches ic r st st' -> exists w, consumes st st' w.
Proof.
  induction 1 as [st|cs c before rest caps Hc|r1 r2 st st1 st2 _ [w1 IH1] _ [w2 IH2]
                 |r1 r2 st st' _ IH|r1 r2 st st' _ IH|min max r st _
                 |min max r st st1 st2 _ _ [w1 IH1] _ _ [w2 IH2]
                 |n r st st1 _ [w IH]|st _|st _|st _];
    try (exists []; split; reflexivity).
  - exists [c]. split; reflexivity.
  - exists (w1 ++ w2). eapply consumes_trans; eauto.
  - exact IH.
  - exact IH.
  - exists (w1 ++ w2). eapply consumes_trans; [|exact IH2].
    destruct IH1 as [H1 H2]. rewrite clear_caps_rest in H1. rewrite clear_caps_before in H2.
    now split.
  - exists w. exact IH.
Qed.

Lemma consumes_length st st' w :
  consumes st st' w -> length (ms_rest st) = length w + length (ms_rest st').
Proof. intros [H _]. now rewrite H, length_app. Qed.

Lemma Matches_rest_le ic r st st' :
  Matches ic r st st' -> length (ms_rest st') <= length (ms_rest st).
Proof.
  intros H. apply Matches_consumes in H as [w Hw]. apply consumes_length in Hw. lia.
Qed.

(** ** The search agrees with [Matches] *)

Lemma repeat_loop_sound ic r :
  sound ic r ->
  forall fuel min max st k x,
    min + length (ms_rest st) <= fuel ->
    repeat_loop (rmatch ic r) (groups_in r) fuel min max st k = Some x ->
    exists st', Matches ic (RQuant min max r) st st' /\ k st' = Some x.
Proof.
  intros Hr. induction fuel as [|fuel IH]; intros min max st k x Hfuel Hloop.
  - assert (min = 0) by lia. subst min.
    exists st. split; [apply M_QuantStop; now left|].
    cbn in Hloop. now destruct max as [[|?]|].
  - cbn [repeat_loop] in Hloop.
    destruct (decide (max = Some 0)) as [->|Hmax].
    { exists st. split; [apply M_QuantStop; now right | exact Hloop]. }
    assert (forall y,
      rmatch ic r (clear_caps (groups_in r) st)
        (fun st1 => if (min =? 0) && negb (progressed st st1) then None
                    else repeat_loop (rmatch ic r) (groups_in r) fuel (pred min)
                           (option_map pred max) st1 k) = Some y ->
      exists st', Matches ic (RQuant min max r) st st' /\ k st' = Some y) as Hbody.
    { intros y Hy. apply Hr in Hy as (st1 & Hm1 & Hd).
      destruct ((min =? 0) && negb (progressed st st1)) eqn:Hchk; [discriminate|].
      pose proof (Matches_rest_le _ _ _ _ Hm1) as Hle. rewrite clear_caps_rest in Hle.
      apply IH in Hd as (st2 & Hm2 & Hk).
      - exists st2. split; [|exact Hk].
        eapply M_QuantStep; eauto.
        intros ->. cbn in Hchk. now apply negb_false_iff in Hchk.
      - destruct min as [|min]; cbn in *; [|lia].
        apply negb_false_iff in Hchk. unfold progressed in Hchk.
        apply Nat.ltb_lt in Hchk. lia. }
    assert (match max with Some 0 => k st | _ =>
              if min =? 0 then
                match rmatch ic r (clear_caps (groups_in r) st)
                  (fun st1 => if (min =? 0) && negb (progressed st st1) then None
                    else repeat_loop (rmatch ic r) (groups_in r) fuel (pred min)
                           (option_map pred max) st1 k) with
                | Some x => Some x | None => k st end
              else rmatch ic r (clear_caps (groups_in r) st)
                  (fun st1 => if (min =? 0) && negb (progressed st st1) then None
                    else repeat_loop (rmatch ic r) (groups_in r) fuel (pred min)
                           (option_map pred max) st1 k)
            end = Some x) as Hloop' by exact Hloop.
    clear Hloop.
    assert (forall T (a b : T), match max with Some 0 => a | _ => b end = b) as Hsel.
    { intros T a b. destruct max as [[|?]|]; [congruence|reflexivity|reflexivity]. }
    rewrite Hsel in Hloop'.
    destruct (min =? 0) eqn:Hmin.
    + destruct (rmatch ic r _ _) as [y|] eqn:Hy.
      * inversion Hloop'; subst y. now apply Hbody.
      * exists st. split; [|exact Hloop'].
        apply M_QuantStop. left. now apply Nat.eqb_eq.
    + now apply Hbody.
Qed.

Lemma rmatch_sound ic r : sound ic r.
Proof.
  induction r as [|cs|r1 IH1 r2 IH2|r1 IH1 r2 IH2|min max r IH|n r IH| | |];
    intros st k x H; cbn [rmatch] in H.
  - exists st. split; [constructor | exact H].
  - destruct st as [before [|c rest] caps]; cbn in H; [discriminate|].
    destruct (cs_mem ic cs c) eqn:Hc; [|discriminate].
    eexists. split; [now constructor | exact H].
  - apply IH1 in H as (st1 & Hm1 & H). apply IH2 in H as (st2 & Hm2 & H).
    exists st2. split; [econstructor; eauto | exact H].
  - destruct (rmatch ic r1 st k) as [y|] eqn:H1.
    + inversion H; subst y. apply IH1 in H1 as (st' & Hm & Hk).
      exists st'. split; [now apply M_AltL | exact Hk].
    + apply IH2 in H as (st' & Hm & Hk).
      exists st'. split; [now apply M_AltR | exact Hk].
  - eapply repeat_loop_sound; eauto.
  - apply IH in H as (st1 & Hm & Hk).
    eexists. split; [apply M_Group; exact Hm | exact Hk].
  - destruct (atWordBoundary st) eqn:Hb; [|discriminate].
    exists st. split; [now constructor | exact H].
  - destruct (ms_before st) eqn:Hb; [|discriminate].
    exists st. split; [now constructor | exact H].
  - destruct (ms_rest st) eqn:Hb; [|discriminate].
    exists st. split; [now constructor | exact H].
Qed.

Lemma repeat_loop_complete ic r :
  complete ic r ->
  forall fuel min max st st' k,
    min + length (ms_rest st) <= fuel ->
    Matches ic (RQuant min max r) st st' -> k st' <> None ->
    repeat_loop (rmatch ic r) (groups_in r) fuel min max st k <> None.
Proof.
  intros Hr. induction fuel as [|fuel IH]; intros min max st st' k Hfuel Hm Hk.
  - assert (min = 0) by lia. subst min.
    assert (length (ms_rest st) = 0) as Hlen by lia.
    inversion Hm; subst.
    + cbn. now destruct max as [[|?]|].
    + exfalso. match goal with H : 0 = 0 -> progressed _ _ = true |- _ =>
        specialize (H eq_refl); unfold progressed in H; apply Nat.ltb_lt in H; lia end.
  - cbn [repeat_loop].
    inversion Hm; subst.
    + (* stop *)
      match goal with H : _ \/ _ |- _ => destruct H as [->| ->] end; [|exact Hk].
      destruct max as [[|?]|]; [exact Hk| |]; cbn [Nat.eqb];
        destruct (rmatch ic r _ _); congruence.
    + (* step *)
      match goal with
      | Hn : max <> Some 0, Hb : Matches ic r _ ?s1, Hp : min = 0 -> _,
        Hq : Matches ic (RQuant _ _ r) ?s1 st' |- _ =>
        rename s1 into st1; rename Hb into Hbody; rename Hp into Hprog; rename Hq into Hrest
      end.
      pose proof (Matches_rest_le _ _ _ _ Hbody) as Hle. rewrite clear_caps_rest in Hle.
      assert (rmatch ic r (clear_caps (groups_in r) st)
        (fun st1 => if (min =? 0) && negb (progressed st st1) then None
                    else repeat_loop (rmatch ic r) (groups_in r) fuel (pred min)
                           (option_map pred max) st1 k) <> None) as Hgo.
      { apply (Hr _ st1); [exact Hbody|].
        destruct (min =? 0) eqn:Hmin.
        - apply Nat.eqb_eq in Hmin. rewrite (Hprog Hmin). cbn.
          apply (IH _ _ _ st'); [|exact Hrest|exact Hk].
          subst min. specialize (Hprog eq_refl). unfold progressed in Hprog.
          apply Nat.ltb_lt in Hprog. cbn. lia.
        - cbn. apply (IH _ _ _ st'); [|exact Hrest|exact Hk].
          apply Nat.eqb_neq in Hmin. lia. }
      destruct max as [[|?]|]; [congruence| |];
        (destruct (min =? 0); [destruct (rmatch ic r _ _); congruence | exact Hgo]).
Qed.

Lemma rmatch_complete ic r : complete ic r.
Proof.
  induction r as [|cs|r1 IH1 r2 IH2|r1 IH1 r2 IH2|min max r IH|n r IH| | |];
    intros st st' k Hm Hk; cbn [rmatch]; inversion Hm; subst; cbn [ms_rest ms_before].
  - exact Hk.
  - match goal with H : cs_mem _ _ _ = true |- _ => rewrite H end. exact Hk.
  - eapply IH1; eauto.
  - destruct (rmatch ic r1 st k) eqn:H1; [discriminate|].
    exfalso. eapply IH1; eauto.
  - destruct (rmatch ic r1 st k) eqn:H1; [discriminate|]. eapply IH2; eauto.
  - eapply repeat_loop_complete; eauto.
  - eapply repeat_loop_complete; eauto.
  - eapply IH; eauto.
  - match goal with H : atWordBoundary _ = true |- _ => rewrite H end. exact Hk.
  - match goal with H : ms_before _ = [] |- _ => rewrite H end. exact Hk.
  - match goal with H : ms_rest _ = [] |- _ => rewrite H end. exact Hk.
Qed.

(** ** Searching *)

Lemma match_here_Some re before rest st1 :
  match_here re before rest = Some st1 ->
  Matches (re_ignoreCase re) (re_pattern re) (startState before rest) st1.
Proof.
  unfold match_here. intros H.
  apply rmatch_sound in H as (st' & Hm & Hk). now inversion Hk; subst.
Qed.

Lemma match_here_complete re before rest st1 :
  Matches (re_ignoreCase re) (re_pattern re) (startState before rest) st1 ->
  match_here re before rest <> None.
Proof.
  intros Hm. unfold match_here. eapply rmatch_complete; [exact Hm | discriminate].
Qed.

Lemma scan_complete re (pre : list ascii) : forall before post st1,
  Matches (re_ignoreCase re) (re_pattern re) (startState (rev pre ++ before) post) st1 ->
  scan re before (pre ++ post) <> None.
Proof.
  induction pre as [|c pre IH]; intros before post st1 Hm.
  - cbn in *. apply match_here_complete in Hm.
    destruct post; cbn; destruct (match_here re before _); congruence.
  - cbn [app scan]. destruct (match_here re before _); [discriminate|].
    apply (IH _ _ st1). cbn in Hm. now rewrite <- app_assoc in Hm.
Qed.

Lemma scan_sound re (rest : list ascii) : forall before st0 st1,
  scan re before rest = Some (st0, st1) ->
  exists pre post,
    rest = pre ++ post /\ st0 = startState (rev pre ++ before) post /\
    Matches (re_ignoreCase re) (re_pattern re) st0 st1.
Proof.
  induction rest as [|c rest IH]; intros before st0 st1 H; cbn [scan] in H.
  - destruct (match_here re before []) eqn:Hm; [|discriminate].
    inversion H; subst. exists [], []. repeat split. now apply match_here_Some.
  - destruct (match_here re before (c :: rest)) eqn:Hm.
    + inversion H; subst. exists [], (c :: rest). repeat split. now apply match_here_Some.
    + apply IH in H as (pre & post & -> & -> & Hmt).
      exists (c :: pre), post. cbn. rewrite <- app_assoc. repeat split. exact Hmt.
Qed.

Lemma test_true re (pre post : list ascii) st1 :
  Matches (re_ignoreCase re) (re_pattern re) (startState (rev pre) post) st1 ->
  test re (pre ++ post) = true.
Proof.
  intros Hm. unfold test, exec, exec_from. cbn [ms_before ms_rest].
  pose proof (scan_complete re pre [] post st1) as H. rewrite app_nil_r in H.
  specialize (H Hm). now destruct (scan re [] (pre ++ post)).
Qed.

Lemma test_false re (text : jsstring) :
  (forall pre post st1, text = pre ++ post ->
     ~ Matches (re_ignoreCase re) (re_pattern re) (startState (rev pre) post) st1) ->
  test re text = false.
Proof.
  intros Hno. unfold test, exec, exec_from. cbn [ms_before ms_rest].
  destruct (scan re [] text) as [[st0 st1]|] eqn:Hs; [|reflexivity].
  apply scan_sound in Hs as (pre & post & -> & -> & Hm).
  rewrite app_nil_r in Hm. exfalso. eapply Hno; eauto.
Qed.

(** ** Greedy runs over a character class *)

Lemma rmatch_set_cons ic cs before c rest caps (k : cont) :
  rmatch ic (RSet cs) (MState before (c :: rest) caps) k
  = if cs_mem ic cs c then k (MState (c :: before) rest caps) else None.
Proof. reflexivity. Qed.

Lemma rmatch_set_nil ic cs before caps (k : cont) :
  rmatch ic (RSet cs) (MState before [] caps) k = None.
Proof. reflexivity. Qed.

Lemma repeat_set_run ic cs k x caps rest' (run : list ascii) :
  forall fuel min before,
    Forall (fun c => cs_mem ic cs c = true) run ->
    headOutside ic cs rest' ->
    min <= length run -> min + length run <= fuel ->
    k (MState (rev run ++ before) rest' caps) = Some x ->
    repeat_loop (rmatch ic (RSet cs)) [] fuel min None
      (MState before (run ++ rest') caps) k = Some x.
Proof.
  induction run as [|c run IH]; intros fuel min before Hrun Hout Hmin Hfuel Hk.
  - cbn in Hmin. assert (min = 0) by lia. subst min. cbn in Hk.
    destruct fuel as [|fuel]; [exact Hk|].
    cbn [repeat_loop clear_caps app Nat.eqb].
    destruct rest' as [|c rest']; [now rewrite rmatch_set_nil|].
    cbn in Hout. now rewrite rmatch_set_cons, Hout.
  - destruct fuel as [|fuel]; [cbn in Hfuel; lia|].
    inversion Hrun as [|? ? Hc Hrun']; subst.
    assert (repeat_loop (rmatch ic (RSet cs)) [] fuel (pred min) None
              (MState (c :: before) (run ++ rest') caps) k = Some x) as Hnext.
    { apply IH; auto.
      - cbn in Hmin. lia.
      - cbn in Hfuel. lia.
      - cbn in Hk. now rewrite <- app_assoc in Hk. }
    cbn [repeat_loop clear_caps app option_map].
    rewrite !rmatch_set_cons, Hc. unfold progressed. cbn [ms_rest length].
    rewrite (proj2 (Nat.ltb_lt _ _)) by lia.
    rewrite andb_false_r. rewrite Hnext. now destruct (min =? 0).
Qed.

Lemma quant_set_run ic cs min k x caps before rest' (run : list ascii) :
  Forall (fun c => cs_mem ic cs c = true) run ->
  headOutside ic cs rest' ->
  min <= length run ->
  k (MState (rev run ++ before) rest' caps) = Some x ->
  rmatch ic (RQuant min None (RSet cs)) (MState before (run ++ rest') caps) k = Some x.
Proof.
  intros Hrun Hout Hmin Hk. cbn [rmatch groups_in ms_rest].
  apply repeat_set_run; auto. rewrite length_app. lia.
Qed.

(** ** Replacement *)

Lemma skipped_cons c rest st0 :
  length (ms_rest st0) <= length rest ->
  skipped (c :: rest) st0 = c :: skipped rest st0.
Proof.
  intros H. unfold skipped. cbn [length].
  replace (S (length rest) - length (ms_rest st0)) with (S (length rest - length (ms_rest st0))) by lia.
  reflexivity.
Qed.

Lemma replace_loop_skip fuel re repl before c rest :
  match_here re before (c :: rest) = None ->
  replace_loop (S fuel) re repl before (c :: rest)
  = c :: replace_loop (S fuel) re repl (c :: before) rest.
Proof.
  intros Hm. cbn [replace_loop scan]. rewrite Hm.
  destruct (scan re (c :: before) rest) as [[st0 st1]|] eqn:Hs; [|reflexivity].
  rewrite skipped_cons; [reflexivity|].
  apply scan_sound in Hs as (pre & post & -> & -> & _).
  cbn. rewrite length_app. lia.
Qed.

Lemma replace_loop_hit fuel re repl before rest st1 :
  match_here re before rest = Some st1 ->
  progressed (startState before rest) st1 = true ->
  replace_loop (S fuel) re repl before rest
  = repl ++ replace_loop fuel re repl (ms_before st1) (ms_rest st1).
Proof.
  intros Hm Hp. cbn [replace_loop].
  assert (scan re before rest = Some (startState before rest, st1)) as ->.
  { destruct rest; cbn [scan]; now rewrite Hm. }
  rewrite Hp. unfold skipped, startState. cbn [ms_rest].
  now rewrite Nat.sub_diag.
Qed.

Lemma replace_loop_nil fuel re repl before :
  match_here re before [] = None -> replace_loop fuel re repl before [] = [].
Proof.
  intros Hm. destruct fuel; [reflexivity|]. cbn. now rewrite Hm.
Qed.

(** Replacing the code units of a class. *)
Lemma replace_set_loop ic cs repl (rest : list ascii) : forall fuel before,
  length rest < fuel ->
  replace_loop fuel (mkRegExp (RSet cs) ic true) repl before rest
  = flat_map (fun c => if cs_mem ic cs c then repl else [c]) rest.
Proof.
  induction rest as [|c rest IH]; intros fuel before Hfuel.
  - now apply replace_loop_nil.
  - destruct fuel as [|fuel]; [cbn in Hfuel; lia|]. cbn [flat_map].
    destruct (cs_mem ic cs c) eqn:Hc.
    + rewrite (replace_loop_hit _ _ _ _ _ (MState (c :: before) rest [])).
      * cbn [ms_before ms_rest]. rewrite IH; [reflexivity | cbn in Hfuel; lia].
      * unfold match_here. cbn. now rewrite Hc.
      * unfold progressed, startState. cbn [ms_rest length]. apply Nat.ltb_lt. lia.
    + rewrite replace_loop_skip.
      * rewrite IH; [reflexivity | cbn in Hfuel; lia].
      * unfold match_here. cbn. now rewrite Hc.
Qed.

Lemma replace_set ic cs repl (text : jsstring) :
  replace (mkRegExp (RSet cs) ic true) repl text
  = flat_map (fun c => if cs_mem ic cs c then repl else [c]) text.
Proof. unfold replace. cbn [re_global]. apply replace_set_loop. lia. Qed.

(** Collapsing white space: what is left is a space or a code unit of the
    input that is not white space. *)
Lemma match_here_spaces before c rest :
  match_here re_spaces before (c :: rest)
  = if isSpace c
    then Some (MState (rev (takeWhile isSpace (c :: rest)) ++ before)
                      (dropWhile isSpace (c :: rest)) [])
    else None.
Proof.
  destruct (isSpace c) eqn:Hc.
  - unfold match_here, re_spaces, RPlus, cSpace. cbn [re_ignoreCase re_pattern].
    assert (c :: rest = takeWhile isSpace (c :: rest) ++ dropWhile isSpace (c :: rest)) as Hsplit.
    { generalize (c :: rest). induction l as [|a l IHl]; [reflexivity|].
      cbn. destruct (isSpace a); [cbn; now f_equal | reflexivity]. }
    rewrite Hsplit at 1. apply quant_set_run.
    + generalize (c :: rest). induction l as [|a l IHl]; [constructor|].
      cbn. destruct (isSpace a) eqn:Ha; [|constructor].
      constructor; [|exact IHl]. unfold cs_mem. cbn. now rewrite Ha.
    + generalize (c :: rest). induction l as [|a l IHl]; [exact I|].
      cbn. destruct (isSpace a) eqn:Ha; [exact IHl|].
      cbn. unfold cs_mem. cbn. now rewrite Ha.
    + cbn. rewrite Hc. cbn. lia.
    + reflexivity.
  - unfold match_here. cbn. unfold cs_mem. cbn. now rewrite Hc.
Qed.

Lemma dropWhile_length {A} (p : A -> bool) l : length (dropWhile p l) <= length l.
Proof. induction l as [|a l IH]; cbn; [lia|]. destruct (p a); cbn; lia. Qed.

Lemma dropWhile_incl {A} (p : A -> bool) l x : x ∈ dropWhile p l -> x ∈ l.
Proof.
  induction l as [|a l IH]; cbn; [auto|]. destruct (p a); [|auto].
  intros H. right. auto.
Qed.

Lemma replace_spaces_loop (n : nat) : forall (rest : list ascii) fuel before c,
  length rest <= n -> length rest < fuel ->
  c ∈ replace_loop fuel re_spaces (str " ") before rest ->
  c = " "%char \/ (c ∈ rest /\ isSpace c = false).
Proof.
  induction n as [|n IH]; intros rest fuel before c Hn Hfuel Hc.
  - destruct rest; [|cbn in Hn; lia].
    rewrite replace_loop_nil in Hc by reflexivity. inversion Hc.
  - destruct rest as [|a rest].
    { rewrite replace_loop_nil in Hc by reflexivity. inversion Hc. }
    destruct fuel as [|fuel]; [lia|].
    pose proof (match_here_spaces before a rest) as Hm.
    destruct (isSpace a) eqn:Ha.
    + rewrite (replace_loop_hit _ _ _ _ _ _ Hm) in Hc.
      * cbn [ms_before ms_rest] in Hc. apply elem_of_app in Hc as [Hc|Hc].
        { left. now apply list_elem_of_singleton in Hc. }
        assert (length (dropWhile isSpace (a :: rest)) <= length rest) as Hlen.
        { cbn. rewrite Ha. apply dropWhile_length. }
        apply IH in Hc as [Hc|[Hc Hs]]; [now left| | cbn in Hn; lia | cbn in Hfuel; lia].
        right. split; [|exact Hs]. now apply dropWhile_incl in Hc.
      * unfold progressed, startState. cbn [ms_rest]. apply Nat.ltb_lt.
        cbn [dropWhile]. rewrite Ha. pose proof (dropWhile_length isSpace rest). cbn. lia.
    + rewrite (replace_loop_skip _ _ _ _ _ _ Hm) in Hc.
      apply elem_of_cons in Hc as [->|Hc].
      * right. split; [now left | exact Ha].
      * apply IH in Hc as [Hc|[Hc Hs]]; [now left| | cbn in Hn; lia | cbn in Hfuel; lia].
        right. split; [now right | exact Hs].
Qed.

Lemma replace_spaces_elem (text : jsstring) c :
  c ∈ replace re_spaces (str " ") text ->
  c = " "%char \/ (c ∈ text /\ isSpace c = false).
Proof.
  unfold replace. cbn [re_global re_spaces]. apply (replace_spaces_loop (length text)); lia.
Qed.

(** ** Digits, separators and trimming *)

Ltac ascii_cases c :=
  destruct c as [[|] [|] [|] [|] [|] [|] [|] [|]]; try reflexivity; try discriminate.

Lemma digit_not_space c : isDigit c = true -> isSpace c = false.
Proof. ascii_cases c. Qed.

Lemma digit_not_comma c : isDigit c = true -> isComma c = false.
Proof. ascii_cases c. Qed.

Lemma takeSign_digit c s : isDigit c = true -> takeSign (c :: s) = (false, c :: s).
Proof. ascii_cases c. Qed.

Lemma startsWith_Infinity_digit c s :
  isDigit c = true -> startsWith (str "Infinity") (c :: s) = false.
Proof. ascii_cases c. Qed.

Lemma takeWhile_app_stop {A} (p : A -> bool) l rest :
  Forall (fun c => p c = true) l ->
  match rest with [] => True | c :: _ => p c = false end ->
  takeWhile p (l ++ rest) = l /\ dropWhile p (l ++ rest) = rest.
Proof.
  intros Hl Hr. induction Hl as [|c l Hc _ [IH1 IH2]]; cbn.
  - destruct rest as [|c rest]; cbn; [split; reflexivity|]. now rewrite Hr.
  - rewrite Hc. now rewrite IH1, IH2.
Qed.

Lemma dropWhile_head_false {A} (p : A -> bool) c l :
  p c = false -> dropWhile p (c :: l) = c :: l.
Proof. intros H. cbn. now rewrite H. Qed.

Lemma trim_nospace (s : jsstring) :
  Forall (fun c => isSpace c = false) s -> trim s = s.
Proof.
  intros H. unfold trim.
  assert (forall l : jsstring, Forall (fun c => isSpace c = false) l -> dropWhile isSpace l = l) as Hd.
  { intros l Hl. destruct Hl as [|c l Hc _]; [reflexivity|]. now apply dropWhile_head_false. }
  rewrite (Hd s H). rewrite Hd; [apply rev_involutive|].
  apply Forall_forall. intros c Hc. rewrite Forall_forall in H. apply H.
  apply list_elem_of_In. apply in_rev. now apply list_elem_of_In.
Qed.

Lemma replace_comma (s : jsstring) : replace re_comma [] s = stripCommas s.
Proof.
  unfold re_comma, RChar. rewrite replace_set.
  induction s as [|c s IH]; [reflexivity|].
  cbn [flat_map stripCommas List.filter]. fold (stripCommas s). rewrite IH.
  unfold cs_mem, isComma. cbn [cs_has andb orb]. rewrite orb_false_r.
  rewrite (N.eqb_sym (code c)). change (code ",") with 44%N.
  now destruct (44 =? code c)%N.
Qed.

Lemma stripCommas_app a b : stripCommas (a ++ b) = stripCommas a ++ stripCommas b.
Proof. unfold stripCommas. apply List.filter_app. Qed.

Lemma stripCommas_id s : Forall (fun c => isComma c = false) s -> stripCommas s = s.
Proof.
  induction 1 as [|c s Hc _ IH]; [reflexivity|].
  cbn. rewrite Hc. cbn. fold (stripCommas s). now rewrite IH.
Qed.

Lemma stripCommas_digits s :
  Forall (fun c => isDigit c = true) s -> stripCommas s = s.
Proof.
  intros H. apply stripCommas_id. eapply Forall_impl; [exact H|].
  intros c Hc. now apply digit_not_comma.
Qed.

Lemma stripCommas_magnitude g : stripCommas (magnitudeText g) = magnitudeText g.
Proof. now destruct g. Qed.

Lemma stripCommas_fraction fs :
  Forall (fun c => isDigit c = true) fs -> stripCommas (fractionText fs) = fractionText fs.
Proof.
  intros H. destruct fs as [|f fs]; [reflexivity|].
  cbn [fractionText]. change (stripCommas ("."%char :: f :: fs)) with ("."%char :: stripCommas (f :: fs)).
  now rewrite stripCommas_digits.
Qed.

(** What [isNumeral] gives about the integer part once the separators
    are removed. *)
Lemma isNumeral_inv ip fs :
  isNumeral ip fs = true ->
  Forall (fun c => isDigit c = true) (stripCommas ip) /\ stripCommas ip <> [] /\
  Forall (fun c => isDigit c = true) fs /\
  Forall (fun c => isDigit c || isComma c = true) ip.
Proof.
  unfold isNumeral. rewrite !andb_true_iff. intros [[Hip Hex] Hfs].
  rewrite forallb_forall in Hip, Hfs. apply existsb_exists in Hex as (d & Hd & Hdd).
  repeat split.
  - apply Forall_forall. intros c Hc. unfold stripCommas in Hc.
    apply list_elem_of_In, filter_In in Hc as [Hc Hn].
    specialize (Hip c Hc). apply negb_true_iff in Hn. now rewrite Hn, orb_false_r in Hip.
  - intros Hnil.
    assert (In d (stripCommas ip)) as Hin.
    { apply filter_In. split; [exact Hd|]. now rewrite digit_not_comma. }
    rewrite Hnil in Hin. inversion Hin.
  - apply Forall_forall. intros c Hc. apply Hfs. now apply list_elem_of_In.
  - apply Forall_forall. intros c Hc. apply Hip. now apply list_elem_of_In.
Qed.

(** ** [parseFloat] and [parseInt] on numerals *)

Lemma exponentPart_magnitude g : exponentPart (magnitudeText g) = 0%Z.
Proof. now destruct g. Qed.

Lemma magnitude_head_not_digit g :
  match magnitudeText g with [] => True | c :: _ => isDigit c = false end.
Proof. now destruct g. Qed.

Lemma parseFloat_numeral ds fs g :
  Forall (fun c => isDigit c = true) ds -> ds <> [] ->
  Forall (fun c => isDigit c = true) fs ->
  parseFloat (ds ++ fractionText fs ++ magnitudeText g)
  = num_of_dec (digitsValue (ds ++ fs)) (- Z.of_nat (length fs)).
Proof.
  intros Hds Hne Hfs.
  destruct ds as [|d ds]; [contradiction|].
  inversion Hds as [|? ? Hd Hds']; subst.
  unfold parseFloat.
  change ((d :: ds) ++ fractionText fs ++ magnitudeText g)
    with (d :: (ds ++ fractionText fs ++ magnitudeText g)).
  rewrite (dropWhile_head_false _ _ _ (digit_not_space _ Hd)).
  rewrite (takeSign_digit _ _ Hd), (startsWith_Infinity_digit _ _ Hd).
  change (d :: ds ++ fractionText fs ++ magnitudeText g)
    with ((d :: ds) ++ fractionText fs ++ magnitudeText g).
  destruct fs as [|f fs].
  - change (fractionText [] ++ magnitudeText g) with (magnitudeText g).
    destruct (takeWhile_app_stop isDigit (d :: ds) (magnitudeText g) Hds
                (magnitude_head_not_digit g)) as [-> ->].
    destruct g; cbn -[num_of_dec digitsValue]; rewrite ?app_nil_r; reflexivity.
  - cbn [fractionText].
    destruct (takeWhile_app_stop isDigit (d :: ds) (("."%char :: f :: fs) ++ magnitudeText g) Hds
                eq_refl) as [-> ->].
    cbn [app].
    change (f :: fs ++ magnitudeText g) with ((f :: fs) ++ magnitudeText g).
    destruct (takeWhile_app_stop isDigit (f :: fs) (magnitudeText g) Hfs
                (magnitude_head_not_digit g)) as [-> ->].
    cbn -[num_of_dec digitsValue exponentPart Z.sub Z.of_nat].
    rewrite exponentPart_magnitude. reflexivity.
Qed.

Lemma parseInt10_digits ds :
  Forall (fun c => isDigit c = true) ds -> ds <> [] ->
  parseInt10 ds = num_of_dec (digitsValue ds) 0.
Proof.
  intros Hds Hne. destruct ds as [|d ds]; [contradiction|].
  inversion Hds as [|? ? Hd Hds']; subst.
  unfold parseInt10.
  rewrite (dropWhile_head_false _ _ _ (digit_not_space _ Hd)), (takeSign_digit _ _ Hd).
  destruct (takeWhile_app_stop isDigit (d :: ds) [] Hds I) as [Ht _].
  rewrite app_nil_r in Ht. rewrite Ht.
  unfold num_of_dec. destruct (digitsValue (d :: ds)) as [|p]; [reflexivity|].
  cbn [Z.leb Z.compare withSign]. now rewrite Z.pow_0_r, Z.mul_1_r.
Qed.

(** ** Building and inverting matches *)

Lemma cs_mem_char ic c : cs_mem ic (CsChar c) c = true.
Proof. unfold cs_mem. cbn. now rewrite N.eqb_refl. Qed.

Lemma code_inj a b : (code a =? code b)%N = true -> a = b.
Proof.
  intros H. apply N.eqb_eq in H. unfold code in H.
  rewrite <- (ascii_N_embedding a), <- (ascii_N_embedding b). now rewrite H.
Qed.

Lemma cs_mem_char_inv c a : cs_mem false (CsChar c) a = true -> a = c.
Proof.
  unfold cs_mem. cbn. rewrite orb_false_r. intros H. symmetry. now apply code_inj.
Qed.

Lemma cs_mem_digit ic c : isDigit c = true -> cs_mem ic CsDigit c = true.
Proof. intros H. unfold cs_mem. cbn. now rewrite H. Qed.

Lemma cs_mem_digit_inv c : cs_mem false CsDigit c = true -> isDigit c = true.
Proof. unfold cs_mem. cbn. now rewrite orb_false_r. Qed.

Lemma M_run ic cs (w : list ascii) : forall min before rest caps,
  Forall (fun c => cs_mem ic cs c = true) w -> min <= length w ->
  Matches ic (RQuant min None (RSet cs))
    (MState before (w ++ rest) caps) (MState (rev w ++ before) rest caps).
Proof.
  induction w as [|c w IH]; intros min before rest caps Hw Hmin.
  - cbn in Hmin. apply M_QuantStop. left. lia.
  - inversion Hw as [|? ? Hc Hw']; subst.
    eapply M_QuantStep.
    + discriminate.
    + cbn [groups_in clear_caps app]. apply M_Set. exact Hc.
    + intros _. unfold progressed. cbn [ms_rest length app]. apply Nat.ltb_lt. lia.
    + cbn [option_map rev]. rewrite <- app_assoc. apply IH; [exact Hw'|].
      cbn in Hmin. lia.
Qed.

Lemma M_opt_skip ic r st : Matches ic (ROpt r) st st.
Proof. apply M_QuantStop. now left. Qed.

Lemma M_opt_take ic r st st1 :
  groups_in r = [] -> Matches ic r st st1 -> progressed st st1 = true ->
  Matches ic (ROpt r) st st1.
Proof.
  intros Hg Hm Hp. eapply M_QuantStep.
  - discriminate.
  - rewrite Hg. exact Hm.
  - intros _. exact Hp.
  - apply M_QuantStop. now left.
Qed.

Lemma M_lit ic (w : list ascii) : forall before rest caps,
  Matches ic (RLit w) (MState before (w ++ rest) caps) (MState (rev w ++ before) rest caps).
Proof.
  induction w as [|c w IH]; intros before rest caps.
  - constructor.
  - destruct w as [|c' w].
    + cbn. apply M_Set. apply cs_mem_char.
    + change (RLit (c :: c' :: w)) with (RSeq (RChar c) (RLit (c' :: w))).
      eapply M_Seq.
      * cbn [app]. apply M_Set. apply cs_mem_char.
      * cbn [rev]. rewrite <- (app_assoc (rev (c' :: w))). apply IH.
Qed.

Lemma Matches_set_inv ic cs st st' :
  Matches ic (RSet cs) st st' ->
  exists c, cs_mem ic cs c = true /\ ms_rest st = c :: ms_rest st' /\
            ms_before st' = c :: ms_before st /\ ms_caps st' = ms_caps st.
Proof. intros H. inversion H; subst. exists c. now repeat split. Qed.

(** A quantified class consumes a run of the class and leaves the
    captures alone. *)
Lemma Matches_run_inv ic cs min st st' :
  Matches ic (RQuant min None (RSet cs)) st st' ->
  exists w, Forall (fun c => cs_mem ic cs c = true) w /\ min <= length w /\
            consumes st st' w /\ ms_caps st' = ms_caps st.
Proof.
  intros H. remember (RQuant min None (RSet cs)) as r eqn:Hr.
  revert min Hr.
  induction H as [| | | | |min0 max0 r0 st Hstop
                 |min0 max0 r0 st st1 st2 Hmax Hbody _ Hprog Hrest IH| | | |];
    intros min Hr; try discriminate.
  - inversion Hr; subst. destruct Hstop as [->|Hstop]; [|discriminate].
    exists []. split; [constructor|]. split; [cbn; lia|]. split; [split|]; reflexivity.
  - inversion Hr; subst. cbn [groups_in clear_caps option_map] in *.
    destruct (IH (pred min) eq_refl) as (w & Hw & Hlen & Hcons & Hcaps).
    apply Matches_set_inv in Hbody as (c & Hc & Hr1 & Hb1 & Hc1).
    exists (c :: w). split; [now constructor|]. split; [cbn; lia|].
    destruct Hcons as [Hc2 Hc3]. split; [split|].
    + rewrite Hr1, Hc2. reflexivity.
    + rewrite Hc3, Hb1. cbn [rev]. now rewrite <- app_assoc.
    + now rewrite Hcaps.
Qed.

Lemma consumes_refl st : consumes st st [].
Proof. split; reflexivity. Qed.

Lemma Matches_lit_inv (w : list ascii) : forall st st',
  Matches false (RLit w) st st' -> consumes st st' w.
Proof.
  induction w as [|c w IH]; intros st st' H.
  - inversion H; subst. apply consumes_refl.
  - destruct w as [|c' w].
    + apply Matches_set_inv in H as (a & Ha & Hr & Hb & _).
      apply cs_mem_char_inv in Ha. subst a. split; [exact Hr | exact Hb].
    + change (RLit (c :: c' :: w)) with (RSeq (RChar c) (RLit (c' :: w))) in H.
      inversion H as [| |? ? ? st1 ? H1 H2| | | | | | | |]; subst.
      apply Matches_set_inv in H1 as (a & Ha & Hr & Hb & _).
      apply cs_mem_char_inv in Ha. subst a.
      apply (consumes_trans st st1 st' [c] (c' :: w)); [split; assumption|].
      now apply IH.
Qed.

Lemma Matches_words_inv (ws : list string) : forall st st',
  ws <> [] -> Matches false (RWords ws) st st' ->
  exists w, w ∈ ws /\ consumes st st' (str w).
Proof.
  unfold RWords. induction ws as [|w ws IH]; intros st st' Hne H; [contradiction|].
  destruct ws as [|w' ws].
  - cbn in H. exists w. split; [now left | now apply Matches_lit_inv].
  - change (RAlts (map (fun w => RLit (str w)) (w :: w' :: ws)))
      with (RAlt (RLit (str w)) (RAlts (map (fun w => RLit (str w)) (w' :: ws)))) in H.
    inversion H; subst.
    + exists w. split; [now left | now apply Matches_lit_inv].
    + destruct (IH st st') as (w0 & Hw0 & Hc); [discriminate|assumption|].
      exists w0. split; [now right | exact Hc].
Qed.

Lemma seq_peel ic r1 r2 st st2 :
  Matches ic (RSeq r1 r2) st st2 ->
  exists st1 u, consumes st st1 u /\ Matches ic r1 st st1 /\ Matches ic r2 st1 st2.
Proof.
  intros H. inversion H as [| |? ? ? st1 ? H1 H2| | | | | | | |]; subst.
  destruct (Matches_consumes _ _ _ _ H1) as [u Hu]. now exists st1, u.
Qed.

Lemma group_words_eol_inv n (ws : list string) st st2 :
  ws <> [] ->
  Matches false (RSeq (RGroup n (RWords ws)) REol) st st2 ->
  exists w, w ∈ ws /\ ms_rest st = str w.
Proof.
  intros Hne H. inversion H as [| |? ? ? st1 ? H1 H2| | | | | | | |]; subst.
  inversion H2; subst. inversion H1 as [| | | | | | |? ? ? st1' Hw| | |]; subst.
  apply Matches_words_inv in Hw as (w & Hw & [Hr _]); [|exact Hne].
  exists w. split; [exact Hw|].
  match goal with Hnil : ms_rest _ = [] |- _ => cbn in Hnil; rewrite Hnil in Hr end.
  now rewrite app_nil_r in Hr.
Qed.

Lemma suffixPattern_inv (ws : list string) pre post st1 :
  ws <> [] ->
  Matches false (suffixPattern ws) (startState (rev pre) post) st1 ->
  exists u w, w ∈ ws /\ post = u ++ str w.
Proof.
  intros Hne H. unfold suffixPattern in H. cbn [RSeqs] in H.
  apply seq_peel in H as (sa & ua & Ha & _ & H).
  apply seq_peel in H as (sb & ub & Hb & _ & H).
  apply seq_peel in H as (sc & uc & Hc & _ & H).
  apply seq_peel in H as (sd & ud & Hd & _ & H).
  apply seq_peel in H as (se & ue & He & _ & H).
  apply group_words_eol_inv in H as (w & Hw & Hrest); [|exact Hne].
  pose proof (consumes_trans _ _ _ _ _ Ha
               (consumes_trans _ _ _ _ _ Hb
                 (consumes_trans _ _ _ _ _ Hc
                   (consumes_trans _ _ _ _ _ Hd He)))) as [Hall _].
  cbn [startState ms_rest] in Hall. rewrite Hrest in Hall.
  eexists _, w. split; [exact Hw | exact Hall].
Qed.

Lemma digits_snoc (ds : list ascii) :
  ds <> [] -> exists ds' d, ds = ds' ++ [d].
Proof.
  intros Hne. destruct (exists_last Hne) as (ds' & d & ->). now exists ds', d.
Qed.

Lemma Forall_snoc_inv {A} (P : A -> Prop) l x :
  Forall P (l ++ [x]) -> Forall P l /\ P x.
Proof.
  intros H. apply Forall_app in H as [H1 H2]. split; [exact H1|]. now inversion H2.
Qed.

Lemma suffixPattern_match (ws : list string) (w : jsstring) ds fs :
  Forall (fun c => isDigit c = true) ds -> ds <> [] ->
  Forall (fun c => isDigit c = true) fs ->
  (forall b caps, Matches false (RWords ws) (MState b w caps) (MState (rev w ++ b) [] caps)) ->
  exists st1,
    Matches false (suffixPattern ws) (startState (rev []) (ds ++ fractionText fs ++ w)) st1.
Proof.
  intros Hds Hne Hfs Hw.
  assert (forall l, Forall (fun c => isDigit c = true) l ->
                    Forall (fun c => cs_mem false CsDigit c = true) l) as Hcls.
  { intros l Hl. eapply Forall_impl; [exact Hl|]. intros c. apply cs_mem_digit. }
  assert (forall b caps, exists st1,
            Matches false (RSeq (RStar cSpace) (RSeq (RGroup 1 (RWords ws)) REol))
              (MState b w caps) st1) as Htail.
  { intros b caps. eexists. eapply M_Seq; [apply M_QuantStop; now left|].
    eapply M_Seq; [apply M_Group; apply Hw|]. now apply M_Eol. }
  unfold suffixPattern, startState. cbn [RSeqs rev].
  destruct fs as [|f fs].
  - destruct (digits_snoc ds Hne) as (ds' & d & ->).
    apply Forall_snoc_inv in Hds as [Hds' Hd].
    destruct (Htail (d :: rev ds' ++ []) []) as [st1 Ht].
    exists st1. cbn [fractionText app]. rewrite <- app_assoc.
    eapply M_Seq; [now apply M_Bol|].
    eapply M_Seq; [apply (M_run false CsDigit ds' 0); [now apply Hcls | lia]|].
    eapply M_Seq; [apply M_opt_skip|].
    eapply M_Seq; [|exact Ht].
    apply (M_run false CsDigit [d] 1 _ w); [apply Hcls; now constructor | cbn; lia].
  - destruct (Htail (rev (f :: fs) ++ "."%char :: rev ds ++ []) []) as [st1 Ht].
    exists st1. cbn [fractionText].
    eapply M_Seq; [now apply M_Bol|].
    eapply M_Seq; [apply (M_run false CsDigit ds 0); [now apply Hcls | lia]|].
    eapply M_Seq.
    { apply M_opt_take; [reflexivity| |].
      - cbn [app]. apply M_Set. apply cs_mem_char.
      - unfold progressed. cbn [ms_rest length app]. apply Nat.ltb_lt. lia. }
    eapply M_Seq; [|exact Ht].
    apply (M_run false CsDigit (f :: fs) 1 _ w); [now apply Hcls | cbn; lia].
Qed.

(** [/^\d+$/] matches exactly the non-empty strings of digits. *)
Lemma allDigits_inv pre post st1 :
  Matches false (re_pattern re_allDigits) (startState (rev pre) post) st1 ->
  pre = [] /\ Forall (fun c => isDigit c = true) post.
Proof.
  intros H. cbn [re_pattern re_allDigits RSeqs] in H.
  inversion H as [| |? ? ? sa ? Ha H'| | | | | | | |]; subst.
  inversion Ha as [| | | | | | | | |? Hbol|]; subst.
  inversion H' as [| |? ? ? sb ? Hb Hc| | | | | | | |]; subst.
  inversion Hc; subst.
  apply Matches_run_inv in Hb as (w & Hw & _ & [Hr _] & _).
  cbn [startState ms_rest ms_before] in Hr, Hbol.
  match goal with Hnil : ms_rest _ = [] |- _ => rewrite Hnil, app_nil_r in Hr end.
  split.
  - destruct pre as [|a pre]; [reflexivity|]. cbn in Hbol.
    apply app_eq_nil in Hbol as [_ Hbol]. discriminate.
  - subst post. eapply Forall_impl; [exact Hw|]. intros c. apply cs_mem_digit_inv.
Qed.

Lemma test_allDigits_true ds :
  Forall (fun c => isDigit c = true) ds -> ds <> [] -> test re_allDigits ds = true.
Proof.
  intros Hds Hne.
  apply (test_true re_allDigits [] ds (MState (rev ds ++ []) [] [])).
  cbn [re_pattern re_ignoreCase re_allDigits RSeqs rev startState].
  eapply M_Seq; [now apply M_Bol|].
  eapply M_Seq; [|now apply M_Eol].
  rewrite <- (app_nil_r ds) at 1. apply M_run.
  - eapply Forall_impl; [exact Hds|]. intros c. apply cs_mem_digit.
  - destruct ds; [contradiction | cbn; lia].
Qed.

Lemma test_allDigits_false (n : jsstring) c :
  c ∈ n -> isDigit c = false -> test re_allDigits n = false.
Proof.
  intros Hin Hc. apply test_false. intros pre post st1 -> Hm.
  apply allDigits_inv in Hm as [-> Hm]. rewrite Forall_forall in Hm.
  specialize (Hm c Hin). congruence.
Qed.

(** The last code unit decides the suffix patterns. *)
Lemma last_app_ne {A} (u w : list A) d : w <> [] -> List.last (u ++ w) d = List.last w d.
Proof.
  intros Hw. induction u as [|a u IH]; [reflexivity|].
  cbn [app]. destruct (u ++ w) eqn:Huw.
  - apply app_eq_nil in Huw as [_ ->]. contradiction.
  - cbn [List.last]. exact IH.
Qed.

Lemma Forall_last {A} (P : A -> Prop) (l : list A) d :
  Forall P l -> l <> [] -> P (List.last l d).
Proof.
  intros H Hne. destruct (exists_last Hne) as (l' & x & ->).
  rewrite List.last_last. apply Forall_app in H as [_ H]. now inversion H.
Qed.

Lemma test_suffixPattern_false (ws : list string) (n : jsstring) :
  ws <> [] ->
  (forall w, w ∈ ws -> str w <> [] /\ List.last (str w) "x"%char <> List.last n "x"%char) ->
  test (mkRegExp (suffixPattern ws) false false) n = false.
Proof.
  intros Hne Hlast. apply test_false. intros pre post st1 -> Hm.
  cbn [re_pattern re_ignoreCase] in Hm.
  apply suffixPattern_inv in Hm as (u & w & Hw & ->); [|exact Hne].
  destruct (Hlast w Hw) as [Hw1 Hw2]. apply Hw2.
  rewrite app_assoc. now rewrite last_app_ne.
Qed.

Lemma test_suffixPattern_true (ws : list string) (w : jsstring) ds fs :
  Forall (fun c => isDigit c = true) ds -> ds <> [] ->
  Forall (fun c => isDigit c = true) fs ->
  (forall b caps, Matches false (RWords ws) (MState b w caps) (MState (rev w ++ b) [] caps)) ->
  test (mkRegExp (suffixPattern ws) false false) (ds ++ fractionText fs ++ w) = true.
Proof.
  intros Hds Hne Hfs Hw.
  destruct (suffixPattern_match ws w ds fs Hds Hne Hfs Hw) as [st1 Hm].
  exact (test_true (mkRegExp (suffixPattern ws) false false) [] _ st1 Hm).
Qed.

Lemma words_million (w : string) :
  w ∈ ["million"; "M"; "m"]%string ->
  forall b caps, Matches false (RWords ["million"; "M"; "m"]%string)
                   (MState b (str w) caps) (MState (rev (str w) ++ b) [] caps).
Proof.
  intros Hw b caps. unfold RWords. cbn [map RAlts].
  pose proof (fun v => M_lit false (str v) b [] caps) as Hlit.
  repeat (apply elem_of_cons in Hw as [->|Hw]).
  - apply M_AltL. specialize (Hlit "million"%string). now rewrite app_nil_r in Hlit.
  - apply M_AltR, M_AltL. specialize (Hlit "M"%string). now rewrite app_nil_r in Hlit.
  - apply M_AltR, M_AltR. specialize (Hlit "m"%string). now rewrite app_nil_r in Hlit.
  - inversion Hw.
Qed.

Lemma words_thousand (w : string) :
  w ∈ ["thousand"; "k"; "K"]%string ->
  forall b caps, Matches false (RWords ["thousand"; "k"; "K"]%string)
                   (MState b (str w) caps) (MState (rev (str w) ++ b) [] caps).
Proof.
  intros Hw b caps. unfold RWords. cbn [map RAlts].
  pose proof (fun v => M_lit false (str v) b [] caps) as Hlit.
  repeat (apply elem_of_cons in Hw as [->|Hw]).
  - apply M_AltL. specialize (Hlit "thousand"%string). now rewrite app_nil_r in Hlit.
  - apply M_AltR, M_AltL. specialize (Hlit "k"%string). now rewrite app_nil_r in Hlit.
  - apply M_AltR, M_AltR. specialize (Hlit "K"%string). now rewrite app_nil_r in Hlit.
  - inversion Hw.
Qed.

(** [/^[\d,]+(?:\.\d+)?$/] on a numeral without separators. *)
Lemma exec_plain ds fs :
  Forall (fun c => isDigit c = true) ds -> ds <> [] ->
  Forall (fun c => isDigit c = true) fs ->
  exists m, exec re_plain (ds ++ fractionText fs) = Some m /\ m_0 m = ds ++ fractionText fs.
Proof.
  intros Hds Hne Hfs. set (n := ds ++ fractionText fs).
  assert (exists st1, Matches false (re_pattern re_plain) (startState [] n) st1) as [st1 Hm].
  { assert (Forall (fun c => cs_mem false (CsUnion CsDigit (CsChar ",")) c = true) ds) as Hcls.
    { eapply Forall_impl; [exact Hds|]. intros c Hc. unfold cs_mem. cbn. now rewrite Hc. }
    cbn [re_pattern re_plain RSeqs]. unfold n, startState.
    destruct fs as [|f fs].
    - eexists. eapply M_Seq; [now apply M_Bol|].
      eapply M_Seq; [apply M_run; [exact Hcls | destruct ds; [contradiction | cbn; lia]]|].
      eapply M_Seq; [apply M_opt_skip | now apply M_Eol].
    - eexists. eapply M_Seq; [now apply M_Bol|].
      eapply M_Seq; [apply M_run; [exact Hcls | destruct ds; [contradiction | cbn; lia]]|].
      eapply M_Seq; [|apply M_Eol].
      * apply (M_opt_take _ _ _ (MState (rev (f :: fs) ++ "."%char :: rev ds ++ []) [] []));
          [reflexivity| |].
        -- cbn [fractionText]. eapply M_Seq; [apply M_Set, cs_mem_char|].
           rewrite <- (app_nil_r (f :: fs)) at 1. apply (M_run false CsDigit (f :: fs) 1).
           ++ eapply Forall_impl; [exact Hfs|]. intros c. apply cs_mem_digit.
           ++ cbn; lia.
        -- unfold progressed. cbn [ms_rest length app fractionText]. apply Nat.ltb_lt. lia.
      * reflexivity. }
  pose proof (match_here_complete re_plain [] n st1 Hm) as Hsome.
  destruct (match_here re_plain [] n) as [st2|] eqn:Hmh; [|contradiction].
  assert (scan re_plain [] n = Some (startState [] n, st2)) as Hscan.
  { destruct n; cbn [scan]; now rewrite Hmh. }
  exists (mkResult (startState [] n, st2)). split.
  - unfold exec, exec_from. cbn [ms_before ms_rest]. now rewrite Hscan.
  - apply match_here_Some in Hmh. cbn [re_pattern re_ignoreCase re_plain RSeqs] in Hmh.
    apply seq_peel in Hmh as (sa & ua & _ & _ & Hmh).
    apply seq_peel in Hmh as (sb & ub & _ & _ & Hmh).
    apply seq_peel in Hmh as (sc & uc & _ & _ & Hmh).
    inversion Hmh as [| | | | | | | | | |? Hnil]; subst.
    cbn [mkResult m_0 fst snd]. unfold captured. cbn [startState ms_rest].
    rewrite Hnil. cbn [length]. rewrite Nat.sub_0_r. apply firstn_all.
Qed.

(** ** The normaliser on a numeral with a suffix *)

Lemma re_million_shape :
  re_million = mkRegExp (suffixPattern ["million"; "M"; "m"]%string) false false.
Proof. reflexivity. Qed.

Lemma re_thousand_shape :
  re_thousand = mkRegExp (suffixPattern ["thousand"; "k"; "K"]%string) false false.
Proof. reflexivity. Qed.

Lemma magnitude_nospace g : Forall (fun c => isSpace c = false) (magnitudeText g).
Proof. destruct g; repeat constructor. Qed.

Lemma fraction_nospace fs :
  Forall (fun c => isDigit c = true) fs ->
  Forall (fun c => isSpace c = false) (fractionText fs).
Proof.
  intros H. destruct fs as [|f fs]; [constructor|].
  cbn [fractionText]. constructor; [reflexivity|].
  eapply Forall_impl; [exact H|]. intros c. apply digit_not_space.
Qed.

Lemma normalized_text ip fs g :
  isNumeral ip fs = true ->
  trim (replace re_comma [] (numeralText ip fs ++ magnitudeText g))
  = stripCommas ip ++ fractionText fs ++ magnitudeText g.
Proof.
  intros Hn. apply isNumeral_inv in Hn as (Hds & _ & Hfs & _).
  rewrite replace_comma. unfold numeralText.
  rewrite !stripCommas_app, stripCommas_magnitude, (stripCommas_fraction _ Hfs).
  rewrite <- app_assoc. apply trim_nospace.
  apply Forall_app. split.
  - eapply Forall_impl; [exact Hds|]. intros c. apply digit_not_space.
  - apply Forall_app. split; [now apply fraction_nospace | apply magnitude_nospace].
Qed.

Lemma last_numeral ds fs g :
  Forall (fun c => isDigit c = true) ds -> ds <> [] ->
  Forall (fun c => isDigit c = true) fs ->
  List.last (ds ++ fractionText fs ++ magnitudeText g) "x"%char
  = match g with
    | MagNone => List.last (ds ++ fs) "x"%char
    | _ => List.last (magnitudeText g) "x"%char
    end.
Proof.
  intros Hds Hne Hfs.
  destruct g; try (rewrite app_assoc; apply last_app_ne; discriminate).
  cbn [magnitudeText]. rewrite app_nil_r.
  destruct fs as [|f fs]; [reflexivity|].
  cbn [fractionText]. rewrite !(last_app_ne ds) by discriminate. reflexivity.
Qed.

Lemma last_numeral_digit ds fs :
  Forall (fun c => isDigit c = true) ds -> ds <> [] ->
  Forall (fun c => isDigit c = true) fs ->
  isDigit (List.last (ds ++ fs) "x"%char) = true.
Proof.
  intros Hds Hne Hfs.
  apply (Forall_last (fun c => isDigit c = true)).
  - now apply Forall_app.
  - destruct ds; [contradiction | discriminate].
Qed.

Lemma normalizeNum_numeral ip fs g :
  isNumeral ip fs = true ->
  normalizeNum (numeralText ip fs ++ magnitudeText g)
  = Some (scaled g (numeralValue ip fs)).
Proof.
  intros Hn. unfold normalizeNum. cbv zeta. rewrite (normalized_text _ _ _ Hn).
  apply isNumeral_inv in Hn as (Hds & Hne & Hfs & _).
  unfold numeralValue. set (ds := stripCommas ip) in *.
  pose proof (parseFloat_numeral ds fs g Hds Hne Hfs) as Hpf.
  pose proof (last_numeral ds fs g Hds Hne Hfs) as Hlast.
  pose proof (last_numeral_digit ds fs Hds Hne Hfs) as Hld.
  assert (g <> MagNone \/ fs <> [] ->
          test re_allDigits (ds ++ fractionText fs ++ magnitudeText g) = false) as Hnotint.
  { intros [Hg|Hf].
    - apply (test_allDigits_false _ (List.last (magnitudeText g) "x"%char)).
      + rewrite app_assoc. destruct g; try contradiction;
          apply elem_of_app; right; cbn; repeat ((now left) || right).
      + now destruct g.
    - apply (test_allDigits_false _ "."%char); [|reflexivity].
      destruct fs as [|f fs]; [contradiction|].
      apply elem_of_app. right. now left. }
  assert (forall w : string, w ∈ ["million"; "M"; "m"]%string ->
            magnitudeText g = str w ->
            test re_million (ds ++ fractionText fs ++ magnitudeText g) = true) as Hmil.
  { intros w Hw ->. rewrite re_million_shape.
    apply test_suffixPattern_true; auto. now apply words_million. }
  assert (forall w : string, w ∈ ["thousand"; "k"; "K"]%string ->
            magnitudeText g = str w ->
            test re_thousand (ds ++ fractionText fs ++ magnitudeText g) = true) as Hth.
  { intros w Hw ->. rewrite re_thousand_shape.
    apply test_suffixPattern_true; auto. now apply words_thousand. }
  assert (forall c, List.last (ds ++ fractionText fs ++ magnitudeText g) "x"%char = c ->
            c <> "n"%char -> c <> "M"%char -> c <> "m"%char ->
            test re_million (ds ++ fractionText fs ++ magnitudeText g) = false) as Hnomil.
  { intros c Hc H1 H2 H3. rewrite re_million_shape.
    apply test_suffixPattern_false; [discriminate|].
    intros w Hw. rewrite Hc.
    repeat (apply elem_of_cons in Hw as [->|Hw]); [| | |inversion Hw];
      (split; [discriminate|]); cbn; congruence. }
  assert (forall c, List.last (ds ++ fractionText fs ++ magnitudeText g) "x"%char = c ->
            c <> "d"%char -> c <> "k"%char -> c <> "K"%char ->
            test re_thousand (ds ++ fractionText fs ++ magnitudeText g) = false) as Hnoth.
  { intros c Hc H1 H2 H3. rewrite re_thousand_shape.
    apply test_suffixPattern_false; [discriminate|].
    intros w Hw. rewrite Hc.
    repeat (apply elem_of_cons in Hw as [->|Hw]); [| | |inversion Hw];
      (split; [discriminate|]); cbn; congruence. }
  assert (forall c : ascii, isDigit c = true ->
            c <> "n"%char /\ c <> "M"%char /\ c <> "m"%char /\
            c <> "d"%char /\ c <> "k"%char /\ c <> "K"%char) as Hdig.
  { intros c Hc. repeat split; intros ->; discriminate Hc. }
  destruct g.
  - (* no suffix *)
    cbn [magnitudeText scaled] in *. rewrite !app_nil_r in *.
    destruct fs as [|f fs].
    + cbn [fractionText] in *. rewrite !app_nil_r in *.
      rewrite (test_allDigits_true ds Hds Hne).
      now rewrite (parseInt10_digits ds Hds Hne).
    + rewrite Hnotint by (right; discriminate).
      destruct (Hdig _ Hld) as (D1 & D2 & D3 & D4 & D5 & D6).
      rewrite (Hnomil _ Hlast) by assumption.
      rewrite (Hnoth _ Hlast) by assumption.
      destruct (exec_plain ds (f :: fs) Hds Hne Hfs) as (m & -> & ->).
      rewrite replace_comma, stripCommas_app, (stripCommas_digits ds Hds),
        (stripCommas_fraction _ Hfs).
      now rewrite Hpf.
  - rewrite Hnotint by (left; discriminate).
    rewrite (Hnomil _ Hlast) by discriminate.
    rewrite (Hth "k"%string) by (reflexivity || (right; now left)).
    now rewrite Hpf.
  - rewrite Hnotint by (left; discriminate).
    rewrite (Hnomil _ Hlast) by discriminate.
    rewrite (Hth "K"%string) by (reflexivity || (right; right; now left)).
    now rewrite Hpf.
  - rewrite Hnotint by (left; discriminate).
    rewrite (Hnomil _ Hlast) by discriminate.
    rewrite (Hth "thousand"%string) by (reflexivity || now left).
    now rewrite Hpf.
  - rewrite Hnotint by (left; discriminate).
    rewrite (Hmil "M"%string) by (reflexivity || (right; now left)).
    now rewrite Hpf.
  - rewrite Hnotint by (left; discriminate).
    rewrite (Hmil "m"%string) by (reflexivity || (right; right; now left)).
    now rewrite Hpf.
  - rewrite Hnotint by (left; discriminate).
    rewrite (Hmil "million"%string) by (reflexivity || now left).
    now rewrite Hpf.
Qed.

(** ** The currency parser on a numeral with a suffix *)

Lemma magnitude_tail g b run :
  rmatch true (RSeq (RStar cSpace) (ROpt (RGroup 2 (RWords magnitudeWords))))
    (MState b (magnitudeText g) [(1, run)]) Some
  = Some (MState (rev (magnitudeText g) ++ b) [] (capsAfter g run)).
Proof. destruct g; reflexivity. Qed.

Lemma numeral_in_class ip fs :
  isNumeral ip fs = true ->
  Forall (fun c => cs_mem true csNumeric c = true) (numeralText ip fs) /\
  1 <= length (numeralText ip fs).
Proof.
  intros Hn. pose proof (isNumeral_inv _ _ Hn) as (_ & Hne & Hfs & Hip).
  split.
  - unfold numeralText. apply Forall_app. split.
    + eapply Forall_impl; [exact Hip|]. intros c Hc. unfold cs_mem, csNumeric, isComma in *.
      cbn [cs_has]. change (code ",") with 44%N. rewrite (N.eqb_sym 44).
      apply orb_true_iff in Hc as [->| ->]; [reflexivity|]. now rewrite !orb_true_r.
    + destruct fs as [|f fs]; [constructor|]. cbn [fractionText].
      constructor; [reflexivity|].
      eapply Forall_impl; [exact Hfs|]. intros c Hc. unfold cs_mem. cbn [cs_has csNumeric].
      now rewrite Hc.
  - unfold numeralText. rewrite length_app.
    destruct ip as [|a ip]; [now contradiction Hne | cbn; lia].
Qed.

Lemma magnitude_outside g : headOutside true csNumeric (magnitudeText g).
Proof. destruct g; cbn; try exact I; reflexivity. Qed.

Lemma firstn_app_exact {A} (run rest : list A) :
  firstn (length (run ++ rest) - length rest) (run ++ rest) = run.
Proof.
  rewrite length_app. replace (length run + length rest - length rest) with (length run) by lia.
  rewrite firstn_app, Nat.sub_diag, firstn_all. cbn. apply app_nil_r.
Qed.

Lemma exec_parseDollar ip fs g :
  isNumeral ip fs = true ->
  exists m, exec re_parseDollar ("$"%char :: numeralText ip fs ++ magnitudeText g) = Some m /\
            m_caps m = capsAfter g (numeralText ip fs).
Proof.
  intros Hn. destruct (numeral_in_class ip fs Hn) as [Hcls Hlen].
  set (run := numeralText ip fs) in *. set (mag := magnitudeText g).
  set (final := MState (rev mag ++ rev run ++ ["$"%char]) [] (capsAfter g run)).
  assert (match_here re_parseDollar [] ("$"%char :: run ++ mag) = Some final) as Hmh.
  { unfold match_here, re_parseDollar.
    cbn [re_pattern re_ignoreCase RSeqs rmatch ms_rest ms_before ms_caps].
    change (cs_mem true (CsChar "$") "$") with true. cbv iota.
    change (RPlus (RSet (CsUnion CsDigit (CsUnion (CsChar ",") (CsChar ".")))))
      with (RQuant 1 None (RSet csNumeric)).
    apply quant_set_run; [exact Hcls | apply magnitude_outside | exact Hlen |].
    unfold captured, set_cap. cbn [ms_rest ms_before ms_caps].
    rewrite firstn_app_exact.
    exact (magnitude_tail g (rev run ++ ["$"%char]) run). }
  exists (mkResult (startState [] ("$"%char :: run ++ mag), final)). split; [|reflexivity].
  unfold exec, exec_from. cbn [ms_before ms_rest scan]. now rewrite Hmh.
Qed.

Lemma parseDollar_numeral ip fs g :
  isNumeral ip fs = true ->
  parseDollar ("$"%char :: numeralText ip fs ++ magnitudeText g)
  = Some (scaled g (numeralValue ip fs)).
Proof.
  intros Hn. unfold parseDollar.
  destruct (exec_parseDollar ip fs g Hn) as (m & -> & Hcaps).
  unfold m_group. rewrite Hcaps.
  pose proof (isNumeral_inv _ _ Hn) as (Hds & Hne & Hfs & _).
  assert (parseFloat (replace re_comma [] (numeralText ip fs)) = numeralValue ip fs) as Hv.
  { rewrite replace_comma. unfold numeralText.
    rewrite stripCommas_app, (stripCommas_fraction _ Hfs).
    pose proof (parseFloat_numeral (stripCommas ip) fs MagNone Hds Hne Hfs) as Hpf.
    cbn [magnitudeText] in Hpf. now rewrite app_nil_r in Hpf. }
  destruct g; cbn [capsAfter cap_lookup Nat.eqb magnitudeText]; rewrite Hv; reflexivity.
Qed.

(** C3 (amended): for a numeral [N] (digits, optional thousands
    separators, optional fraction) and a suffix among none, k, K,
    thousand, M, m and million, both [normalizeNum] on [N suffix] and
    [parseDollar] on [$N suffix] give the Number nearest to [N],
    multiplied in binary64 arithmetic by the multiplier of the suffix
    (no multiplication without a suffix). *)
Theorem magnitude_scaling (ip fs : list ascii) (g : Magnitude) :
  isNumeral ip fs = true ->
  normalizeNum (numeralText ip fs ++ magnitudeText g) = Some (scaled g (numeralValue ip fs)) /\
  parseDollar ("$"%char :: numeralText ip fs ++ magnitudeText g)
  = Some (scaled g (numeralValue ip fs)).
Proof.
  intros Hn. split; [now apply normalizeNum_numeral | now apply parseDollar_numeral].
Qed.

Lemma magnitude_scaling_witness :
  normalizeNum (str "1,250.5thousand") = Some (num_of_Z 1250500) /\
  parseDollar (str "$1,250.5thousand") = Some (num_of_Z 1250500).
Proof.
  exact (magnitude_scaling (str "1,250") (str "5") MagThousand eq_refl).
Defined.

(** C3 (as stated) fails: [1.001k] is normalised to 1000.9999999999999,
    which is neither the rational 1.001 * 1000 = 1001 nor the Number
    nearest to it. *)
Lemma suffix_product_rounds :
  exists v q,
    normalizeNum (str "1.001k") = Some v /\
    parseDollar (str "$1.001k") = Some v /\
    num_toQ v = Some q /\ ~ (q == 1001 # 1)%Q /\ v <> num_of_Z 1001.
Proof.
  eexists. eexists. split; [vm_compute; reflexivity|].
  split; [vm_compute; reflexivity|].
  split; [vm_compute; reflexivity|].
  split; [|discriminate].
  intros H. vm_compute in H. discriminate H.
Qed.

(** ** The fuel of the loops is never exhausted *)

(** The search calls its continuation only on states that are not
    further from the end of the input. *)
Lemma repeat_loop_ext (body : mstate -> cont -> option mstate) gs :
  (forall st k1 k2,
     (forall st1, length (ms_rest st1) <= length (ms_rest st) -> k1 st1 = k2 st1) ->
     body st k1 = body st k2) ->
  forall fuel min max st k1 k2,
    (forall st1, length (ms_rest st1) <= length (ms_rest st) -> k1 st1 = k2 st1) ->
    repeat_loop body gs fuel min max st k1 = repeat_loop body gs fuel min max st k2.
Proof.
  intros Hbody. induction fuel as [|fuel IH]; intros min max st k1 k2 Hk.
  - cbn. destruct max as [[|?]|]; apply Hk; lia.
  - cbn [repeat_loop].
    assert (body (clear_caps gs st)
              (fun st1 => if (min =? 0) && negb (progressed st st1) then None
                          else repeat_loop body gs fuel (pred min) (option_map pred max) st1 k1)
            = body (clear_caps gs st)
              (fun st1 => if (min =? 0) && negb (progressed st st1) then None
                          else repeat_loop body gs fuel (pred min) (option_map pred max) st1 k2))
      as Heq.
    { apply Hbody. intros st1 Hle. rewrite clear_caps_rest in Hle.
      destruct ((min =? 0) && negb (progressed st st1)); [reflexivity|].
      apply IH. intros st2 Hle2. apply Hk. lia. }
    rewrite Heq, (Hk st) by lia. reflexivity.
Qed.

Lemma rmatch_ext ic r : forall st k1 k2,
  (forall st1, length (ms_rest st1) <= length (ms_rest st) -> k1 st1 = k2 st1) ->
  rmatch ic r st k1 = rmatch ic r st k2.
Proof.
  induction r as [|cs|r1 IH1 r2 IH2|r1 IH1 r2 IH2|min max r IH|n r IH| | |];
    intros st k1 k2 Hk; cbn [rmatch].
  - apply Hk. lia.
  - destruct (ms_rest st) as [|c rest] eqn:Hr; [reflexivity|].
    destruct (cs_mem ic cs c); [|reflexivity]. apply Hk. cbn. lia.
  - apply IH1. intros st1 Hle. apply IH2. intros st2 Hle2. apply Hk. lia.
  - rewrite (IH1 st k1 k2 Hk), (IH2 st k1 k2 Hk). reflexivity.
  - apply repeat_loop_ext; [exact IH | exact Hk].
  - apply IH. intros st1 Hle. apply Hk. exact Hle.
  - destruct (atWordBoundary st); [apply Hk; lia | reflexivity].
  - destruct (ms_before st); [apply Hk; lia | reflexivity].
  - destruct (ms_rest st) eqn:Hr; [apply Hk; rewrite Hr; apply Nat.le_refl | reflexivity].
Qed.

(** More fuel than [min + length rest] does not change the answer of a
    quantifier. *)
Lemma repeat_loop_fuel ic r : forall fuel1 fuel2 min max st k,
  min + length (ms_rest st) <= fuel1 -> min + length (ms_rest st) <= fuel2 ->
  repeat_loop (rmatch ic r) (groups_in r) fuel1 min max st k
  = repeat_loop (rmatch ic r) (groups_in r) fuel2 min max st k.
Proof.
  induction fuel1 as [|fuel1 IH]; intros fuel2 min max st k H1 H2.
  - assert (min = 0) by lia. subst min.
    destruct fuel2 as [|fuel2]; [reflexivity|].
    cbn [repeat_loop Nat.eqb andb].
    assert (rmatch ic r (clear_caps (groups_in r) st)
              (fun st1 => if negb (progressed st st1) then None
                          else repeat_loop (rmatch ic r) (groups_in r) fuel2 (pred 0)
                                 (option_map pred max) st1 k) = None) as Hnone.
    { rewrite (rmatch_ext ic r _ _ (fun _ => None)).
      - destruct (rmatch ic r _ (fun _ => None)) eqn:Hm; [|reflexivity].
        apply rmatch_sound in Hm as (? & _ & ?). discriminate.
      - intros st1 Hle. rewrite clear_caps_rest in Hle. unfold progressed.
        rewrite (proj2 (Nat.ltb_ge _ _)) by lia. reflexivity. }
    rewrite Hnone. now destruct max as [[|?]|].
  - destruct fuel2 as [|fuel2].
    + assert (min = 0) by lia. subst min. symmetry.
      cbn [repeat_loop Nat.eqb andb].
      assert (rmatch ic r (clear_caps (groups_in r) st)
                (fun st1 => if negb (progressed st st1) then None
                            else repeat_loop (rmatch ic r) (groups_in r) fuel1 (pred 0)
                                   (option_map pred max) st1 k) = None) as Hnone.
      { rewrite (rmatch_ext ic r _ _ (fun _ => None)).
        - destruct (rmatch ic r _ (fun _ => None)) eqn:Hm; [|reflexivity].
          apply rmatch_sound in Hm as (? & _ & ?). discriminate.
        - intros st1 Hle. rewrite clear_caps_rest in Hle. unfold progressed.
          rewrite (proj2 (Nat.ltb_ge _ _)) by lia. reflexivity. }
      rewrite Hnone. now destruct max as [[|?]|].
    + cbn [repeat_loop].
      assert (rmatch ic r (clear_caps (groups_in r) st)
                (fun st1 => if (min =? 0) && negb (progressed st st1) then None
                            else repeat_loop (rmatch ic r) (groups_in r) fuel1 (pred min)
                                   (option_map pred max) st1 k)
              = rmatch ic r (clear_caps (groups_in r) st)
                (fun st1 => if (min =? 0) && negb (progressed st st1) then None
                            else repeat_loop (rmatch ic r) (groups_in r) fuel2 (pred min)
                                   (option_map pred max) st1 k)) as Heq.
      { apply rmatch_ext. intros st1 Hle. rewrite clear_caps_rest in Hle.
        destruct ((min =? 0) && negb (progressed st st1)) eqn:Hchk; [reflexivity|].
        assert (pred min + length (ms_rest st1) <= fuel1 /\
                pred min + length (ms_rest st1) <= fuel2) as [? ?].
        { destruct min as [|min]; cbn in *; [|lia].
          apply negb_false_iff in Hchk. unfold progressed in Hchk.
          apply Nat.ltb_lt in Hchk. lia. }
        now apply IH. }
      now rewrite Heq.
Qed.

(** [replace]: each round consumes input. *)
Lemma replace_loop_fuel re repl : forall fuel1 fuel2 before rest,
  length rest < fuel1 -> length rest < fuel2 ->
  replace_loop fuel1 re repl before rest = replace_loop fuel2 re repl before rest.
Proof.
  induction fuel1 as [|fuel1 IH]; intros fuel2 before rest H1 H2; [lia|].
  destruct fuel2 as [|fuel2]; [lia|]. cbn [replace_loop].
  destruct (scan re before rest) as [[st0 st1]|] eqn:Hs; [|reflexivity].
  apply scan_sound in Hs as (pre & post & -> & -> & Hm).
  apply Matches_rest_le in Hm. cbn [startState ms_rest] in Hm.
  rewrite length_app in H1, H2.
  f_equal. f_equal. unfold progressed. cbn [startState ms_rest].
  destruct (length (ms_rest st1) <? length post) eqn:Hp.
  - apply Nat.ltb_lt in Hp. apply IH; lia.
  - destruct (ms_rest st1) as [|c rest'] eqn:Hr; [reflexivity|].
    f_equal. cbn [length] in Hm. apply IH; lia.
Qed.

(** [split]: each round moves on or closes a chunk. *)
Lemma split_loop_fuel re : forall fuel1 fuel2 (chunk before rest : list ascii),
  2 * length rest + match chunk with [] => 0 | _ => 1 end < fuel1 ->
  2 * length rest + match chunk with [] => 0 | _ => 1 end < fuel2 ->
  split_loop fuel1 re chunk before rest = split_loop fuel2 re chunk before rest.
Proof.
  induction fuel1 as [|fuel1 IH]; intros fuel2 chunk before rest H1 H2; [lia|].
  destruct fuel2 as [|fuel2]; [lia|]. cbn [split_loop].
  destruct rest as [|c rest]; [reflexivity|]. cbn [length] in H1, H2.
  destruct (match_here re before (c :: rest)) as [st1|] eqn:Hm.
  - apply match_here_Some, Matches_rest_le in Hm. cbn [startState ms_rest] in Hm.
    destruct ((length (ms_rest st1) =? length (c :: rest)) && (length chunk =? 0)) eqn:Hchk;
      cbn [length] in Hm, Hchk.
    + apply IH; cbn; lia.
    + f_equal. apply andb_false_iff in Hchk as [Hchk|Hchk].
      * apply Nat.eqb_neq in Hchk. apply IH; cbn; lia.
      * apply Nat.eqb_neq in Hchk. destruct chunk; [cbn in Hchk; lia|].
        apply IH; cbn; lia.
  - apply IH; cbn; lia.
Qed.

(** A pattern that starts with a code unit of a class has no empty
    match. *)
Lemma Matches_set_first ic cs r st st' :
  Matches ic (RSeq (RSet cs) r) st st' -> length (ms_rest st') < length (ms_rest st).
Proof.
  intros H. inversion H as [| |? ? ? st1 ? H1 H2| | | | | | | |]; subst.
  apply Matches_rest_le in H2. inversion H1; subst. cbn in *. lia.
Qed.

Lemma dollarRe_progress st m :
  exec_from dollarRe st = Some m ->
  length (ms_rest (resume m)) < length (ms_rest st).
Proof.
  unfold exec_from. destruct (scan dollarRe _ _) as [[st0 st1]|] eqn:Hs; [|discriminate].
  intros [= <-]. apply scan_sound in Hs as (pre & post & Hrest & -> & Hm).
  cbn [re_pattern dollarRe RSeqs] in Hm. apply Matches_set_first in Hm.
  cbn [resume mkResult m_end snd ms_rest startState] in *. rewrite Hrest, length_app. lia.
Qed.

Lemma Matches_group_rest ic n r st st' :
  Matches ic (RGroup n r) st st' ->
  exists st1, Matches ic r st st1 /\ ms_rest st' = ms_rest st1.
Proof. intros H. inversion H; subst. eexists. split; [eassumption | reflexivity]. Qed.

Lemma Matches_quant_first ic cs min max st st' :
  Matches ic (RQuant (S min) (Some (S max)) (RSet cs)) st st' ->
  length (ms_rest st') < length (ms_rest st).
Proof.
  intros H.
  inversion H as [| | | | |? ? ? ? Hstop|? ? ? ? st1 ? _ Hbody _ Hmore| | | |]; subst.
  - destruct Hstop; discriminate.
  - apply Matches_rest_le in Hmore.
    apply Matches_set_inv in Hbody as (c & _ & Hr & _).
    cbn [groups_in clear_caps] in Hr. rewrite Hr. cbn [length]. lia.
Qed.

Lemma countRe_progress st m :
  exec_from countRe st = Some m ->
  length (ms_rest (resume m)) < length (ms_rest st).
Proof.
  unfold exec_from. destruct (scan countRe _ _) as [[st0 st1]|] eqn:Hs; [|discriminate].
  intros [= <-]. apply scan_sound in Hs as (pre & post & Hrest & -> & Hm).
  cbn [re_pattern countRe RSeqs] in Hm.
  apply seq_peel in Hm as (sa & ua & _ & Ha & Hm).
  apply seq_peel in Hm as (sb & ub & _ & Hb & Hm).
  apply Matches_rest_le in Ha, Hm.
  apply Matches_group_rest in Hb as (sc & Hq & Hsc).
  apply Matches_quant_first in Hq. rewrite Hsc in Hm.
  cbn [resume mkResult m_end snd ms_rest startState] in *.
  rewrite Hrest, length_app. lia.
Qed.

(** The loops over the matches end because no match is left. *)
Lemma dollarLoop_fuel filePath text : forall fuel1 fuel2 st facts,
  length (ms_rest st) < fuel1 -> length (ms_rest st) < fuel2 ->
  dollarLoop fuel1 filePath text st facts = dollarLoop fuel2 filePath text st facts.
Proof.
  induction fuel1 as [|fuel1 IH]; intros fuel2 st facts H1 H2; [lia|].
  destruct fuel2 as [|fuel2]; [lia|]. cbn [dollarLoop].
  destruct (exec_from dollarRe st) as [m|] eqn:Hm; [|reflexivity].
  apply dollarRe_progress in Hm.
  destruct (parseDollar (m_0 m)); [|apply IH; lia].
  cbv zeta. destruct (length _ <? 12); [apply IH; lia|].
  destruct (_ && _); apply IH; lia.
Qed.

Lemma countLoop_fuel filePath text : forall fuel1 fuel2 st facts,
  length (ms_rest st) < fuel1 -> length (ms_rest st) < fuel2 ->
  countLoop fuel1 filePath text st facts = countLoop fuel2 filePath text st facts.
Proof.
  induction fuel1 as [|fuel1 IH]; intros fuel2 st facts H1 H2; [lia|].
  destruct fuel2 as [|fuel2]; [lia|]. cbn [countLoop].
  destruct (exec_from countRe st) as [m|] eqn:Hm; [|reflexivity].
  apply countRe_progress in Hm.
  cbv zeta. destruct (length _ <? 5); apply IH; lia.
Qed.

(** ** The alphabet of context keys *)

Lemma elem_of_rev_iff {A} (l : list A) x : x ∈ rev l <-> x ∈ l.
Proof. rewrite !list_elem_of_In. symmetry. apply in_rev. Qed.

Lemma trim_elem (s : jsstring) c : c ∈ trim s -> c ∈ s.
Proof.
  unfold trim. intros H. apply (proj1 (elem_of_rev_iff _ _)) in H.
  apply dropWhile_incl in H. apply (proj1 (elem_of_rev_iff _ _)) in H.
  now apply dropWhile_incl in H.
Qed.

Lemma sliceLast_elem n (s : jsstring) c : c ∈ sliceLast n s -> c ∈ s.
Proof.
  unfold sliceLast. generalize (length s - n). intros m. revert s.
  induction m as [|m IH]; intros [|a s] H; cbn in H; auto.
  right. now apply IH.
Qed.

Lemma nonKey_replaced (s : jsstring) c :
  c ∈ replace re_nonKey (str " ") s ->
  c = " "%char \/ cs_has csKeyChar c = true.
Proof.
  unfold re_nonKey. rewrite replace_set. intros H.
  apply list_elem_of_In, in_flat_map in H as (y & _ & Hy).
  unfold cs_mem in Hy. cbn [andb orb cs_has] in Hy. rewrite orb_false_r in Hy.
  destruct (cs_has csKeyChar y) eqn:Hk; cbn in Hy.
  - destruct Hy as [->|[]]. now right.
  - destruct Hy as [<-|[]]. now left.
Qed.

Lemma keyChar_of_class c :
  cs_has csKeyChar c = true -> isSpace c = false -> keyChar c = true.
Proof.
  unfold csKeyChar, keyChar. cbn [cs_has]. intros H Hs. rewrite Hs, orb_false_r in H.
  change (code "a") with 97%N in H. change (code "z") with 122%N in H.
  change (code "0") with 48%N in H. change (code "9") with 57%N in H.
  change (code "#") with 35%N in H.
  rewrite (N.eqb_sym 35) in H.
  unfold isLowerAZ, isDigit. rewrite orb_assoc in H. now rewrite H.
Qed.

(** ** The course of a global replacement *)

Lemma replace_loop_Rewrites re repl :
  progresses re ->
  forall n (rest : list ascii) fuel before,
    length rest <= n -> length rest < fuel ->
    Rewrites re repl before rest (replace_loop fuel re repl before rest).
Proof.
  intros Hp. induction n as [|n IH]; intros rest fuel before Hn Hfuel.
  - destruct rest; [|cbn in Hn; lia].
    destruct (match_here re before []) as [st1|] eqn:Hm.
    + apply Hp in Hm. unfold progressed in Hm. apply Nat.ltb_lt in Hm. cbn in Hm. lia.
    + rewrite replace_loop_nil by exact Hm. now constructor.
  - destruct rest as [|a rest].
    { destruct (match_here re before []) as [st1|] eqn:Hm.
      + apply Hp in Hm. unfold progressed in Hm. apply Nat.ltb_lt in Hm. cbn in Hm. lia.
      + rewrite replace_loop_nil by exact Hm. now constructor. }
    destruct fuel as [|fuel]; [lia|].
    destruct (match_here re before (a :: rest)) as [st1|] eqn:Hm.
    + pose proof (Hp _ _ _ Hm) as Hprog.
      rewrite (replace_loop_hit _ _ _ _ _ _ Hm Hprog).
      apply (rewrites_match _ _ _ _ st1); [exact Hm|exact Hprog|].
      unfold progressed in Hprog. apply Nat.ltb_lt in Hprog. cbn in Hprog, Hn, Hfuel.
      apply IH; lia.
    + rewrite (replace_loop_skip _ _ _ _ _ _ Hm).
      apply rewrites_copy; [exact Hm|]. cbn in Hn, Hfuel. apply IH; lia.
Qed.

Lemma replace_Rewrites re repl (text : jsstring) :
  progresses re -> re_global re = true ->
  Rewrites re repl [] text (replace re repl text).
Proof.
  intros Hp Hg. unfold replace. rewrite Hg.
  apply (replace_loop_Rewrites re repl Hp (length text)); lia.
Qed.

Lemma Patched_refl repl s : Patched repl s s.
Proof. induction s as [|c s IH]; now constructor. Qed.

Lemma Patched_app repl pre s o : Patched repl s o -> Patched repl (pre ++ s) (pre ++ o).
Proof. intros H. induction pre as [|c pre IH]; [exact H|]. cbn. now constructor. Qed.

Lemma replace_loop_Patched re repl : forall fuel before (rest : list ascii),
  Patched repl rest (replace_loop fuel re repl before rest).
Proof.
  induction fuel as [|fuel IH]; intros before rest; [apply Patched_refl|].
  cbn [replace_loop]. destruct (scan re before rest) as [[st0 st1]|] eqn:Hs;
    [|apply Patched_refl].
  apply scan_sound in Hs as (pre & post & -> & -> & Hm).
  destruct (Matches_consumes _ _ _ _ Hm) as (w & Hw & _). cbn [startState ms_rest] in Hw.
  subst post.
  assert (skipped (pre ++ w ++ ms_rest st1) (startState (rev pre ++ before) (w ++ ms_rest st1))
          = pre) as ->.
  { unfold skipped. cbn [startState ms_rest]. apply firstn_app_exact. }
  apply Patched_app. apply patched_cut.
  destruct (progressed _ st1); [apply IH|].
  destruct (ms_rest st1) as [|c rest']; [constructor|]. constructor. apply IH.
Qed.

Lemma replace_Patched re repl (text : jsstring) :
  re_global re = true -> Patched repl text (replace re repl text).
Proof. intros Hg. unfold replace. rewrite Hg. apply replace_loop_Patched. Qed.

(** The first code unit of a patched input is its own or the first of
    the replacement. *)
Lemma Patched_head repl s o :
  Patched repl s o -> repl <> [] ->
  match o with
  | [] => True
  | x :: _ => (exists s', s = x :: s') \/ (exists r', repl = x :: r')
  end.
Proof.
  intros H Hne. destruct H as [|c s o H|m s o H]; [exact I| left; eauto |].
  destruct repl as [|x r]; [contradiction|]. cbn. right. eauto.
Qed.

Lemma Rewrites_head re repl before rest out :
  Rewrites re repl before rest out -> repl <> [] ->
  match out with
  | [] => True
  | x :: _ => (exists rest', rest = x :: rest' /\ match_here re before rest = None) \/
              (exists r', repl = x :: r')
  end.
Proof.
  intros H Hne. destruct H as [|before c rest out Hm H|before rest st1 out Hm Hp H];
    [exact I| left; eauto |].
  destruct repl as [|x r]; [contradiction|]. cbn. right. eauto.
Qed.

(** ** The two masking patterns *)

Lemma maskDollar_progresses : progresses re_maskDollar.
Proof.
  intros before rest st1 Hm. apply match_here_Some in Hm.
  cbn [re_pattern re_maskDollar RSeqs] in Hm. apply Matches_set_first in Hm.
  unfold progressed. now apply Nat.ltb_lt.
Qed.

Lemma Matches_wordb_inv ic st st' :
  Matches ic RWordB st st' -> st' = st /\ atWordBoundary st = true.
Proof. intros H. inversion H; subst. now split. Qed.

Lemma maskNumber_inv before rest st1 :
  match_here re_maskNumber before rest = Some st1 ->
  headIsWord before = false /\
  (exists d rest', rest = d :: rest' /\ isDigit d = true) /\
  atWordBoundary st1 = true /\
  exists w, rest = w ++ ms_rest st1 /\ w <> [].
Proof.
  intros Hm. apply match_here_Some in Hm.
  destruct (Matches_consumes _ _ _ _ Hm) as (w & Hw & _). cbn [startState ms_rest] in Hw.
  cbn [re_pattern re_maskNumber re_ignoreCase RSeqs] in Hm.
  apply seq_peel in Hm as (sa & ua & _ & Ha & Hm).
  apply Matches_wordb_inv in Ha as [-> Hb0].
  pose proof (Matches_set_first _ _ _ _ _ Hm) as Hlt.
  apply seq_peel in Hm as (sb & ub & _ & Hd & Hm).
  apply Matches_set_inv in Hd as (d & Hdm & Hdr & _).
  cbn [startState ms_rest] in Hdr, Hlt.
  apply seq_peel in Hm as (sc & uc & _ & _ & Hm).
  apply seq_peel in Hm as (sd & ud & _ & _ & Hm).
  apply Matches_wordb_inv in Hm as [-> Hb1].
  apply cs_mem_digit_inv in Hdm.
  assert (Hhead : headIsWord rest = true).
  { rewrite Hdr. cbn. unfold isWordChar. now rewrite Hdm. }
  unfold atWordBoundary in Hb0. cbn [startState ms_before ms_rest] in Hb0.
  rewrite Hhead in Hb0. split; [now destruct (headIsWord before)|].
  split; [eauto|]. split; [assumption|].
  exists w. split; [exact Hw|]. intros ->. cbn in Hw. rewrite Hw in Hlt. lia.
Qed.

Lemma maskNumber_progresses : progresses re_maskNumber.
Proof.
  intros before rest st1 Hm. apply maskNumber_inv in Hm as (_ & _ & _ & w & -> & Hw).
  unfold progressed. cbn [startState ms_rest]. apply Nat.ltb_lt. rewrite length_app.
  destruct w; [contradiction|]. cbn. lia.
Qed.

(** ** No numeral is left standing alone *)

Lemma digit_word c : isDigit c = true -> isWordChar c = true.
Proof. unfold isWordChar. now intros ->. Qed.

Lemma headIsWord_rev_digits (ds before : list ascii) :
  ds <> [] -> Forall (fun c => isDigit c = true) ds ->
  headIsWord (rev ds ++ before) = true.
Proof.
  intros Hne Hd. destruct ds as [|d ds] using rev_ind; [contradiction|].
  rewrite rev_app_distr. cbn. apply digit_word.
  apply Forall_app in Hd as [_ Hd]. now inversion Hd.
Qed.

(** A run of digits between two places that are not inside a word is a
    match of the numeral pattern. *)
Lemma numeral_matches (before ds rest : list ascii) :
  ds <> [] -> Forall (fun c => isDigit c = true) ds ->
  headIsWord before = false -> headIsWord rest = false ->
  match_here re_maskNumber before (ds ++ rest) <> None.
Proof.
  intros Hne Hd Hb Hr. destruct ds as [|d ds]; [contradiction|].
  inversion Hd as [|? ? Hd1 Hds]; subst.
  apply (match_here_complete _ _ _ (MState (rev (d :: ds) ++ before) rest [])).
  cbn [re_pattern re_maskNumber re_ignoreCase RSeqs].
  eapply M_Seq.
  { apply M_WordB. unfold atWordBoundary. cbn [startState ms_before ms_rest app headIsWord].
    now rewrite Hb, (digit_word d Hd1). }
  eapply M_Seq.
  { cbn [app startState]. apply M_Set. now apply cs_mem_digit. }
  eapply M_Seq.
  { apply (M_run false csNumeric ds 0).
    - eapply Forall_impl; [exact Hds|]. intros c Hc. unfold cs_mem, csNumeric. cbn.
      now rewrite Hc.
    - lia. }
  eapply M_Seq; [apply M_opt_skip|].
  cbn [rev]. rewrite <- app_assoc. cbn [app].
  apply M_WordB. unfold atWordBoundary. cbn [ms_before ms_rest].
  rewrite Hr. change (rev ds ++ d :: before) with (rev ds ++ [d] ++ before).
  rewrite app_assoc. change (rev ds ++ [d]) with (rev (d :: ds)).
  now rewrite headIsWord_rev_digits.
Qed.

Lemma maskNumber_run before rest out :
  Rewrites re_maskNumber (str "#") before rest out ->
  forall s, numeralInv s before rest -> noBareNumeral s out = true.
Proof.
  induction 1 as [before Hm|before c rest out Hm _ IH|before rest st1 out Hm Hp _ IH];
    intros s Hinv.
  - destruct s; try reflexivity. exfalso.
    destruct Hinv as (ds & before0 & Hne & Hd & -> & Hb0 & Hno).
    now apply (numeral_matches before0 ds [] Hne Hd Hb0).
  - cbn [noBareNumeral]. apply andb_true_iff. split.
    + destruct s; try reflexivity.
      destruct Hinv as (ds & before0 & Hne & Hd & -> & Hb0 & Hno).
      destruct (isWordChar c) eqn:Hc; [reflexivity|]. exfalso.
      now apply (numeral_matches before0 ds (c :: rest) Hne Hd Hb0).
    + apply IH. unfold wordStep. destruct (isDigit c) eqn:Hd.
      * destruct s; cbn [numeralInv]; [| |exact I].
        -- exists [c], before. repeat split; [discriminate|now constructor| |exact Hm].
           apply Hinv. cbn. now apply digit_word.
        -- destruct Hinv as (ds & before0 & Hne & Hds & -> & Hb0 & Hno).
           exists (ds ++ [c]), before0. repeat split.
           ++ now destruct ds.
           ++ apply Forall_app. split; [exact Hds|now constructor].
           ++ now rewrite rev_app_distr.
           ++ exact Hb0.
           ++ now rewrite <- app_assoc.
      * destruct (isWordChar c) eqn:Hc; cbn [numeralInv]; [exact I|].
        intros _. exact Hc.
  - apply maskNumber_inv in Hm as (Hb & (d & rest' & -> & Hd) & Hend & _).
    change (str "#" ++ out) with ("#"%char :: out). cbn [noBareNumeral].
    apply andb_true_iff. split.
    + destruct s; try reflexivity. exfalso.
      destruct Hinv as (ds & before0 & Hne & Hds & -> & _).
      now rewrite headIsWord_rev_digits in Hb.
    + apply IH. change (wordStep s "#") with Outside. cbn [numeralInv].
      unfold atWordBoundary in Hend. intros Hr. rewrite Hr in Hend.
      now destruct (headIsWord (ms_before st1)).
Qed.

Lemma maskNumber_noBareNumeral (text : jsstring) :
  noBareNumeral Outside (replace re_maskNumber (str "#") text) = true.
Proof.
  apply (maskNumber_run [] text).
  - apply replace_Rewrites; [apply maskNumber_progresses|reflexivity].
  - cbn. reflexivity.
Qed.

Lemma noBareNumeral_app (pre : jsstring) : forall s text,
  noBareNumeral s (pre ++ text) = true ->
  noBareNumeral (fold_left wordStep pre s) text = true.
Proof.
  induction pre as [|c pre IH]; intros s text H; [exact H|].
  cbn [app noBareNumeral fold_left] in *. apply andb_true_iff in H as [_ H]. now apply IH.
Qed.

Lemma wordStep_outside (pre : jsstring) s :
  pre <> [] -> headIsWord (rev pre) = false -> fold_left wordStep pre s = Outside.
Proof.
  intros Hne Hh. destruct pre as [|c pre] using rev_ind; [contradiction|].
  rewrite rev_app_distr in Hh. cbn in Hh. rewrite fold_left_app. cbn. unfold wordStep.
  destruct (isDigit c) eqn:Hd; [now rewrite (digit_word c Hd) in Hh|]. now rewrite Hh.
Qed.

Lemma noBareNumeral_digits (ds : jsstring) : forall s post,
  Forall (fun c => isDigit c = true) ds -> ds <> [] -> s <> Mixed ->
  noBareNumeral s (ds ++ post) = true -> noBareNumeral OnlyDigits post = true.
Proof.
  induction ds as [|d ds IH]; intros s post Hd Hne Hs H; [contradiction|].
  inversion Hd as [|? ? Hd1 Hds]; subst.
  cbn [app noBareNumeral] in H. apply andb_true_iff in H as [_ H].
  assert (Hstep : wordStep s d = OnlyDigits).
  { unfold wordStep. rewrite Hd1. now destruct s. }
  rewrite Hstep in H. destruct ds as [|d' ds]; [exact H|].
  apply (IH OnlyDigits); [exact Hds|discriminate|discriminate|exact H].
Qed.

(** In the split form: a run of digits that does not follow a word
    character is followed by one. *)
Lemma noBareNumeral_split (w pre ds post : jsstring) :
  noBareNumeral Outside w = true ->
  w = pre ++ ds ++ post -> ds <> [] -> Forall (fun c => isDigit c = true) ds ->
  headIsWord (rev pre) = false -> headIsWord post = true.
Proof.
  intros H -> Hne Hd Hpre. apply noBareNumeral_app in H.
  assert (Hs : fold_left wordStep pre Outside = Outside).
  { destruct pre as [|c pre]; [reflexivity|]. now apply wordStep_outside. }
  rewrite Hs in H. apply noBareNumeral_digits in H; [|assumption|assumption|discriminate].
  destruct post as [|c post]; [discriminate|]. cbn in *.
  now apply andb_true_iff in H as [H _].
Qed.

(** ** No amount is left *)

Lemma isDollar_eq c : isDollar c = true -> c = "$"%char.
Proof. ascii_cases c. Qed.

Lemma numeric_mem c : cs_mem true csNumeric c = isNumeric c.
Proof. ascii_cases c. Qed.

(** A dollar sign before a digit, a comma or a dot is a match of the
    amount pattern. *)
Lemma amount_matches (before rest : list ascii) d :
  isNumeric d = true -> match_here re_maskDollar before ("$"%char :: d :: rest) <> None.
Proof.
  intros Hd. apply (match_here_complete _ _ _ (MState (d :: "$"%char :: before) rest [])).
  cbn [re_pattern re_maskDollar re_ignoreCase RSeqs].
  eapply M_Seq; [apply M_Set; apply cs_mem_char|].
  eapply M_Seq; [|apply M_opt_skip].
  apply (M_run true csNumeric [d] 1); [|cbn; lia].
  constructor; [|constructor]. now rewrite numeric_mem.
Qed.

Lemma maskDollar_run before rest out :
  Rewrites re_maskDollar (str "$#") before rest out -> noAmount out = true.
Proof.
  induction 1 as [before Hm|before c rest out Hm Hrun IH|before rest st1 out Hm Hp _ IH].
  - reflexivity.
  - cbn [noAmount]. rewrite IH, andb_true_r. apply negb_true_iff.
    destruct (isDollar c) eqn:Hc; [|reflexivity]. apply isDollar_eq in Hc. subst c.
    cbn [andb]. destruct out as [|x out]; [reflexivity|]. cbn [headIsNumeric].
    apply Rewrites_head in Hrun; [|discriminate].
    destruct Hrun as [(rest' & -> & _)|(r' & [= <- _])]; [|reflexivity].
    destruct (isNumeric x) eqn:Hx; [|reflexivity].
    exfalso. now apply (amount_matches before rest' x Hx).
  - change (str "$#" ++ out) with ("$"%char :: "#"%char :: out). cbn [noAmount].
    now rewrite IH.
Qed.

Lemma noAmount_app_r (a b : jsstring) : noAmount (a ++ b) = true -> noAmount b = true.
Proof.
  induction a as [|c a IH]; [auto|]. cbn [app noAmount]. intros H.
  apply andb_true_iff in H as [_ H]. auto.
Qed.

Lemma maskNumber_keeps_noAmount s o :
  Patched (str "#") s o -> noAmount s = true -> noAmount o = true.
Proof.
  induction 1 as [|c s o Hp IH|m s o Hp IH]; intros Hs.
  - reflexivity.
  - cbn [noAmount] in *. apply andb_true_iff in Hs as [Hc Hs].
    rewrite (IH Hs), andb_true_r. apply negb_true_iff.
    destruct (isDollar c); [|reflexivity]. cbn [andb negb] in *.
    destruct o as [|x o]; [reflexivity|]. cbn [headIsNumeric].
    apply Patched_head in Hp; [|discriminate].
    destruct Hp as [(s' & ->)|(r' & [= <- _])]; [|reflexivity].
    cbn [headIsNumeric] in Hc. now apply negb_true_iff in Hc.
  - apply noAmount_app_r in Hs. change (str "#" ++ o) with ("#"%char :: o).
    cbn [noAmount]. now rewrite (IH Hs).
Qed.

Lemma noAmount_split (w pre post : jsstring) :
  noAmount w = true -> w = pre ++ "$"%char :: post -> headIsNumeric post = false.
Proof.
  intros H ->. apply noAmount_app_r in H. cbn [noAmount] in H.
  apply andb_true_iff in H as [H _]. now apply negb_true_iff in H.
Qed.

Lemma maskedWindow_noAmount text pos : noAmount (maskedWindow text pos) = true.
Proof.
  unfold maskedWindow. cbv zeta.
  eapply maskNumber_keeps_noAmount; [apply replace_Patched; reflexivity|].
  eapply maskDollar_run. apply replace_Rewrites; [apply maskDollar_progresses|reflexivity].
Qed.

(** ** Texts whose digits stand apart from the letters *)

Lemma clash_nonword_l a b : isWordChar a = false -> clash a b = false.
Proof.
  intros Ha. unfold clash, isNameChar. rewrite Ha.
  destruct (isDigit a) eqn:Hd; [now rewrite (digit_word a Hd) in Ha|reflexivity].
Qed.

Lemma digitsApart_app_r (a b : jsstring) : digitsApart (a ++ b) = true -> digitsApart b = true.
Proof.
  induction a as [|c a IH]; [auto|]. cbn [app digitsApart]. intros H.
  apply andb_true_iff in H as [_ H]. auto.
Qed.

Lemma digitsApart_app_l (a b : jsstring) : digitsApart (a ++ b) = true -> digitsApart a = true.
Proof.
  induction a as [|c a IH]; [auto|]. cbn [app digitsApart]. intros H.
  apply andb_true_iff in H as [Hc H]. rewrite (IH H), andb_true_r.
  destruct a as [|d a]; [reflexivity|exact Hc].
Qed.

Lemma digitsApart_infix (a m b : jsstring) :
  digitsApart (a ++ m ++ b) = true -> digitsApart m = true.
Proof. intros H. apply digitsApart_app_r in H. now apply digitsApart_app_l in H. Qed.

Lemma slice_infix (s : jsstring) start stop :
  exists a b, s = a ++ slice s start stop ++ b.
Proof.
  unfold slice. exists (firstn start s), (skipn (stop - start) (skipn start s)).
  now rewrite firstn_skipn, firstn_skipn.
Qed.

Lemma dropWhile_suffix {A} (p : A -> bool) l : exists a, l = a ++ dropWhile p l.
Proof.
  induction l as [|x l [a IH]]; [now exists []|]. cbn [dropWhile].
  destruct (p x); [|now exists []]. exists (x :: a). cbn. now f_equal.
Qed.

Lemma trim_infix (s : jsstring) : exists a b, s = a ++ trim s ++ b.
Proof.
  unfold trim. destruct (dropWhile_suffix isSpace s) as [a Ha].
  destruct (dropWhile_suffix isSpace (rev (dropWhile isSpace s))) as [b Hb].
  exists a, (rev b). rewrite Ha at 1. f_equal.
  rewrite <- (rev_involutive (dropWhile isSpace s)) at 1. rewrite Hb at 1.
  now rewrite rev_app_distr.
Qed.

Lemma nonword_prefix_apart (r o : jsstring) :
  Forall (fun c => isWordChar c = false) r -> digitsApart o = true ->
  digitsApart (r ++ o) = true.
Proof.
  intros Hr Ho. induction Hr as [|y r Hy _ IH]; [exact Ho|].
  cbn [app digitsApart]. rewrite IH, andb_true_r. apply negb_true_iff.
  destruct (r ++ o); [reflexivity|]. now apply clash_nonword_l.
Qed.

(** Replacing segments by code units that are not word characters keeps
    the digits apart. *)
Lemma Patched_digitsApart repl s o :
  Patched repl s o -> repl <> [] -> Forall (fun c => isWordChar c = false) repl ->
  digitsApart s = true ->
  digitsApart o = true /\ forall c, clashHead c o = true -> clashHead c s = true.
Proof.
  intros H Hne Hrepl. induction H as [|c s o Hp IH|m s o Hp IH]; intros Hs.
  - now split.
  - cbn [digitsApart] in Hs. apply andb_true_iff in Hs as [Hc Hs].
    destruct (IH Hs) as [Ho Hh]. split; [|auto].
    cbn [digitsApart]. rewrite Ho, andb_true_r. apply negb_true_iff.
    destruct (clashHead c o) eqn:E; [|reflexivity].
    apply Hh in E. now rewrite E in Hc.
  - apply digitsApart_app_r in Hs. destruct (IH Hs) as [Ho _].
    split; [now apply nonword_prefix_apart|].
    destruct repl as [|x r]; [contradiction|].
    inversion Hrepl as [|? ? Hx Hr]; subst.
    intros c Hc. cbn [app clashHead] in Hc. unfold clash in Hc.
    unfold isNameChar in Hc. rewrite Hx in Hc. cbn [andb] in Hc.
    rewrite andb_false_r in Hc. cbn [orb] in Hc.
    apply andb_true_iff in Hc as [_ Hc]. now rewrite (digit_word x Hc) in Hx.
Qed.

Lemma replace_digitsApart re repl (s : jsstring) :
  re_global re = true -> repl <> [] -> Forall (fun c => isWordChar c = false) repl ->
  digitsApart s = true -> digitsApart (replace re repl s) = true.
Proof.
  intros Hg Hne Hrepl Hs.
  now apply (Patched_digitsApart repl s _ (replace_Patched re repl s Hg) Hne Hrepl).
Qed.

Lemma maskedWindow_digitsApart text pos :
  digitsApart text = true -> digitsApart (maskedWindow text pos) = true.
Proof.
  intros H. unfold maskedWindow. cbv zeta.
  apply replace_digitsApart; [reflexivity|discriminate|repeat constructor|].
  apply replace_digitsApart; [reflexivity|discriminate|repeat constructor|].
  destruct (trim_infix (replace re_spaces (str " ")
              (slice text (Nat.max 0 (pos - 55)) (Nat.min (length text) (pos + 25)))))
    as (a & b & Ht).
  apply (digitsApart_infix a _ b). rewrite <- Ht.
  apply replace_digitsApart; [reflexivity|discriminate|repeat constructor|].
  destruct (slice_infix text (Nat.max 0 (pos - 55)) (Nat.min (length text) (pos + 25)))
    as (a' & b' & Hs).
  apply (digitsApart_infix a' _ b'). now rewrite <- Hs.
Qed.

(** When the digits stand apart and no word is made of digits only,
    there is no digit. *)
Lemma digits_pending (rest : jsstring) : forall c,
  isDigit c = true -> digitsApart (c :: rest) = true ->
  noBareNumeral OnlyDigits rest = false.
Proof.
  induction rest as [|e rest IH]; intros c Hc Ha; [reflexivity|].
  cbn [noBareNumeral]. cbn [digitsApart clashHead] in Ha.
  apply andb_true_iff in Ha as [Hce Ha]. apply negb_true_iff in Hce.
  destruct (isWordChar e) eqn:He; [|reflexivity]. cbn [andb].
  destruct (isDigit e) eqn:Hd.
  - unfold wordStep. rewrite Hd. now apply (IH e).
  - unfold clash, isNameChar in Hce. now rewrite Hc, He, Hd in Hce.
Qed.

Lemma apart_no_digit (w : jsstring) : forall s p,
  digitsApart (p :: w) = true -> isDigit p = false ->
  s <> OnlyDigits -> (s = Mixed -> isWordChar p = true) ->
  noBareNumeral s w = true -> existsb isDigit w = false.
Proof.
  induction w as [|c w IH]; intros s p Ha Hp Hs Htie H; [reflexivity|].
  cbn [existsb]. cbn [noBareNumeral] in H. apply andb_true_iff in H as [_ H].
  pose proof Ha as Ha'. cbn [digitsApart clashHead] in Ha.
  apply andb_true_iff in Ha as [Hpc Ha]. apply negb_true_iff in Hpc.
  destruct (isDigit c) eqn:Hc.
  - exfalso. destruct s; [|congruence|].
    + unfold wordStep in H. rewrite Hc in H.
      now rewrite (digits_pending w c Hc Ha) in H.
    + unfold clash, isNameChar in Hpc. now rewrite Hc, Hp, (Htie eq_refl) in Hpc.
  - cbn [orb]. apply (IH (wordStep s c) c); [exact Ha|exact Hc| | |exact H].
    + unfold wordStep. rewrite Hc. now destruct (isWordChar c).
    + unfold wordStep. rewrite Hc. now destruct (isWordChar c).
Qed.

Lemma maskedWindow_no_digit text pos :
  digitsApart text = true -> existsb isDigit (maskedWindow text pos) = false.
Proof.
  intros H. apply (apart_no_digit _ Outside " "%char).
  - cbn [digitsApart]. rewrite maskedWindow_digitsApart by exact H.
    rewrite andb_true_r. apply negb_true_iff.
    destruct (maskedWindow text pos); [reflexivity|]. now apply clash_nonword_l.
  - reflexivity.
  - discriminate.
  - discriminate.
  - apply maskNumber_noBareNumeral.
Qed.

Lemma toLowerChar_digit c : isDigit (toLowerChar c) = isDigit c.
Proof. ascii_cases c. Qed.

Lemma replace_nonKey_elem (s : jsstring) c :
  c ∈ replace re_nonKey (str " ") s -> c = " "%char \/ c ∈ s.
Proof.
  unfold re_nonKey. rewrite replace_set. intros H.
  apply list_elem_of_In, in_flat_map in H as (y & Hy & Hc).
  destruct (cs_mem false (CsNot csKeyChar) y).
  - destruct Hc as [<-|[]]. now left.
  - destruct Hc as [<-|[]]. right. now apply list_elem_of_In.
Qed.

Lemma keyOfWindow_digit (w : jsstring) :
  existsb isDigit w = false -> existsb isDigit (keyOfWindow w) = false.
Proof.
  intros Hw. destruct (existsb isDigit (keyOfWindow w)) eqn:E; [|reflexivity].
  apply existsb_exists in E as (c & Hc & Hd). apply list_elem_of_In in Hc.
  unfold keyOfWindow in Hc.
  apply sliceLast_elem, trim_elem, replace_spaces_elem in Hc as [->|[Hc _]]; [discriminate|].
  apply replace_nonKey_elem in Hc as [->|Hc]; [discriminate|].
  apply list_elem_of_In, in_map_iff in Hc as (x & <- & Hx).
  rewrite toLowerChar_digit in Hd.
  assert (existsb isDigit w = true); [|congruence].
  apply existsb_exists. now exists x.
Qed.

(** In a text whose digits stand apart from the letters every numeral is
    masked: the key holds no digit. *)
Lemma plain_numerals_masked text pos :
  digitsApart text = true -> existsb isDigit (makeContextKey text pos) = false.
Proof.
  intros H. change (makeContextKey text pos) with (keyOfWindow (maskedWindow text pos)).
  now apply keyOfWindow_digit, maskedWindow_no_digit.
Qed.

(** C2 (amended): a context key is made of lower-case letters, digits,
    [#] and single spaces only, so it holds no dollar sign and no literal
    dollar amount.  It is made from the masked window, in which no dollar
    sign is followed by a digit, a comma or a dot, and in which no run of
    digits stands alone: a run that does not follow a word character is
    followed by one.  When no digit of the text stands next to a letter
    or an underscore, the key holds no digit at all.  (A digit inside an
    alphanumeric word is not a numeral of its own and stays.) *)
Theorem contextKey_masked (text : jsstring) (pos : nat) :
  let window := maskedWindow text pos in
  makeContextKey text pos = keyOfWindow window /\
  Forall (fun c => keyChar c = true) (makeContextKey text pos) /\
  ("$"%char ∉ makeContextKey text pos) /\
  (forall pre post, window = pre ++ "$"%char :: post -> headIsNumeric post = false) /\
  (forall pre ds post,
     window = pre ++ ds ++ post -> ds <> [] -> Forall (fun c => isDigit c = true) ds ->
     headIsWord (rev pre) = false -> headIsWord post = true) /\
  (digitsApart text = true -> existsb isDigit (makeContextKey text pos) = false).
Proof.
  intros window.
  assert (Forall (fun c => keyChar c = true) (makeContextKey text pos)) as Hall.
  { apply Forall_forall. intros c Hc.
    unfold makeContextKey, makeContextKeyLen in Hc. cbv zeta in Hc.
    apply sliceLast_elem, trim_elem, replace_spaces_elem in Hc as [->|[Hc Hs]]; [reflexivity|].
    apply nonKey_replaced in Hc as [->|Hc]; [reflexivity|].
    now apply keyChar_of_class. }
  split; [reflexivity|]. split; [exact Hall|]. split; [|split; [|split]].
  - intros Hin. rewrite Forall_forall in Hall. specialize (Hall _ Hin). discriminate Hall.
  - intros pre post. apply noAmount_split, maskedWindow_noAmount.
  - intros pre ds post. apply noBareNumeral_split. apply maskNumber_noBareNumeral.
  - apply plain_numerals_masked.
Qed.

Lemma contextKey_masked_witness :
  existsb isDigit (makeContextKey textFive 18) = false.
Proof.
  apply (proj2 (proj2 (proj2 (proj2 (proj2 (contextKey_masked textFive 18)))))).
  reflexivity.
Defined.

(** C2 (as stated) fails: the digits of [covid19] are not a numeral of their
    own and stay in the key of the amount at offset 31. *)
Lemma contextKey_keeps_digits :
  makeContextKey textCovid 31 = str "the covid19 relief fund raised # for # dogs" /\
  existsb isDigit (makeContextKey textCovid 31) = true.
Proof. split; vm_compute; reflexivity. Qed.

(** ** A monetary match that is not a number *)

(** C1 fails on the code: the match [$,] has no digit, [parseFloat] gives
    NaN, the guard [value == null] lets it through, and the extractor
    returns a fact whose value is not a finite number. *)
Lemma extractFacts_NaN_value :
  extractFacts (str "about.md") docCurrencies
  = [mkFact dollar (str "donations are accepted in # eur and gbp at the she")
            NaN None (str "$,") (str "about.md")]
  /\ forallb (fun f => finiteNonNeg (f_value f))
             (extractFacts (str "about.md") docCurrencies) = false.
Proof. split; vm_compute; reflexivity. Qed.

(** ** Pooling and grouping *)

Lemma fold_left_app_flat_map {A B} (f : A -> list B) (l : list A) : forall acc,
  fold_left (fun acc x => acc ++ f x) l acc = acc ++ flat_map f l.
Proof.
  induction l as [|x l IH]; intros acc; cbn.
  - now rewrite app_nil_r.
  - now rewrite IH, app_assoc.
Qed.

Lemma collectFacts_flat_map (files : Corpus) :
  collectFacts files = flat_map (fun f => extractFacts (fst f) (snd f)) files.
Proof. unfold collectFacts. now rewrite fold_left_app_flat_map. Qed.

Section MapFacts.
Context {K X : Type} (eqb : K -> K -> bool).

Lemma map_get_elem (k : K) (m : list (K * list X)) l :
  map_get eqb k m = Some l -> exists k', (k', l) ∈ m.
Proof.
  induction m as [|[k' v] m IH]; cbn; [discriminate|].
  destruct (eqb k' k).
  - intros [= ->]. exists k'. now left.
  - intros H. destruct (IH H) as (k'' & Hk). exists k''. now right.
Qed.

Lemma map_set_elem (k : K) (v : list X) (m : list (K * list X)) k' l :
  (k', l) ∈ map_set eqb k v m -> (k', l) ∈ m \/ l = v.
Proof.
  induction m as [|[k0 v0] m IH]; cbn.
  - intros H. apply list_elem_of_singleton in H. inversion H. now right.
  - destruct (eqb k0 k); intros H; apply elem_of_cons in H as [H|H].
    + inversion H. now right.
    + left. now right.
    + left. rewrite H. now left.
    + destruct (IH H) as [H'|H']; [left; now right | now right].
Qed.

Lemma map_push_inMap (k : K) (x : X) (m : list (K * list X)) y :
  inMap (map_push eqb k x m) y -> y = x \/ inMap m y.
Proof.
  unfold map_push, map_has. intros (k' & l & Hl & Hy).
  destruct (map_get eqb k m) as [l0|] eqn:Hget.
  - rewrite Hget in Hl. apply map_set_elem in Hl as [Hl| ->].
    + right. now exists k', l.
    + apply elem_of_app in Hy as [Hy|Hy].
      * right. destruct (map_get_elem _ _ _ Hget) as (k0 & Hk0). now exists k0, l0.
      * left. now apply list_elem_of_singleton in Hy.
  - destruct (map_get eqb k (map_set eqb k [] m)) as [l1|] eqn:Hget1.
    + apply map_set_elem in Hl as [Hl| ->].
      * apply map_set_elem in Hl as [Hl| ->]; [right; now exists k', l | inversion Hy].
      * apply elem_of_app in Hy as [Hy|Hy].
        -- destruct (map_get_elem _ _ _ Hget1) as (k0 & Hk0).
           apply map_set_elem in Hk0 as [Hk0| ->]; [right; now exists k0, l1 | inversion Hy].
        -- left. now apply list_elem_of_singleton in Hy.
    + apply map_set_elem in Hl as [Hl| ->]; [right; now exists k', l | inversion Hy].
Qed.

Lemma fold_push_inMap (key : X -> K) (xs : list X) : forall m y,
  inMap (fold_left (fun m x => map_push eqb (key x) x m) xs m) y ->
  y ∈ xs \/ inMap m y.
Proof.
  induction xs as [|x xs IH]; intros m y H; cbn in H; [now right|].
  apply IH in H as [H|H]; [left; now right|].
  apply map_push_inMap in H as [->|H]; [left; now left | now right].
Qed.
End MapFacts.

Lemma inMap_nil {K X} (y : X) : ~ inMap ([] : list (K * list X)) y.
Proof. intros (k & l & H & _). inversion H. Qed.

Lemma groupByKey_sound (allFacts : list Fact) f :
  inMap (groupByKey allFacts) f -> f ∈ allFacts.
Proof.
  intros H. apply (fold_push_inMap jsstring_eqb f_key) in H as [H|H]; [exact H|].
  now apply inMap_nil in H.
Qed.

Lemma groupByValue_sound (l : list Fact) f :
  inMap (fold_left pushByValue l []) f -> f ∈ l.
Proof.
  intros H. apply (fold_push_inMap sameValueZero f_value) in H as [H|H]; [exact H|].
  now apply inMap_nil in H.
Qed.

Lemma directConflicts_sound (byKey : KeyMap) c :
  c ∈ directConflicts byKey ->
  (c_key c, c_list c) ∈ byKey /\
  1 < length (uniqValues (map f_value (c_list c))) /\
  c_byValue c = fold_left pushByValue (c_list c) [].
Proof.
  unfold directConflicts.
  assert (forall l acc,
    c ∈ fold_left (fun conflicts e =>
         let '(key, list) := e in
         if length (uniqValues (map f_value list)) <=? 1 then conflicts
         else conflicts ++ [mkConflict key (fold_left pushByValue list []) list]) l acc ->
    c ∈ acc \/ ((c_key c, c_list c) ∈ l /\
                1 < length (uniqValues (map f_value (c_list c))) /\
                c_byValue c = fold_left pushByValue (c_list c) [])) as Hgen.
  { induction l as [|[key list] l IH]; intros acc H; cbn in H; [now left|].
    apply IH in H as [H|(H1 & H2)]; [|right; split; [now right|exact H2]].
    destruct (length (uniqValues (map f_value list)) <=? 1) eqn:Hu; [now left|].
    apply elem_of_app in H as [H|H]; [now left|].
    apply list_elem_of_singleton in H. subst c. cbn. right.
    apply Nat.leb_gt in Hu. repeat split; [now left | exact Hu]. }
  intros H. apply Hgen in H as [H|H]; [inversion H | exact H].
Qed.

Lemma crossConflicts_sound (byKey : KeyMap) groups x :
  x ∈ crossConflicts byKey groups ->
  x_keys x ∈ groups /\
  x_facts x = flat_map (fun k => match map_get jsstring_eqb k byKey with
                                 | Some l => l
                                 | None => []
                                 end) (x_keys x) /\
  x_byValue x = fold_left pushByValue (x_facts x) [] /\
  1 < length (x_keys x) /\
  1 < length (uniqValues (map f_value (x_facts x))).
Proof.
  unfold crossConflicts.
  set (facts := fun group => flat_map (fun k => match map_get jsstring_eqb k byKey with
                                 | Some l => l
                                 | None => []
                                 end) group).
  set (P := fun gs : list (list jsstring) => x_keys x ∈ gs /\ x_facts x = facts (x_keys x) /\
     x_byValue x = fold_left pushByValue (x_facts x) [] /\
     1 < length (x_keys x) /\ 1 < length (uniqValues (map f_value (x_facts x)))).
  assert (forall l acc,
    x ∈ fold_left (fun cross group =>
       if length group <=? 1 then cross
       else
         if length (uniqValues (map f_value (facts group))) <=? 1 then cross
         else if forallb (fun v => num_lt v num_20) (map f_value (facts group))
                 && existsb (test re_codeLikeGroup) group
              then cross
              else cross ++ [mkCross group (fold_left pushByValue (facts group) []) (facts group)])
      l acc -> x ∈ acc \/ P l) as Hgen.
  { induction l as [|group l IH]; intros acc H; cbn in H; [now left|].
    apply IH in H as [H|(H1 & H2)]; [|right; split; [now right|exact H2]].
    destruct (length group <=? 1) eqn:Hg; [now left|].
    destruct (length (uniqValues (map f_value (facts group))) <=? 1) eqn:Hu; [now left|].
    destruct (_ && _); [now left|].
    apply elem_of_app in H as [H|H]; [now left|].
    apply list_elem_of_singleton in H. subst x. right. unfold P. cbn.
    apply Nat.leb_gt in Hg, Hu. repeat split; auto. now left. }
  intros H. apply (Hgen groups []) in H as [H|H]; [inversion H | exact H].
Qed.

Lemma crossConflicts_facts (byKey : KeyMap) groups x f :
  x ∈ crossConflicts byKey groups -> f ∈ x_facts x -> inMap byKey f.
Proof.
  intros Hx Hf. apply crossConflicts_sound in Hx as (_ & Hfacts & _).
  rewrite Hfacts in Hf. apply list_elem_of_In, in_flat_map in Hf as (k & _ & Hf).
  destruct (map_get jsstring_eqb k byKey) as [l|] eqn:Hget; [|inversion Hf].
  apply map_get_elem in Hget as (k' & Hk'). exists k', l. split; [exact Hk'|].
  now apply list_elem_of_In.
Qed.

(** ** Suppression of clusters already reported *)

Lemma jsstring_eqb_eq (a b : jsstring) : jsstring_eqb a b = true <-> a = b.
Proof. unfold jsstring_eqb. now rewrite bool_decide_eq_true. Qed.

Lemma alreadyReported_spec (conflicts : list Conflict) (x : CrossConflict) :
  alreadyReported conflicts x = true <->
  exists c, c ∈ conflicts /\ c_key c ∈ x_keys x.
Proof.
  unfold alreadyReported. rewrite existsb_exists. split.
  - intros (c & Hc & Hk). apply existsb_exists in Hk as (k & Hk & Heq).
    apply jsstring_eqb_eq in Heq. subst k.
    exists c. split; now apply list_elem_of_In.
  - intros (c & Hc & Hk). exists c. split; [now apply list_elem_of_In|].
    apply existsb_exists. exists (c_key c). split; [now apply list_elem_of_In|].
    now apply jsstring_eqb_eq.
Qed.

(** C4 (as stated) fails: a cluster with a key that no direct conflict
    covers is nevertheless suppressed. *)
Lemma cross_conflict_suppressed_with_uncovered_key :
  let byKey := groupByKey (collectFacts corpusThree) in
  let conflicts := directConflicts byKey in
  let cross := crossConflicts byKey (groupSimilarKeys byKey) in
  exists x k,
    x ∈ cross /\
    1 < length (uniqValues (map f_value (x_facts x))) /\
    k ∈ x_keys x /\
    (forall c, c ∈ conflicts -> c_key c <> k) /\
    x ∉ reportedCross conflicts cross.
Proof.
  intros byKey conflicts cross.
  assert (exists x, cross = [x] /\
            x_keys x = [str "our shelter program now serves # dogs every single week";
                        str "the shelter program serves # dogs every week"] /\
            length (uniqValues (map f_value (x_facts x))) = 2) as (x & Hcross & Hkeys & Hval).
  { eexists. split; [vm_compute; reflexivity|]. split; vm_compute; reflexivity. }
  assert (map c_key conflicts
          = [str "our shelter program now serves # dogs every single week"]) as Hconf
    by (vm_compute; reflexivity).
  assert (reportedCross conflicts cross = []) as Hrep by (vm_compute; reflexivity).
  exists x, (str "the shelter program serves # dogs every week").
  split; [rewrite Hcross; now left|].
  split; [rewrite Hval; lia|].
  split; [rewrite Hkeys; right; now left|].
  split.
  - intros c Hc Heq.
    assert (c_key c ∈ map c_key conflicts) as Hin by (apply list_elem_of_fmap; eauto).
    rewrite Hconf, Heq in Hin. apply list_elem_of_singleton in Hin. discriminate Hin.
  - rewrite Hrep. intros H. inversion H.
Qed.

(** ** Facts that survive extraction *)

Lemma dollarLoop_no_codeLikeSmall filePath text fuel : forall st facts,
  Forall (fun f => codeLikeSmall f = false) facts ->
  Forall (fun f => codeLikeSmall f = false) (dollarLoop fuel filePath text st facts).
Proof.
  induction fuel as [|fuel IH]; intros st facts Hfacts; cbn [dollarLoop]; [exact Hfacts|].
  destruct (exec_from dollarRe st) as [m|]; [|exact Hfacts].
  destruct (parseDollar (m_0 m)) as [value|]; [|now apply IH].
  cbv zeta.
  destruct (length _ <? 12); [now apply IH|].
  destruct (num_lt value num_10 && test re_codeLike _) eqn:Hcode; [now apply IH|].
  apply IH. apply Forall_app. split; [exact Hfacts|].
  constructor; [|constructor]. exact Hcode.
Qed.

Lemma countLoop_no_codeLikeSmall filePath text fuel : forall st facts,
  Forall (fun f => codeLikeSmall f = false) facts ->
  Forall (fun f => codeLikeSmall f = false) (countLoop fuel filePath text st facts).
Proof.
  induction fuel as [|fuel IH]; intros st facts Hfacts; cbn [countLoop]; [exact Hfacts|].
  destruct (exec_from countRe st) as [m|]; [|exact Hfacts].
  cbv zeta.
  destruct (length _ <? 5); [now apply IH|].
  apply IH. apply Forall_app. split; [exact Hfacts|].
  constructor; [|constructor]. reflexivity.
Qed.

Lemma extractFacts_no_codeLikeSmall filePath file :
  Forall (fun f => codeLikeSmall f = false) (extractFacts filePath file).
Proof.
  unfold extractFacts. destruct file as [buf|]; [|constructor].
  destruct (_ <? _)%N; [constructor|].
  destruct (buf_toString buf) as [|c text] eqn:Htext; [constructor|].
  destruct (test re_nul (c :: text)); [constructor|].
  apply countLoop_no_codeLikeSmall, dollarLoop_no_codeLikeSmall. constructor.
Qed.

Lemma collectFacts_no_codeLikeSmall (files : Corpus) :
  Forall (fun f => codeLikeSmall f = false) (collectFacts files).
Proof.
  rewrite collectFacts_flat_map. induction files as [|d files IH]; cbn; [constructor|].
  apply Forall_app. split; [apply extractFacts_no_codeLikeSmall | exact IH].
Qed.

Lemma inReport_collected (files : Corpus) f :
  inReport files f -> f ∈ collectFacts files.
Proof.
  unfold inReport. intros [(c & Hc & Hf)|(x & Hx & Hf)].
  - apply directConflicts_sound in Hc as (Hentry & _ & Hbv).
    apply groupByKey_sound. exists (c_key c), (c_list c). split; [exact Hentry|].
    destruct Hf as [Hf|Hf]; [exact Hf|].
    rewrite Hbv in Hf. now apply groupByValue_sound.
  - apply groupByKey_sound.
    destruct Hf as [Hf|Hf]; [exact (crossConflicts_facts _ _ x f Hx Hf)|].
    pose proof (crossConflicts_sound _ _ _ Hx) as (_ & _ & Hbv & _).
    rewrite Hbv in Hf. apply groupByValue_sound in Hf.
    exact (crossConflicts_facts _ _ x f Hx Hf).
Qed.

(** C6: a monetary match under 10 whose context key holds a code-like
    token is dropped by the extractor, so no such fact is among the
    extracted facts nor in any conflict of a report. *)
Theorem code_like_small_amounts_discarded (files : Corpus) (f : Fact) :
  f ∈ collectFacts files \/ inReport files f ->
  f_type f = dollar ->
  num_lt (f_value f) num_10 = true ->
  test re_codeLike (f_key f) = false.
Proof.
  intros Hf Hty Hlt.
  assert (f ∈ collectFacts files) as Hin
    by (destruct Hf as [Hf|Hf]; [exact Hf | now apply inReport_collected]).
  pose proof (collectFacts_no_codeLikeSmall files) as Hall.
  rewrite Forall_forall in Hall. specialize (Hall f Hin).
  unfold codeLikeSmall in Hall. rewrite Hty, Hlt in Hall. exact Hall.
Qed.

Lemma code_like_small_amounts_discarded_witness :
  test re_codeLike (f_key factFee) = false.
Proof.
  apply (code_like_small_amounts_discarded corpusFee factFee).
  - left. vm_compute. left.
  - reflexivity.
  - vm_compute. reflexivity.
Defined.

(** ** Skipped documents *)

Lemma scan_nul_found (rest : list ascii) : forall before,
  zero ∈ rest -> scan re_nul before rest <> None.
Proof.
  induction rest as [|c rest IH]; intros before Hin; [inversion Hin|].
  cbn [scan]. unfold match_here. cbn.
  destruct (cs_mem false (CsChar zero) c) eqn:Hc; [discriminate|].
  apply IH. apply elem_of_cons in Hin as [<-|Hin]; [|exact Hin].
  vm_compute in Hc. discriminate.
Qed.

Lemma test_nul (text : jsstring) : zero ∈ text -> test re_nul text = true.
Proof.
  intros Hin. unfold test, exec, exec_from. cbn [ms_before ms_rest].
  pose proof (scan_nul_found text [] Hin) as H.
  destruct (scan re_nul [] text); [reflexivity | contradiction].
Qed.

(** C7: a document larger than 2 MB, or whose text holds a null code
    unit, yields no facts, and the pass over the other documents goes on
    as if it were absent. *)
Theorem oversized_or_binary_skipped (filePath : jsstring) (buf : Buffer) :
  (2 * 1024 * 1024 < buf_length buf)%N \/ zero ∈ buf_toString buf ->
  extractFacts filePath (ReadOk buf) = [] /\
  forall before after : Corpus,
    collectFacts (before ++ (filePath, ReadOk buf) :: after)
    = collectFacts (before ++ after).
Proof.
  intros H.
  assert (extractFacts filePath (ReadOk buf) = []) as Hnil.
  { unfold extractFacts. destruct H as [H|H].
    - apply N.ltb_lt in H. unfold MAX_FILE_MB. now rewrite H.
    - destruct (_ <? _)%N; [reflexivity|].
      destruct (buf_toString buf) as [|c text]; [reflexivity|].
      now rewrite (test_nul _ H). }
  split; [exact Hnil|].
  intros before after. rewrite !collectFacts_flat_map, !flat_map_app.
  cbn [flat_map fst snd]. now rewrite Hnil.
Qed.

Lemma oversized_or_binary_skipped_witness :
  extractFacts (str "big.txt") (ReadOk (mkBuffer 3000000 (str "We have 12 dogs in the shelter."))) = []
  /\ extractFacts (str "bin.txt")
       (ReadOk (mkBuffer 20 (str "We have 12 dogs" ++ [zero] ++ str "here"))) = [].
Proof.
  split.
  - apply (oversized_or_binary_skipped (str "big.txt")
             (mkBuffer 3000000 (str "We have 12 dogs in the shelter."))).
    left. reflexivity.
  - apply (oversized_or_binary_skipped (str "bin.txt")
             (mkBuffer 20 (str "We have 12 dogs" ++ [zero] ++ str "here"))).
    right. vm_compute. do 15 right. left.
Defined.

(** ** Reports and the formatting of numbers *)

Section Formatters.
Variables toLocaleString1 toLocaleString2 numberToString1 numberToString2 : jsnum -> jsstring.
Hypothesis sameLocale : forall v, toLocaleString1 v = toLocaleString2 v.
Hypothesis sameToString : forall v, numberToString1 v = numberToString2 v.





End Formatters.

(** ** Greedy clustering *)

(** The invariant of the inner loop, for a cluster started while the
    keys of [used0] were taken. *)
Lemma absorb_inv keys used0 st o :
  o ∈ keys -> absorbInv keys used0 st -> absorbInv keys used0 (absorb st o).
Proof.
  destruct st as [group used]. intros Ho Hinv.
  unfold absorb. case_bool_decide as Hin; [exact Hinv|].
  destruct (existsb _ group); [|exact Hinv].
  destruct Hinv as (Hnd & Hne & Hused & Hfresh & Hsub).
  unfold absorbInv. cbn [fst snd] in *.
  assert (o ∉ group) as Hog by (intros ?; apply Hin, Hused; auto).
  assert (o ∉ used0) as Hou by (intros ?; apply Hin, Hused; auto).
  repeat split.
  - apply NoDup_app. repeat split; [assumption| |apply NoDup_singleton].
    intros x Hx Hxo. apply list_elem_of_singleton in Hxo. subst. contradiction.
  - destruct group; discriminate.
  - rewrite elem_of_union, elem_of_singleton, Hused, elem_of_app, list_elem_of_singleton.
    tauto.
  - rewrite elem_of_union, elem_of_singleton, Hused, elem_of_app, list_elem_of_singleton.
    tauto.
  - intros x Hx. apply elem_of_app in Hx as [Hx|Hx]; [auto|].
    apply list_elem_of_singleton in Hx. subst. assumption.
  - intros x Hx. apply elem_of_app in Hx as [Hx|Hx]; [auto|].
    apply list_elem_of_singleton in Hx. subst. assumption.
Qed.

Lemma absorb_fold_inv keys used0 l : forall st,
  (forall o, o ∈ l -> o ∈ keys) -> absorbInv keys used0 st ->
  absorbInv keys used0 (fold_left absorb l st).
Proof.
  induction l as [|o l IH]; intros st Hl Hst; [exact Hst|].
  cbn. apply IH.
  - intros x Hx. apply Hl. now right.
  - apply absorb_inv; [apply Hl; now left | exact Hst].
Qed.

(** The invariant of the outer loop. *)
Lemma cluster_inv keys st k :
  k ∈ keys -> clusterInv keys st ->
  clusterInv keys (cluster keys st k) /\ k ∈ fst (cluster keys st k) /\
  (forall x, x ∈ fst st -> x ∈ fst (cluster keys st k)).
Proof.
  destruct st as [used groups]. intros Hk Hinv0.
  unfold cluster.
  case_bool_decide as Hin.
  { split; [exact Hinv0|]. split; [exact Hin|]. auto. }
  destruct Hinv0 as (Hnd & Hused & Hsub & Hne).
  cbn [fst snd] in *.
  assert (absorbInv keys used ([k], {[k]} ∪ used)) as H0.
  { unfold absorbInv. cbn [fst snd]. repeat split.
    - apply NoDup_singleton.
    - discriminate.
    - rewrite elem_of_union, elem_of_singleton, list_elem_of_singleton. tauto.
    - rewrite elem_of_union, elem_of_singleton, list_elem_of_singleton. tauto.
    - intros x Hx. apply list_elem_of_singleton in Hx. now subst.
    - intros x Hx. apply list_elem_of_singleton in Hx. now subst. }
  assert (forall l st, k ∈ snd st -> k ∈ snd (fold_left absorb l st)) as Hkeep.
  { induction l as [|o l IH]; intros st Hst; [exact Hst|].
    cbn. apply IH. destruct st as [g u]. unfold absorb.
    case_bool_decide; [exact Hst|]. destruct (existsb _ g); [|exact Hst].
    cbn [snd] in *. apply elem_of_union. now right. }
  pose proof (absorb_fold_inv keys used keys _ (fun _ H => H) H0) as Hinv.
  pose proof (Hkeep keys ([k], {[k]} ∪ used)) as Hk'.
  destruct (fold_left absorb keys ([k], {[k]} ∪ used)) as [group used'].
  destruct Hinv as (Hgnd & Hgne & Hgused & Hgfresh & Hgsub).
  unfold clusterInv. cbn [fst snd] in *.
  repeat split.
  - rewrite concat_app. cbn. rewrite app_nil_r.
    apply NoDup_app. repeat split; [assumption| |assumption].
    intros x Hx Hxg. apply (Hgfresh x Hxg). now apply Hused.
  - rewrite concat_app. cbn. rewrite app_nil_r, elem_of_app, Hgused, Hused. tauto.
  - rewrite concat_app. cbn. rewrite app_nil_r, elem_of_app, Hgused, Hused. tauto.
  - intros x. rewrite concat_app. cbn. rewrite app_nil_r, elem_of_app.
    intros [Hx|Hx]; auto.
  - apply Forall_app. split; [assumption|]. now constructor.
  - apply Hk'. apply elem_of_union. left. now apply elem_of_singleton.
  - intros x Hx. apply Hgused. now left.
Qed.

Lemma cluster_fold_inv keys l : forall st,
  (forall k, k ∈ l -> k ∈ keys) -> clusterInv keys st ->
  clusterInv keys (fold_left (cluster keys) l st) /\
  (forall x, x ∈ fst st \/ x ∈ l -> x ∈ fst (fold_left (cluster keys) l st)).
Proof.
  induction l as [|k l IH]; intros st Hl Hst.
  - split; [exact Hst|]. intros x [Hx|Hx]; [exact Hx|]. inversion Hx.
  - cbn. destruct (cluster_inv keys st k) as (Hinv & Hk & Hmono); [apply Hl; now left|exact Hst|].
    destruct (IH (cluster keys st k)) as (Hinv' & Hcov); [|exact Hinv|].
    { intros x Hx. apply Hl. now right. }
    split; [exact Hinv'|].
    intros x [Hx|Hx]; apply Hcov.
    + left. now apply Hmono.
    + apply elem_of_cons in Hx as [->|Hx]; [now left | now right].
Qed.

Lemma elem_of_concat {A} (x : A) (ls : list (list A)) :
x ∈ concat ls <-> exists l, x ∈ l /\ l ∈ ls.
Proof.
induction ls as [|h ls IH]; cbn.
- split; [intros H; inversion H | intros (l & _ & H); inversion H].
- rewrite elem_of_app, IH. split.
  + intros [H|(l & H1 & H2)]; [exists h | exists l]; split; auto; constructor; auto.
  + intros (l & H1 & H2). apply elem_of_cons in H2 as [->|H2]; [now left|right; eauto].
Qed.

Lemma NoDup_concat_unique {A} (groups : list (list A)) :
NoDup (concat groups) ->
forall i j g g' x, groups !! i = Some g -> groups !! j = Some g' ->
  x ∈ g -> x ∈ g' -> i = j.
Proof.
induction groups as [|h groups IH]; intros Hnd i j g g' x Hi Hj Hx Hx'.
- inversion Hi.
- cbn in Hnd. apply NoDup_app in Hnd as (Hh & Hdisj & Hrest).
  assert (forall n g0, groups !! n = Some g0 -> x ∈ g0 -> x ∈ concat groups) as Hin.
  { intros n g0 Hn Hx0. apply elem_of_concat. exists g0. split; [exact Hx0|].
    eapply list_elem_of_lookup_2; eauto. }
  destruct i as [|i], j as [|j]; cbn in Hi, Hj.
  + reflexivity.
  + inversion Hi; subst. exfalso. eapply Hdisj; eauto.
  + inversion Hj; subst. exfalso. eapply Hdisj; eauto.
  + f_equal. eapply IH; eauto.
Qed.

(** C5: the greedy clustering partitions the keys: no key occurs twice
  among the clusters, the clusters hold exactly the keys of the map, no
  cluster is empty, and every key lies in exactly one cluster. *)
Theorem groupSimilarKeys_partition (factsByKey : KeyMap) :
let keys := map fst factsByKey in
let groups := groupSimilarKeys factsByKey in
NoDup (concat groups) /\
(forall k, k ∈ concat groups <-> k ∈ keys) /\
Forall (fun g => g <> []) groups /\
(forall k, k ∈ keys ->
   exists i g, groups !! i = Some g /\ k ∈ g /\
     forall j g', groups !! j = Some g' -> k ∈ g' -> j = i).
Proof.
intros keys groups. subst groups. unfold groupSimilarKeys. fold keys.
destruct (cluster_fold_inv keys keys (∅, [])) as ((Hnd & Hused & Hsub & Hne) & Hcov).
{ auto. }
{ unfold clusterInv. cbn [fst snd concat]. split; [constructor|].
  split; [|split; [|constructor]].
  - intros x. split; intros Hx; [now apply not_elem_of_empty in Hx | inversion Hx].
  - intros x Hx. inversion Hx. }
set (groups := snd (fold_left (cluster keys) keys (∅, []))) in *.
assert (forall k, k ∈ keys -> k ∈ concat groups) as Hall.
{ intros k Hk. apply Hused, Hcov. now right. }
repeat split; auto.
intros k Hk. specialize (Hall k Hk).
apply elem_of_concat in Hall as (g & Hkg & Hg).
apply list_elem_of_lookup in Hg as (i & Hi).
exists i, g. repeat split; auto.
intros j g' Hj Hkg'. eapply NoDup_concat_unique; eauto.
Qed.

(** ** Word-overlap similarity *)

Lemma filter_elem_inter (X Y : gset jsstring) :
  filter (fun w => w ∈ Y) X = X ∩ Y.
Proof.
  apply set_eq. intros x.
  rewrite elem_of_filter, elem_of_intersection. tauto.
Qed.

Lemma inter_le_union (X Y : gset jsstring) : size (X ∩ Y) <= size (X ∪ Y).
Proof.
  apply subseteq_size. intros x Hx.
  apply elem_of_intersection in Hx as [Hx _]. apply elem_of_union. now left.
Qed.

(** C9: the word-overlap similarity is symmetric. *)
Theorem keySimilarity_symmetric (keyA keyB : jsstring) :
  keySimilarity keyA keyB = keySimilarity keyB keyA.
Proof.
  unfold keySimilarity. cbv zeta.
  replace (filter (fun w => w ∈ tokenSet keyB) (tokenSet keyA))
    with (filter (fun w => w ∈ tokenSet keyA) (tokenSet keyB))
    by (apply set_eq; intros x; rewrite !elem_of_filter; tauto).
  replace (tokenSet keyA ∪ tokenSet keyB) with (tokenSet keyB ∪ tokenSet keyA)
    by (apply set_eq; intros x; rewrite !elem_of_union; tauto).
  reflexivity.
Qed.

(** C10: the similarity is defined on every pair of strings, lies in the
    closed interval from 0 to 1, and is 0 when neither string has a token
    (the division by the size of an empty union is guarded). *)
Theorem keySimilarity_unit_interval (a b : jsstring) :
  (0 <= keySimilarity a b)%Q /\ (keySimilarity a b <= 1)%Q /\
  (tokenSet a = ∅ -> tokenSet b = ∅ -> keySimilarity a b = Qmake 0 1).
Proof.
  unfold keySimilarity. cbv zeta. rewrite filter_elem_inter.
  pose proof (inter_le_union (tokenSet a) (tokenSet b)) as Hle.
  destruct (size (tokenSet a ∪ tokenSet b)) as [|u] eqn:Hu.
  - cbn. repeat split; try discriminate.
  - cbn [Nat.eqb]. repeat split.
    + unfold Qle. cbn. lia.
    + unfold Qle. cbn. lia.
    + intros Ha Hb. rewrite Ha, Hb in Hu.
      rewrite (left_id_L ∅ (∪)) in Hu. rewrite size_empty in Hu. discriminate.
Qed.

Lemma keySimilarity_unit_interval_witness :
  (0 <= keySimilarity [] [])%Q /\ (keySimilarity [] [] <= 1)%Q /\
  keySimilarity [] [] = Qmake 0 1.
Proof.
  destruct (keySimilarity_unit_interval [] []) as (H0 & H1 & Hz).
  split; [exact H0|]. split; [exact H1|].
  apply Hz; reflexivity.
Defined.

(** * Further properties *)

(** ** What a successful [exec] returns *)

Lemma exec_from_inv re st m :
  exec_from re st = Some m ->
  exists pre w,
    ms_rest st = pre ++ w ++ ms_rest (m_end m) /\
    Matches (re_ignoreCase re) (re_pattern re)
      (startState (rev pre ++ ms_before st) (w ++ ms_rest (m_end m))) (m_end m) /\
    m_0 m = w /\ m_index m = length (ms_before st) + length pre /\
    m_caps m = ms_caps (m_end m) /\
    ms_before (m_end m) = rev w ++ rev pre ++ ms_before st.
Proof.
  unfold exec_from. destruct (scan re _ _) as [[st0 st1]|] eqn:Hs; [|discriminate].
  intros [= <-]. apply scan_sound in Hs as (pre & post & Hrest & -> & Hm).
  destruct (Matches_consumes _ _ _ _ Hm) as (w & Hw1 & Hw2).
  cbn [startState ms_rest ms_before] in Hw1, Hw2. subst post.
  exists pre, w. cbn [mkResult m_end m_0 m_index m_caps fst snd].
  repeat split; try assumption.
  - unfold captured. cbn [startState ms_rest]. apply firstn_app_exact.
  - unfold ms_pos. cbn [startState ms_before]. rewrite length_app, length_rev. lia.
Qed.

Lemma exec_inv re text m :
  exec re text = Some m ->
  exists pre w,
    text = pre ++ w ++ ms_rest (m_end m) /\
    Matches (re_ignoreCase re) (re_pattern re)
      (startState (rev pre) (w ++ ms_rest (m_end m))) (m_end m) /\
    m_0 m = w /\ m_index m = length pre /\ m_caps m = ms_caps (m_end m).
Proof.
  intros H. apply exec_from_inv in H as (pre & w & H1 & H2 & H3 & H4 & H5 & _).
  cbn [ms_rest ms_before] in *. rewrite app_nil_r in H2.
  exists pre, w. repeat split; assumption.
Qed.

Lemma exec_complete re (pre post : list ascii) st1 :
  Matches (re_ignoreCase re) (re_pattern re) (startState (rev pre) post) st1 ->
  exec re (pre ++ post) <> None.
Proof.
  intros Hm. unfold exec, exec_from. cbn [ms_before ms_rest].
  pose proof (scan_complete re pre [] post st1) as H. rewrite app_nil_r in H.
  specialize (H Hm). now destruct (scan re [] (pre ++ post)).
Qed.

Lemma Matches_eol_inv ic st st' : Matches ic REol st st' -> st' = st /\ ms_rest st = [].
Proof. intros H. inversion H; subst. now split. Qed.

(** A pattern without groups leaves the captures as they are. *)
Lemma Matches_caps ic r st st' :
  Matches ic r st st' -> groups_in r = [] -> ms_caps st' = ms_caps st.
Proof.
  induction 1 as [| | ? ? ? ? ? _ IH1 _ IH2 | ? ? ? ? _ IH | ? ? ? ? _ IH | |
                  ? ? ? ? ? ? _ _ IH1 _ _ IH2 | | | |]; intros Hg; cbn [groups_in] in Hg;
    try reflexivity.
  - apply app_eq_nil in Hg as [Hg1 Hg2]. rewrite IH2, IH1; auto.
  - apply app_eq_nil in Hg as [Hg1 Hg2]. auto.
  - apply app_eq_nil in Hg as [Hg1 Hg2]. auto.
  - rewrite IH2 by exact Hg. rewrite IH1 by exact Hg. now rewrite Hg.
  - discriminate.
Qed.

Lemma Matches_group_inv ic n r st st' :
  Matches ic (RGroup n r) st st' ->
  exists st1, Matches ic r st st1 /\ st' = set_cap n (captured st st1) st1.
Proof. intros H. inversion H; subst. eexists. split; [eassumption|reflexivity]. Qed.

(** ** Listings and the files below them *)

Lemma Listing_induction (P : Listing -> Prop) :
  P Throws ->
  (forall es,
     Forall (fun e => match e with DirEnt _ sub => P sub | FileEnt _ => True end) es ->
     P (Entries es)) ->
  forall dir, P dir.
Proof.
  intros Ht He. fix IH 1. intros [|es]; [exact Ht|].
  apply He. induction es as [|e es IHes]; constructor; [|exact IHes].
  destruct e; [exact I|apply IH].
Qed.

Lemma walk_entries es prefix :
  walk (Entries es) prefix = flat_map (walkEntry prefix) es.
Proof.
  cbn [walk].
  enough (H : forall out,
    (fix loop (entries : list Dirent) (out : list jsstring) {struct entries} : list jsstring :=
       match entries with
       | [] => out
       | e :: entries' =>
         let rel := relOf prefix (d_name e) in
         let norm := replace re_backslash (str "/") rel in
         if bool_decide (d_name e ∈ IGNORE) then loop entries' out
         else match e with
              | DirEnt _ sub => loop entries' (out ++ walk sub rel)
              | FileEnt _ =>
                if bool_decide (extOf (d_name e) ∈ TEXT_EXT)
                then loop entries' (out ++ [norm])
                else loop entries' out
              end
       end) es out = out ++ flat_map (walkEntry prefix) es) by apply (H []).
  induction es as [|e es IH]; intros out.
  - cbn. now rewrite app_nil_r.
  - cbn [flat_map]. unfold walkEntry at 1. cbv zeta.
    destruct (bool_decide (d_name e ∈ IGNORE)); [apply IH|].
    destruct e as [name|name sub].
    + destruct (bool_decide (extOf (d_name (FileEnt name)) ∈ TEXT_EXT)).
      * rewrite IH. now rewrite <- app_assoc.
      * apply IH.
    + rewrite IH. now rewrite <- app_assoc.
Qed.

Lemma chains_nonempty dir : Forall (fun c => c <> []) (chains dir).
Proof.
  induction dir as [|es IH] using Listing_induction; [constructor|].
  cbn [chains]. induction es as [|e es IHes]; [constructor|].
  cbn [flat_map]. apply Forall_app. split.
  - destruct e as [name|name sub].
    + repeat constructor. discriminate.
    + apply Forall_forall. intros c Hc. apply list_elem_of_In, in_map_iff in Hc.
      destruct Hc as (c' & <- & _). discriminate.
  - apply IHes. now inversion IH.
Qed.

Lemma kept_cons name c :
  c <> [] -> kept (name :: c) = negb (bool_decide (name ∈ IGNORE)) && kept c.
Proof.
  intros Hc. unfold kept. cbn [forallb].
  destruct c as [|n c]; [contradiction|]. cbn [List.last].
  now rewrite andb_assoc.
Qed.

Lemma filter_kept_cons name cs :
  Forall (fun c => c <> []) cs ->
  List.filter kept (map (cons name) cs)
  = if bool_decide (name ∈ IGNORE) then [] else map (cons name) (List.filter kept cs).
Proof.
  induction 1 as [|c cs Hc _ IH]; cbn [map List.filter].
  - now destruct (bool_decide _).
  - rewrite kept_cons by exact Hc. rewrite IH.
    destruct (bool_decide (name ∈ IGNORE)); cbn [negb andb]; [reflexivity|].
    now destruct (kept c).
Qed.

Lemma filter_flat_map {A B} (p : B -> bool) (f : A -> list B) l :
  List.filter p (flat_map f l) = flat_map (fun x => List.filter p (f x)) l.
Proof.
  induction l as [|x l IH]; [reflexivity|].
  cbn [flat_map]. now rewrite List.filter_app, IH.
Qed.

Lemma map_flat_map {A B C} (g : B -> C) (f : A -> list B) l :
  map g (flat_map f l) = flat_map (fun x => map g (f x)) l.
Proof.
  induction l as [|x l IH]; [reflexivity|].
  cbn [flat_map]. now rewrite map_app, IH.
Qed.

Lemma walk_chains_from dir : forall prefix,
  walk dir prefix
  = map (fun c => replace re_backslash (str "/") (fold_left relOf c prefix))
        (List.filter kept (chains dir)).
Proof.
  induction dir as [|es IH] using Listing_induction; intros prefix; [reflexivity|].
  rewrite walk_entries. cbn [chains]. rewrite filter_flat_map, map_flat_map.
  induction es as [|e es IHes]; [reflexivity|].
  cbn [flat_map]. rewrite IHes by (now inversion IH). f_equal.
  unfold walkEntry. cbv zeta. destruct e as [name|name sub]; cbn [d_name].
  - unfold kept. cbn [List.filter forallb List.last andb].
    destruct (bool_decide (name ∈ IGNORE)); cbn [negb andb]; [reflexivity|].
    now destruct (bool_decide (extOf name ∈ TEXT_EXT)).
  - rewrite filter_kept_cons by apply chains_nonempty.
    destruct (bool_decide (name ∈ IGNORE)); [reflexivity|].
    rewrite map_map. cbn [fold_left].
    inversion IH as [|? ? Hsub _]; subst. apply Hsub.
Qed.

Lemma relOf_join (c : list jsstring) : forall prefix,
  Forall (fun name => name <> []) c ->
  fold_left relOf c prefix
  = match prefix, c with
    | [], _ => join (str "/") c
    | _, [] => prefix
    | _, _ => prefix ++ str "/" ++ join (str "/") c
    end.
Proof.
  induction c as [|n c IH]; intros prefix Hc.
  - now destruct prefix.
  - inversion Hc as [|? ? Hn Hc']; subst. cbn [fold_left].
    rewrite IH by exact Hc'.
    destruct prefix as [|a prefix]; cbn [relOf].
    + destruct n as [|b n]; [contradiction|]. now destruct c.
    + cbn [app]. destruct c as [|n' c]; [reflexivity|].
      cbn [join]. rewrite <- !app_assoc. reflexivity.
Qed.

Lemma named_chains dir :
  named dir = true -> Forall (Forall (fun name => name <> [])) (chains dir).
Proof.
  induction dir as [|es IH] using Listing_induction; intros Hn; [constructor|].
  cbn [named chains] in *. induction es as [|e es IHes]; [constructor|].
  cbn [forallb flat_map] in *. apply andb_true_iff in Hn as [He Hes].
  inversion IH as [|? ? Hsub IH']; subst.
  apply Forall_app. split; [|now apply IHes].
  destruct e as [name|name sub].
  - repeat constructor. intros ->. discriminate.
  - apply andb_true_iff in He as [Hname Hs].
    apply Forall_forall. intros c Hc. apply list_elem_of_In, in_map_iff in Hc.
    destruct Hc as (c' & <- & Hc'). constructor.
    + intros ->. discriminate.
    + specialize (Hsub Hs). rewrite Forall_forall in Hsub.
      apply Hsub. now apply list_elem_of_In.
Qed.

(** X1: for a tree whose entries all have a name, [walk] returns, in the
    order of the listings, the files whose chain of names holds no ignored
    name and whose own name has a text extension, each as its names joined
    by [/], backslashes turned into [/]. *)
Theorem walk_chains (dir : Listing) :
  named dir = true ->
  walk dir []
  = map (fun c => replace re_backslash (str "/") (join (str "/") c))
        (List.filter kept (chains dir)).
Proof.
  intros Hn. rewrite walk_chains_from. apply map_ext_in.
  intros c Hc. apply filter_In in Hc as [Hc _].
  pose proof (named_chains dir Hn) as Hall. rewrite Forall_forall in Hall.
  rewrite relOf_join; [reflexivity|].
  apply Hall. now apply list_elem_of_In.
Qed.

Lemma walk_chains_witness :
  named treeSite = true /\
  walk treeSite []
  = map (fun c => replace re_backslash (str "/") (join (str "/") c))
        (List.filter kept (chains treeSite)).
Proof. split; [reflexivity|apply walk_chains; reflexivity]. Defined.

(** ** The extension of a name *)

Lemma last_sep_unique {A} (d : A) (a : list A) : forall a' b b',
  a ++ d :: b = a' ++ d :: b' -> d ∉ b -> d ∉ b' -> a = a' /\ b = b'.
Proof.
  induction a as [|x a IH]; intros [|y a'] b b' Heq Hb Hb'; cbn [app] in Heq.
  - inversion Heq. now split.
  - inversion Heq; subst. exfalso. apply Hb. apply elem_of_app. right. left.
  - inversion Heq; subst. exfalso. apply Hb'. apply elem_of_app. right. left.
  - inversion Heq; subst. destruct (IH a' b b') as [-> ->]; auto.
Qed.

Lemma notDot_mem c : cs_mem false (CsNot (CsChar ".")) c = true <-> c <> "."%char.
Proof.
  unfold cs_mem. cbn [cs_has andb]. rewrite orb_false_r. split.
  - intros H ->. discriminate.
  - intros Hc. destruct (code "." =? code c)%N eqn:E; [|reflexivity].
    apply code_inj in E. congruence.
Qed.

Lemma re_ext_inv pre post st1 :
  Matches false (re_pattern re_ext) (startState (rev pre) post) st1 ->
  ms_rest st1 = [] /\ exists w, post = "."%char :: w /\ w <> [] /\ "."%char ∉ w.
Proof.
  cbn [re_pattern re_ext RSeqs]. intros Hm.
  apply seq_peel in Hm as (sa & ua & _ & Ha & Hm).
  apply seq_peel in Hm as (sb & ub & _ & Hb & Hm).
  apply Matches_eol_inv in Hm as [-> Hend].
  apply Matches_set_inv in Ha as (c & Hc & Hr & _).
  apply cs_mem_char_inv in Hc. subst c.
  apply Matches_run_inv in Hb as (w & Hw & Hlen & [Hw1 _] & _).
  cbn [startState ms_rest] in Hr. rewrite Hend, app_nil_r in Hw1.
  split; [exact Hend|]. exists w. rewrite Hr, Hw1. split; [reflexivity|]. split.
  - intros ->. cbn in Hlen. lia.
  - intros Hin. rewrite Forall_forall in Hw. apply Hw in Hin.
    now apply notDot_mem in Hin.
Qed.

Lemma re_ext_match stem w :
  w <> [] -> "."%char ∉ w ->
  Matches false (re_pattern re_ext) (startState (rev stem) ("."%char :: w))
    (MState (rev w ++ "."%char :: rev stem) [] []).
Proof.
  intros Hne Hw. cbn [re_pattern re_ext RSeqs].
  eapply M_Seq; [apply M_Set, cs_mem_char|].
  eapply M_Seq; [|now apply M_Eol].
  pose proof (M_run false (CsNot (CsChar ".")) w 1 ("."%char :: rev stem) [] []) as H.
  rewrite app_nil_r in H. apply H.
  - apply Forall_forall. intros c Hc. apply notDot_mem. intros ->. contradiction.
  - destruct w; [contradiction|cbn; lia].
Qed.

Lemma exec_ext_inv name m :
  exec re_ext name = Some m ->
  exists stem w, name = stem ++ "."%char :: w /\ w <> [] /\ ("."%char ∉ w) /\
                 m_0 m = "."%char :: w.
Proof.
  intros H. apply exec_inv in H as (pre & w' & Hname & Hm & H0 & _).
  apply re_ext_inv in Hm as (Hend & w & Hw & Hne & Hdot).
  rewrite Hend, app_nil_r in *. exists pre, w. subst. repeat split; assumption.
Qed.

Lemma TEXT_EXT_elem e :
  e ∈ TEXT_EXT <->
  e ∈ map str [".html"; ".json"; ".md"; ".yml"; ".yaml"; ".txt"]%string.
Proof. unfold TEXT_EXT. apply elem_of_list_to_set. Qed.

Lemma IGNORE_elem e :
  e ∈ IGNORE <->
  e ∈ map str [".git"; "node_modules"; "scripts"; "fonts"; "docs/assets"]%string.
Proof. unfold IGNORE. apply elem_of_list_to_set. Qed.

Lemma extOf_text name :
  extOf name ∈ TEXT_EXT ->
  exists stem ext, name = stem ++ ext /\ toLowerCase ext ∈ TEXT_EXT.
Proof.
  unfold extOf. destruct (exec re_ext name) as [m|] eqn:He.
  - apply exec_ext_inv in He as (stem & w & -> & _ & _ & ->). eauto.
  - intros H. apply TEXT_EXT_elem in H. cbn in H.
    repeat (apply elem_of_cons in H as [H|H]; [discriminate|]).
    now apply elem_of_nil in H.
Qed.

(** ** What the traversal returns *)

Lemma backslash_replaced (s : jsstring) :
  replace re_backslash (str "/") s
  = flat_map (fun c => if cs_mem false (CsChar backslash) c then str "/" else [c]) s.
Proof. apply replace_set. Qed.

Lemma backslash_gone (s : jsstring) : backslash ∉ replace re_backslash (str "/") s.
Proof.
  rewrite backslash_replaced. intros H.
  apply list_elem_of_In, in_flat_map in H as (c & _ & Hc).
  destruct (cs_mem false (CsChar backslash) c) eqn:E.
  - apply list_elem_of_In, list_elem_of_singleton in Hc. discriminate.
  - apply list_elem_of_In, list_elem_of_singleton in Hc. subst c.
    now rewrite cs_mem_char in E.
Qed.

Lemma text_ext_no_backslash ext :
  toLowerCase ext ∈ TEXT_EXT -> replace re_backslash (str "/") ext = ext.
Proof.
  intros H. rewrite backslash_replaced.
  assert (Hno : backslash ∉ ext).
  { intros Hin. apply TEXT_EXT_elem in H.
    assert (Hl : backslash ∈ toLowerCase ext).
    { apply list_elem_of_In, in_map_iff. exists backslash. split; [reflexivity|].
      now apply list_elem_of_In. }
    cbn in H.
    repeat (apply elem_of_cons in H as [H|H];
            [rewrite H in Hl; cbn in Hl;
             repeat (apply elem_of_cons in Hl as [Hl|Hl]; [discriminate|]);
             now apply elem_of_nil in Hl|]).
    now apply elem_of_nil in H. }
  clear H. induction ext as [|c ext IH]; [reflexivity|].
  cbn [flat_map]. rewrite IH.
  - destruct (cs_mem false (CsChar backslash) c) eqn:E; [|reflexivity].
    apply cs_mem_char_inv in E. subst c. exfalso. apply Hno. left.
  - intros Hin. apply Hno. now right.
Qed.

Lemma relOf_ends (c : list jsstring) : forall prefix,
  c <> [] -> exists stem, fold_left relOf c prefix = stem ++ List.last c [].
Proof.
  induction c as [|n c IH]; intros prefix Hc; [contradiction|].
  destruct c as [|n' c].
  - cbn [fold_left List.last]. destruct prefix as [|a prefix]; cbn [relOf].
    + now exists [].
    + exists ((a :: prefix) ++ str "/"). now rewrite <- app_assoc.
  - cbn [fold_left]. destruct (IH (relOf prefix n)) as (stem & Hs); [discriminate|].
    exists stem. exact Hs.
Qed.

Lemma walk_elem dir prefix p :
  p ∈ walk dir prefix <->
  exists c, c ∈ chains dir /\ kept c = true /\
            p = replace re_backslash (str "/") (fold_left relOf c prefix).
Proof.
  rewrite walk_chains_from. rewrite list_elem_of_In, in_map_iff. split.
  - intros (c & <- & Hc). apply filter_In in Hc as [Hc Hk].
    exists c. rewrite list_elem_of_In. auto.
  - intros (c & Hc & Hk & ->). exists c. split; [reflexivity|].
    apply filter_In. rewrite <- list_elem_of_In. auto.
Qed.

(** X2: a path returned by [walk] holds no backslash and ends, compared
    without case, with one of the text extensions. *)
Theorem walk_text_paths (dir : Listing) (prefix p : jsstring) :
  p ∈ walk dir prefix ->
(backslash ∉ p) /\
  exists stem ext, p = stem ++ ext /\ toLowerCase ext ∈ TEXT_EXT.
Proof.
  intros Hp. apply walk_elem in Hp as (c & Hc & Hk & ->).
  split; [apply backslash_gone|].
  pose proof (chains_nonempty dir) as Hne. rewrite Forall_forall in Hne.
  destruct (relOf_ends c prefix (Hne c Hc)) as (stem & ->).
  unfold kept in Hk. apply andb_true_iff in Hk as [_ Hext].
  apply bool_decide_eq_true in Hext.
  apply extOf_text in Hext as (stem' & ext & -> & Hext).
  exists (replace re_backslash (str "/") (stem ++ stem')), ext. split; [|exact Hext].
  rewrite app_assoc. rewrite !backslash_replaced, flat_map_app.
  rewrite <- !backslash_replaced. now rewrite (text_ext_no_backslash ext).
Qed.

Lemma walkEntry_elem es prefix e p :
  e ∈ es -> p ∈ walkEntry prefix e -> p ∈ walk (Entries es) prefix.
Proof.
  intros He Hp. rewrite walk_entries. apply list_elem_of_In, in_flat_map.
  exists e. rewrite <- !list_elem_of_In. auto.
Qed.

Lemma IGNORE_docs : str "docs" ∉ IGNORE.
Proof.
  intros H. apply IGNORE_elem in H. cbn in H.
  repeat (apply elem_of_cons in H as [H|H]; [discriminate|]). now apply elem_of_nil in H.
Qed.

Lemma IGNORE_assets : str "assets" ∉ IGNORE.
Proof.
  intros H. apply IGNORE_elem in H. cbn in H.
  repeat (apply elem_of_cons in H as [H|H]; [discriminate|]). now apply elem_of_nil in H.
Qed.

(** X3: a text file below [docs/assets] is returned although [IGNORE]
    lists [docs/assets]: an entry is ignored by its own name, and neither
    [docs] nor [assets] is an ignored name. *)
Theorem walk_below_docs_assets (es es1 es2 : list Dirent) (name : jsstring) :
  DirEnt (str "docs") (Entries es1) ∈ es ->
  DirEnt (str "assets") (Entries es2) ∈ es1 ->
  FileEnt name ∈ es2 ->
  name ∉ IGNORE -> extOf name ∈ TEXT_EXT ->
  replace re_backslash (str "/") (str "docs/assets/" ++ name) ∈ walk (Entries es) [].
Proof.
  intros H1 H2 H3 Hi Hx.
  eapply walkEntry_elem; [exact H1|]. unfold walkEntry. cbn [d_name relOf].
  rewrite (bool_decide_eq_false_2 _ IGNORE_docs).
  eapply walkEntry_elem; [exact H2|]. unfold walkEntry. cbn [d_name relOf str list_ascii_of_string app].
  rewrite (bool_decide_eq_false_2 _ IGNORE_assets).
  eapply walkEntry_elem; [exact H3|]. unfold walkEntry. cbn [d_name relOf app].
  rewrite (bool_decide_eq_false_2 _ Hi), (bool_decide_eq_true_2 _ Hx).
  left.
Qed.

Lemma walk_below_docs_assets_witness :
  str "docs/assets/a.md" ∈ walk treeSite [].
Proof.
  apply (walk_below_docs_assets _
           [DirEnt (str "assets") (Entries [FileEnt (str "a.md")]);
            DirEnt (str "locked") Throws; FileEnt (str "README")]
           [FileEnt (str "a.md")] (str "a.md")).
  - unfold treeSite. do 3 right. left.
  - left.
  - left.
  - intros H. apply IGNORE_elem in H. cbn in H.
    repeat (apply elem_of_cons in H as [H|H]; [discriminate|]). now apply elem_of_nil in H.
  - apply TEXT_EXT_elem. vm_compute. do 2 right. left.
Defined.

(** X4: an entry with an ignored name, whatever lies below it, and a
    directory that cannot be read contribute nothing: the traversal is the
    same without them. *)
Theorem walk_skips (es1 es2 : list Dirent) (e : Dirent) (prefix : jsstring) :
  d_name e ∈ IGNORE \/ e = DirEnt (d_name e) Throws ->
  walk (Entries (es1 ++ e :: es2)) prefix = walk (Entries (es1 ++ es2)) prefix.
Proof.
  intros H. rewrite !walk_entries, !flat_map_app. cbn [flat_map].
  replace (walkEntry prefix e) with ([] : list jsstring); [reflexivity|].
  unfold walkEntry. destruct H as [H| ->].
  - now rewrite (bool_decide_eq_true_2 _ H).
  - cbn [d_name walk]. now destruct (bool_decide _).
Qed.

Lemma walk_skips_witness :
  walk (Entries ([FileEnt (str "a.md")]
                 ++ DirEnt (str "node_modules") (Entries [FileEnt (str "b.md")])
                 :: [FileEnt (str "c.md")])) []
  = walk (Entries ([FileEnt (str "a.md")] ++ [FileEnt (str "c.md")])) [].
Proof.
  apply walk_skips. left. apply IGNORE_elem. cbn [d_name]. right. left.
Defined.

(** X5: the extension compared with [TEXT_EXT] is the text from the last
    dot of the name on, in lower case, when that dot is followed by at
    least one code unit. *)
Theorem extension_after_last_dot (stem w : jsstring) :
  w <> [] -> "."%char ∉ w ->
  extOf (stem ++ "."%char :: w) = "."%char :: toLowerCase w.
Proof.
  intros Hne Hw. unfold extOf.
  destruct (exec re_ext (stem ++ "."%char :: w)) as [m|] eqn:He.
  - apply exec_ext_inv in He as (stem' & w' & Heq & _ & Hw' & ->).
    apply last_sep_unique in Heq as [_ ->]; auto.
  - exfalso. eapply exec_complete; [|exact He]. now apply re_ext_match.
Qed.

Lemma extension_after_last_dot_witness :
  extOf (str "notes.tar" ++ "."%char :: str "GZ") = "."%char :: toLowerCase (str "GZ").
Proof.
  apply extension_after_last_dot; [discriminate|].
  intros H. repeat (apply elem_of_cons in H as [H|H]; [discriminate|]).
  now apply elem_of_nil in H.
Defined.

Lemma walk_text_paths_witness :
  (backslash ∉ str "docs/assets/a.md") /\
  exists stem ext, str "docs/assets/a.md" = stem ++ ext /\ toLowerCase ext ∈ TEXT_EXT.
Proof.
  apply (walk_text_paths treeSite []). vm_compute. do 1 right. left.
Defined.

(** ** The shape of context keys *)

Lemma singleSpaced_cons c s :
  singleSpaced s = true ->
  match s with [] => True | d :: _ => isSpace c && isSpace d = false end ->
  singleSpaced (c :: s) = true.
Proof.
  intros Hs Hh. destruct s as [|d s]; [reflexivity|].
  cbn [singleSpaced] in *. now rewrite Hh.
Qed.

Lemma singleSpaced_tail c s : singleSpaced (c :: s) = true -> singleSpaced s = true.
Proof.
  destruct s as [|d s]; [reflexivity|]. cbn [singleSpaced].
  intros H. now apply andb_true_iff in H as [_ H].
Qed.

Lemma singleSpaced_dropWhile p s :
  singleSpaced s = true -> singleSpaced (dropWhile p s) = true.
Proof.
  induction s as [|c s IH]; [reflexivity|]. intros H. cbn [dropWhile].
  destruct (p c); [|exact H]. apply IH. now apply singleSpaced_tail in H.
Qed.

Lemma singleSpaced_skipn n s :
  singleSpaced s = true -> singleSpaced (skipn n s) = true.
Proof.
  revert s. induction n as [|n IH]; intros [|c s] H; cbn [skipn]; auto.
  apply IH. now apply singleSpaced_tail in H.
Qed.

Lemma singleSpaced_snoc s c d :
  singleSpaced (s ++ [c]) = true -> isSpace c && isSpace d = false ->
  singleSpaced ((s ++ [c]) ++ [d]) = true.
Proof.
  induction s as [|a s IH]; intros Hs Hcd.
  - cbn. now rewrite Hcd.
  - cbn [app] in *. destruct s as [|b s].
    + cbn [app singleSpaced] in *. rewrite Hcd. cbn.
      apply andb_true_iff in Hs as [Hs _]. now rewrite Hs.
    + cbn [app singleSpaced] in *. apply andb_true_iff in Hs as [Hab Hs].
      rewrite Hab. cbn [andb]. apply IH; assumption.
Qed.

Lemma singleSpaced_rev s : singleSpaced s = true -> singleSpaced (rev s) = true.
Proof.
  induction s as [|c s IH]; [reflexivity|]. intros H. cbn [rev].
  pose proof (singleSpaced_tail _ _ H) as Ht. specialize (IH Ht).
  destruct s as [|d s]; [reflexivity|]. cbn [rev] in *.
  apply singleSpaced_snoc; [exact IH|].
  cbn [singleSpaced] in H. apply andb_true_iff in H as [H _].
  apply negb_true_iff in H. now rewrite andb_comm.
Qed.

Lemma singleSpaced_trim s : singleSpaced s = true -> singleSpaced (trim s) = true.
Proof.
  intros H. unfold trim.
  now apply singleSpaced_rev, singleSpaced_dropWhile, singleSpaced_rev,
            singleSpaced_dropWhile.
Qed.

Lemma dropWhile_head {A} (p : A -> bool) l :
  match dropWhile p l with [] => True | c :: _ => p c = false end.
Proof.
  induction l as [|a l IH]; [exact I|]. cbn [dropWhile].
  destruct (p a) eqn:E; [exact IH|exact E].
Qed.

Lemma spaces_collapsed (n : nat) : forall (rest : list ascii) fuel before,
  length rest <= n -> length rest < fuel ->
  let out := replace_loop fuel re_spaces (str " ") before rest in
  singleSpaced out = true /\
  match out, rest with
  | c :: _, d :: _ => isSpace c = true -> isSpace d = true
  | _ :: _, [] => False
  | [], _ => True
  end.
Proof.
  induction n as [|n IH]; intros rest fuel before Hn Hfuel; cbv zeta.
  - destruct rest; [|cbn in Hn; lia].
    rewrite replace_loop_nil by reflexivity. now split.
  - destruct rest as [|a rest].
    { rewrite replace_loop_nil by reflexivity. now split. }
    destruct fuel as [|fuel]; [lia|].
    pose proof (match_here_spaces before a rest) as Hm.
    destruct (isSpace a) eqn:Ha.
    + rewrite (replace_loop_hit _ _ _ _ _ _ Hm).
      * cbn [ms_before ms_rest].
        assert (length (dropWhile isSpace (a :: rest)) <= length rest) as Hlen.
        { cbn. rewrite Ha. apply dropWhile_length. }
        destruct (IH (dropWhile isSpace (a :: rest)) fuel
                     (rev (takeWhile isSpace (a :: rest)) ++ before)) as [H1 H2];
          [cbn in Hn; lia | cbn in Hfuel; lia |].
        pose proof (dropWhile_head isSpace (a :: rest)) as Hh.
        set (out := replace_loop fuel re_spaces (str " ") _ _) in *.
        change (str " " ++ out) with (" "%char :: out).
        split; [|auto].
        apply singleSpaced_cons; [exact H1|].
        destruct out as [|c out]; [exact I|].
        destruct (dropWhile isSpace (a :: rest)) as [|d r]; [contradiction|].
        destruct (isSpace c) eqn:Hc; [|now rewrite andb_false_r].
        rewrite H2 in Hh by reflexivity. discriminate.
      * unfold progressed, startState. cbn [ms_rest]. apply Nat.ltb_lt.
        cbn [dropWhile]. rewrite Ha. pose proof (dropWhile_length isSpace rest). cbn. lia.
    + rewrite (replace_loop_skip _ _ _ _ _ _ Hm).
      destruct (IH rest (S fuel) (a :: before)) as [H1 H2];
        [cbn in Hn; lia | cbn in Hfuel; lia |].
      split; [|intros Hc; congruence].
      apply singleSpaced_cons; [exact H1|].
      destruct (replace_loop (S fuel) re_spaces (str " ") (a :: before) rest); [exact I|].
      now rewrite Ha.
Qed.

Lemma replace_spaces_single (text : jsstring) :
  singleSpaced (replace re_spaces (str " ") text) = true.
Proof.
  unfold replace. cbn [re_global re_spaces].
  apply (spaces_collapsed (length text)); lia.
Qed.

Lemma trim_last (s : jsstring) :
  match rev (trim s) with [] => True | c :: _ => isSpace c = false end.
Proof. unfold trim. rewrite rev_involutive. apply dropWhile_head. Qed.

Lemma last_rev_head {A} (l : list A) d :
  List.last l d = match rev l with [] => d | c :: _ => c end.
Proof.
  destruct l as [|a l] using rev_ind; [reflexivity|].
  now rewrite List.last_last, rev_app_distr.
Qed.

Lemma last_skipn {A} n (l : list A) d :
  skipn n l <> [] -> List.last (skipn n l) d = List.last l d.
Proof.
  intros H. rewrite <- (firstn_skipn n l) at 2. now rewrite last_app_ne.
Qed.

(** X6: a context key has at most 70 code units, has no two white-space
    code units in a row and does not end with white space. *)
Theorem contextKey_shape (text : jsstring) (pos : nat) :
  length (makeContextKey text pos) <= 70 /\
  singleSpaced (makeContextKey text pos) = true /\
  isSpace (List.last (makeContextKey text pos) "x"%char) = false.
Proof.
  unfold makeContextKey, makeContextKeyLen. cbv zeta.
  set (w := trim (replace re_spaces (str " ") _)).
  assert (Hw : singleSpaced w = true) by apply singleSpaced_trim, replace_spaces_single.
  assert (Hl : match rev w with [] => True | c :: _ => isSpace c = false end)
    by apply trim_last.
  clearbody w. unfold sliceLast. split; [|split].
  - rewrite length_skipn. lia.
  - now apply singleSpaced_skipn.
  - destruct (skipn (length w - 70) w) as [|c s] eqn:E; [reflexivity|].
    rewrite <- E, last_skipn by (rewrite E; discriminate).
    rewrite last_rev_head. destruct (rev w) as [|a r] eqn:Er; [|exact Hl].
    apply (f_equal (@rev ascii)) in Er. rewrite rev_involutive in Er. subst w.
    cbn [rev] in E. rewrite skipn_nil in E. discriminate.
Qed.

(** ** Patterns do not tell one digit from another *)

Lemma allAscii_all c : In c allAscii.
Proof.
  unfold allAscii. apply in_map_iff. exists (nat_of_ascii c). split.
  - apply ascii_nat_embedding.
  - apply in_seq. pose proof (nat_ascii_bounded c). lia.
Qed.

Lemma digitBlind_set ic cs c :
  digitBlind ic (RSet cs) = true -> cs_mem ic cs (maskDigit c) = cs_mem ic cs c.
Proof.
  cbn [digitBlind]. intros H. rewrite forallb_forall in H.
  specialize (H c (allAscii_all c)). now apply eqb_prop in H.
Qed.

Lemma maskDigit_space c : isSpace (maskDigit c) = isSpace c.
Proof. ascii_cases c. Qed.

Lemma maskDigit_word c : isWordChar (maskDigit c) = isWordChar c.
Proof. ascii_cases c. Qed.

Lemma maskDigit_lower c : toLowerChar (maskDigit c) = maskDigit (toLowerChar c).
Proof. ascii_cases c. Qed.

Lemma maskDigit_digit c : isDigit (maskDigit c) = isDigit c.
Proof. ascii_cases c. Qed.

Lemma maskDigit_other c : isDigit c = false -> maskDigit c = c.
Proof. unfold maskDigit. now intros ->. Qed.

Lemma shape_headIsWord l : headIsWord (digitShape l) = headIsWord l.
Proof. destruct l as [|c l]; [reflexivity|]. cbn. apply maskDigit_word. Qed.

Lemma shape_boundary st : atWordBoundary (shapeState st) = atWordBoundary st.
Proof. unfold atWordBoundary. cbn [shapeState ms_before ms_rest]. now rewrite !shape_headIsWord. Qed.

Lemma shape_progressed st st1 :
  progressed (shapeState st) (shapeState st1) = progressed st st1.
Proof. unfold progressed. cbn [shapeState ms_rest]. unfold digitShape. now rewrite !length_map. Qed.

Lemma shape_captured st st1 :
  captured (shapeState st) (shapeState st1) = digitShape (captured st st1).
Proof.
  unfold captured. cbn [shapeState ms_rest]. unfold digitShape.
  now rewrite !length_map, firstn_map.
Qed.

Lemma shape_set_cap n st st1 :
  set_cap n (captured (shapeState st) (shapeState st1)) (shapeState st1)
  = shapeState (set_cap n (captured st st1) st1).
Proof. unfold set_cap. rewrite shape_captured. reflexivity. Qed.

Lemma shape_clear_caps gs st :
  clear_caps gs (shapeState st) = shapeState (clear_caps gs st).
Proof.
  destruct gs as [|g gs]; [reflexivity|].
  unfold clear_caps, shapeState. cbn [ms_before ms_rest ms_caps]. f_equal.
  induction (ms_caps st) as [|[n s] caps IH]; [reflexivity|].
  cbn [map List.filter fst snd]. destruct (negb _); cbn [map fst snd]; now rewrite IH.
Qed.

Lemma repeat_loop_shape (body : mstate -> cont -> option mstate) gs :
  (forall st k k', shapeCont k k' ->
     body (shapeState st) k' = option_map shapeState (body st k)) ->
  forall fuel min max st k k', shapeCont k k' ->
    repeat_loop body gs fuel min max (shapeState st) k'
    = option_map shapeState (repeat_loop body gs fuel min max st k).
Proof.
  intros Hbody. induction fuel as [|fuel IH]; intros min max st k k' Hk.
  - cbn [repeat_loop]. destruct max as [[|m]|]; apply Hk.
  - cbn [repeat_loop]. destruct max as [[|m]|]; [apply Hk| |].
    + rewrite shape_clear_caps.
      rewrite (Hbody (clear_caps gs st)
                 (fun st1 => if (min =? 0) && negb (progressed st st1) then None
                             else repeat_loop body gs fuel (pred min)
                                    (option_map pred (Some (S m))) st1 k)).
      * destruct (min =? 0); [|reflexivity].
        destruct (body (clear_caps gs st) _); [reflexivity|apply Hk].
      * intros st1. rewrite shape_progressed.
        destruct ((min =? 0) && negb (progressed st st1)); [reflexivity|].
        now apply IH.
    + rewrite shape_clear_caps.
      rewrite (Hbody (clear_caps gs st)
                 (fun st1 => if (min =? 0) && negb (progressed st st1) then None
                             else repeat_loop body gs fuel (pred min)
                                    (option_map pred None) st1 k)).
      * destruct (min =? 0); [|reflexivity].
        destruct (body (clear_caps gs st) _); [reflexivity|apply Hk].
      * intros st1. rewrite shape_progressed.
        destruct ((min =? 0) && negb (progressed st st1)); [reflexivity|].
        now apply IH.
Qed.

Lemma rmatch_shape ic r :
  digitBlind ic r = true ->
  forall st k k', shapeCont k k' ->
    rmatch ic r (shapeState st) k' = option_map shapeState (rmatch ic r st k).
Proof.
  induction r as [|cs|r1 IH1 r2 IH2|r1 IH1 r2 IH2|min max r1 IH1|n r1 IH1| | |];
    intros Hb st k k' Hk; cbn [rmatch].
  - apply Hk.
  - cbn [shapeState ms_rest ms_before ms_caps]. destruct (ms_rest st) as [|c rest]; [reflexivity|].
    cbn [digitShape map]. rewrite (digitBlind_set _ _ _ Hb).
    destruct (cs_mem ic cs c); [|reflexivity]. apply (Hk (MState (c :: ms_before st) rest (ms_caps st))).
  - cbn [digitBlind] in Hb. apply andb_true_iff in Hb as [Hb1 Hb2].
    apply IH1; [exact Hb1|]. intros st1. now apply IH2.
  - cbn [digitBlind] in Hb. apply andb_true_iff in Hb as [Hb1 Hb2].
    rewrite (IH1 Hb1 st k k' Hk), (IH2 Hb2 st k k' Hk).
    now destruct (rmatch ic r1 st k).
  - cbn [digitBlind] in Hb.
    change (ms_rest (shapeState st)) with (digitShape (ms_rest st)).
    replace (length (digitShape (ms_rest st))) with (length (ms_rest st))
      by (unfold digitShape; now rewrite length_map).
    apply (repeat_loop_shape (rmatch ic r1) (groups_in r1) (IH1 Hb)). exact Hk.
  - cbn [digitBlind] in Hb. apply IH1; [exact Hb|].
    intros st1. rewrite shape_set_cap. apply Hk.
  - rewrite shape_boundary. destruct (atWordBoundary st); [apply Hk|reflexivity].
  - cbn [shapeState ms_before]. destruct (ms_before st); [apply Hk|reflexivity].
  - cbn [shapeState ms_rest]. destruct (ms_rest st); [apply Hk|reflexivity].
Qed.

Lemma match_here_shape re before rest :
  digitBlind (re_ignoreCase re) (re_pattern re) = true ->
  match_here re (digitShape before) (digitShape rest)
  = option_map shapeState (match_here re before rest).
Proof.
  intros Hb. unfold match_here.
  apply (rmatch_shape _ _ Hb (MState before rest []) Some Some). now intros st1.
Qed.

Lemma scan_shape re (rest : list ascii) : forall before,
  digitBlind (re_ignoreCase re) (re_pattern re) = true ->
  scan re (digitShape before) (digitShape rest)
  = option_map (fun p => (shapeState (fst p), shapeState (snd p))) (scan re before rest).
Proof.
  induction rest as [|c rest IH]; intros before Hb.
  - change (digitShape []) with (@nil ascii). cbn [scan].
    change (match_here re (digitShape before) [])
      with (match_here re (digitShape before) (digitShape [])).
    rewrite match_here_shape by exact Hb.
    now destruct (match_here re before []).
  - change (digitShape (c :: rest)) with (maskDigit c :: digitShape rest). cbn [scan].
    change (match_here re (digitShape before) (maskDigit c :: digitShape rest))
      with (match_here re (digitShape before) (digitShape (c :: rest))).
    rewrite match_here_shape by exact Hb.
    destruct (match_here re before (c :: rest)); [reflexivity|].
    cbn [option_map]. apply (IH (c :: before) Hb).
Qed.

Lemma skipped_shape rest st0 :
  skipped (digitShape rest) (shapeState st0) = digitShape (skipped rest st0).
Proof.
  unfold skipped. cbn [shapeState ms_rest]. unfold digitShape. now rewrite !length_map, firstn_map.
Qed.

Lemma digitShape_app a b : digitShape (a ++ b) = digitShape a ++ digitShape b.
Proof. apply map_app. Qed.

Lemma replace_loop_shape re repl :
  digitBlind (re_ignoreCase re) (re_pattern re) = true -> digitShape repl = repl ->
  forall fuel before rest,
    replace_loop fuel re repl (digitShape before) (digitShape rest)
    = digitShape (replace_loop fuel re repl before rest).
Proof.
  intros Hb Hrepl. induction fuel as [|fuel IH]; intros before rest; [reflexivity|].
  cbn [replace_loop]. rewrite scan_shape by exact Hb.
  destruct (scan re before rest) as [[st0 st1]|]; [|reflexivity].
  cbn [option_map fst snd]. rewrite skipped_shape, shape_progressed.
  rewrite !digitShape_app, Hrepl.
  f_equal. f_equal. destruct (progressed st0 st1).
  - apply IH.
  - cbn [shapeState ms_rest ms_before]. destruct (ms_rest st1) as [|c rest']; [reflexivity|].
    cbn [digitShape map]. f_equal. apply (IH (c :: ms_before st1) rest').
Qed.

Lemma replace_shape re repl text :
  digitBlind (re_ignoreCase re) (re_pattern re) = true -> digitShape repl = repl ->
  replace re repl (digitShape text) = digitShape (replace re repl text).
Proof.
  intros Hb Hrepl. unfold replace. destruct (re_global re).
  - unfold digitShape at 1. rewrite length_map.
    apply (replace_loop_shape re repl Hb Hrepl (S (length text)) [] text).
  - change (@nil ascii) with (digitShape []) at 1. rewrite scan_shape by exact Hb.
    destruct (scan re [] text) as [[st0 st1]|]; [|reflexivity].
    cbn [option_map fst snd]. rewrite skipped_shape.
    now rewrite !digitShape_app, Hrepl.
Qed.

Lemma dropWhile_shape s :
  dropWhile isSpace (digitShape s) = digitShape (dropWhile isSpace s).
Proof.
  induction s as [|c s IH]; [reflexivity|]. cbn [digitShape map dropWhile].
  rewrite maskDigit_space. destruct (isSpace c); [apply IH|reflexivity].
Qed.

Lemma rev_shape s : rev (digitShape s) = digitShape (rev s).
Proof. unfold digitShape. now rewrite map_rev. Qed.

Lemma trim_shape s : trim (digitShape s) = digitShape (trim s).
Proof. unfold trim. now rewrite dropWhile_shape, rev_shape, dropWhile_shape, rev_shape. Qed.

Lemma toLowerCase_shape s : toLowerCase (digitShape s) = digitShape (toLowerCase s).
Proof.
  unfold toLowerCase, digitShape. rewrite !map_map. apply map_ext, maskDigit_lower.
Qed.

Lemma slice_shape s a b : slice (digitShape s) a b = digitShape (slice s a b).
Proof. unfold slice, digitShape. now rewrite skipn_map, firstn_map. Qed.

Lemma sliceLast_shape n s : sliceLast n (digitShape s) = digitShape (sliceLast n s).
Proof. unfold sliceLast, digitShape. now rewrite length_map, skipn_map. Qed.

Lemma makeContextKey_shape text pos :
  makeContextKey (digitShape text) pos = digitShape (makeContextKey text pos).
Proof.
  unfold makeContextKey, makeContextKeyLen. cbv zeta.
  unfold digitShape at 1 2. rewrite length_map. fold (digitShape text).
  rewrite slice_shape.
  rewrite (replace_shape re_spaces) by reflexivity. rewrite trim_shape.
  rewrite (replace_shape re_maskDollar) by reflexivity.
  rewrite (replace_shape re_maskNumber) by reflexivity.
  rewrite toLowerCase_shape.
  rewrite (replace_shape re_nonKey) by reflexivity.
  rewrite (replace_shape re_spaces) by reflexivity. rewrite trim_shape.
  apply sliceLast_shape.
Qed.

Lemma digitShape_nodigit (a b : jsstring) :
  digitShape a = digitShape b -> existsb isDigit a = false -> a = b.
Proof.
  revert b. induction a as [|x a IH]; intros [|y b] Heq Hno; try discriminate; [reflexivity|].
  cbn [digitShape map existsb] in *. apply orb_false_iff in Hno as [Hx Ha].
  inversion Heq as [[Hxy Hab]]. f_equal; [|now apply IH].
  rewrite (maskDigit_other x Hx) in Hxy. subst x.
  destruct (isDigit y) eqn:Hy; [|now rewrite maskDigit_other].
  now rewrite maskDigit_digit, Hy in Hx.
Qed.

(** X7: two texts that differ only in which digits they hold give, at one
    offset, keys that differ only in which digits they hold; when no digit
    of the texts stands next to a letter or an underscore, the two keys
    are equal. *)
Theorem contextKey_ignores_digit_values (text1 text2 : jsstring) (pos : nat) :
  digitShape text1 = digitShape text2 ->
  digitShape (makeContextKey text1 pos) = digitShape (makeContextKey text2 pos) /\
  (digitsApart text1 = true -> makeContextKey text1 pos = makeContextKey text2 pos).
Proof.
  intros H.
  assert (Hs : digitShape (makeContextKey text1 pos) = digitShape (makeContextKey text2 pos))
    by now rewrite <- !makeContextKey_shape, H.
  split; [exact Hs|]. intros Hno.
  apply digitShape_nodigit; [exact Hs|]. now apply plain_numerals_masked.
Qed.

Lemma contextKey_ignores_digit_values_witness :
  makeContextKey textFive 18 = makeContextKey textSix 18.
Proof.
  apply (proj2 (contextKey_ignores_digit_values textFive textSix 18 eq_refl)).
  reflexivity.
Defined.

(** ** Rounding keeps the sign *)

Lemma shr_1_nonneg mrs : (0 <= shr_m mrs)%Z -> (0 <= shr_m (shr_1 mrs))%Z.
Proof.
  destruct mrs as [m r s]. cbn [shr_m]. intros H.
  destruct m as [|[p|p|]|p]; cbn; lia.
Qed.

Lemma iter_pos_nonneg p : forall mrs,
  (0 <= shr_m mrs)%Z -> (0 <= shr_m (SpecFloat.iter_pos shr_1 p mrs))%Z.
Proof.
  induction p as [p IH|p IH|]; intros mrs H; cbn [SpecFloat.iter_pos].
  - apply IH, IH. now apply shr_1_nonneg.
  - now apply IH, IH.
  - now apply shr_1_nonneg.
Qed.

Lemma shr_fexp_nonneg m e l :
  (0 <= m)%Z -> (0 <= shr_m (fst (shr_fexp prec emax m e l)))%Z.
Proof.
  intros H. unfold shr_fexp, shr.
  assert (H0 : (0 <= shr_m (shr_record_of_loc m l))%Z) by (now destruct l as [|[]]).
  destruct (_ - e)%Z; cbn [fst]; try exact H0. now apply iter_pos_nonneg.
Qed.

Lemma round_nearest_even_nonneg m l : (0 <= m)%Z -> (0 <= round_nearest_even m l)%Z.
Proof.
  intros H. destruct l as [|[]]; cbn; try lia. destruct (Z.even m); lia.
Qed.

Lemma binary_round_aux_sign (s : bool) m e l :
  (0 <= m)%Z -> nonNegNumber (binary_round_aux prec emax s m e l) = negb s.
Proof.
  intros H. unfold binary_round_aux.
  pose proof (shr_fexp_nonneg m e l H) as H1.
  destruct (shr_fexp prec emax m e l) as [mrs' e']. cbn [fst] in H1.
  pose proof (shr_fexp_nonneg _ e' loc_Exact
                (round_nearest_even_nonneg _ (loc_of_shr_record mrs') H1)) as H2.
  destruct (shr_fexp prec emax _ e' loc_Exact) as [mrs'' e'']. cbn [fst] in H2.
  destruct (shr_m mrs'') as [|p|p]; [reflexivity| |lia].
  now destruct (e'' <=? emax - prec)%Z.
Qed.

Lemma num_of_Z_nonneg z : (0 <= z)%Z -> nonNegNumber (num_of_Z z) = true.
Proof.
  intros H. unfold num_of_Z, binary_normalize. destruct z as [|p|p]; [reflexivity| |lia].
  unfold binary_round. destruct (shl_align _ _ _) as [mz ez].
  now apply (binary_round_aux_sign false).
Qed.

Lemma num_of_dec_nonneg m e : nonNegNumber (num_of_dec m e) = true.
Proof.
  unfold num_of_dec. destruct m as [|p]; [reflexivity|].
  destruct (0 <=? e)%Z eqn:He.
  - apply num_of_Z_nonneg. apply Z.leb_le in He.
    apply Z.mul_nonneg_nonneg; [lia|]. apply Z.pow_nonneg. lia.
  - unfold SFdiv. destruct (SFdiv_core_binary _ _ _ _ _ _) as [[mz ez] lz] eqn:Hd.
    apply (binary_round_aux_sign false).
    unfold SFdiv_core_binary in Hd. cbv zeta in Hd.
    set (m' := match _ with Z0 => _ | Zpos _ => _ | Zneg _ => _ end) in Hd.
    assert (Hm' : (0 <= m')%Z).
    { subst m'. destruct (_ - _ - _)%Z; try lia. apply Z.shiftl_nonneg. lia. }
    pose proof (Z_div_mod m' (Z.pos (Z.to_pos (10 ^ (- e)))) ltac:(lia)) as Hdm.
    destruct (Z.div_eucl m' _) as [q r]. inversion Hd; subst.
    destruct Hdm as [Hq Hr]. nia.
Qed.

Lemma num_mul_nonneg x (y : Z) :
  (0 < y)%Z -> nonNegNumber (num_of_Z y) = true ->
  match num_of_Z y with S754_finite _ _ _ => True | _ => False end ->
  nonNegNumber x = true -> nonNegNumber (num_mul x (num_of_Z y)) = true.
Proof.
  intros _ Hy Hf Hx. unfold num_mul. destruct (num_of_Z y) as [| | |sy my ey]; try contradiction.
  cbn in Hy. apply negb_true_iff in Hy. subst sy.
  destruct x as [sx|sx| |sx mx ex]; cbn in Hx; try discriminate;
    apply negb_true_iff in Hx; subst sx; try reflexivity.
  unfold SFmul. cbn [xorb]. now apply (binary_round_aux_sign false).
Qed.

Lemma num_mul_1e6_nonneg x : nonNegNumber x = true -> nonNegNumber (num_mul x num_1e6) = true.
Proof. apply num_mul_nonneg; [lia|reflexivity|exact I]. Qed.

Lemma num_mul_1e3_nonneg x : nonNegNumber x = true -> nonNegNumber (num_mul x num_1e3) = true.
Proof. apply num_mul_nonneg; [lia|reflexivity|exact I]. Qed.

Lemma num_mul_NaN y : num_mul NaN y = NaN.
Proof. reflexivity. Qed.

(** ** [parseFloat] without a sign *)

Lemma parseFloat_unsigned_form (s : jsstring) :
  match s with [] => True | c :: _ => isDigit c || isDot c = true end ->
  parseFloat s
  = match takeWhile isDigit s ++ fst (fracSplit (dropWhile isDigit s)) with
    | [] => NaN
    | ds => num_of_dec (digitsValue ds)
              (exponentPart (snd (fracSplit (dropWhile isDigit s)))
               - Z.of_nat (length (fst (fracSplit (dropWhile isDigit s)))))
    end.
Proof.
  intros Hh. unfold parseFloat.
  assert (Hs : takeSign (dropWhile isSpace s) = (false, s)
               /\ startsWith (str "Infinity") s = false).
  { destruct s as [|c t]; [now split|].
    assert (isSpace c = false /\ c <> "-"%char /\ c <> "+"%char
            /\ (code "I" =? code c)%N = false) as (H1 & H2 & H3 & H4).
    { clear -Hh. revert Hh. unfold isDot. ascii_cases c; intros _; repeat split; discriminate. }
    cbn [dropWhile]. rewrite H1. split.
    - unfold takeSign. destruct c as [[|] [|] [|] [|] [|] [|] [|] [|]]; try reflexivity;
        congruence.
    - cbn [startsWith str list_ascii_of_string]. now rewrite H4. }
  destruct Hs as [-> ->].
  change (match dropWhile isDigit s with
          | "."%char :: t => (takeWhile isDigit t, dropWhile isDigit t)
          | _ => ([], dropWhile isDigit s)
          end) with (fracSplit (dropWhile isDigit s)).
  destruct (fracSplit (dropWhile isDigit s)) as [fp r2]. reflexivity.
Qed.

Lemma parseFloat_unsigned (s : jsstring) :
  match s with [] => True | c :: _ => isDigit c || isDot c = true end ->
  parseFloat s = NaN \/ nonNegNumber (parseFloat s) = true.
Proof.
  intros Hh. rewrite (parseFloat_unsigned_form s Hh).
  destruct (takeWhile isDigit s ++ _); [now left|]. right. apply num_of_dec_nonneg.
Qed.

Lemma parseFloat_digitLed (s : jsstring) :
  digitLed s = true -> nonNegNumber (parseFloat s) = true.
Proof.
  intros Hd.
  assert (Hh : match s with [] => True | c :: _ => isDigit c || isDot c = true end).
  { destruct s as [|c t]; [exact I|]. cbn [digitLed] in Hd.
    apply orb_true_iff in Hd as [->|Hd]; [reflexivity|].
    apply andb_true_iff in Hd as [-> _]. apply orb_true_r. }
  rewrite (parseFloat_unsigned_form s Hh).
  assert (Hne : takeWhile isDigit s ++ fst (fracSplit (dropWhile isDigit s)) <> []).
  { destruct s as [|c t]; [discriminate|]. cbn [digitLed] in Hd.
    destruct (isDigit c) eqn:Hc.
    - cbn [takeWhile]. rewrite Hc. discriminate.
    - cbn [orb] in Hd. apply andb_true_iff in Hd as [Hdot Hd].
      unfold isDot in Hdot. change 46%N with (code ".") in Hdot.
      rewrite N.eqb_sym in Hdot. apply code_inj in Hdot. subst c.
      destruct t as [|d t]; [discriminate|].
      cbn [takeWhile dropWhile]. rewrite Hc. cbn [app fracSplit fst takeWhile].
      rewrite Hd. discriminate. }
  destruct (takeWhile isDigit s ++ _); [contradiction|]. apply num_of_dec_nonneg.
Qed.

(** ** What the normaliser accepts *)

Lemma Matches_opt_inv ic r st st' :
  Matches ic (ROpt r) st st' ->
  st' = st \/ Matches ic r (clear_caps (groups_in r) st) st'.
Proof.
  intros H.
  inversion H as [| | | | |? ? ? ? Hstop|? ? ? ? st1 ? _ Hbody _ Hmore| | | |]; subst;
    [now left|]. right.
  cbn [pred option_map] in Hmore.
  inversion Hmore as [| | | | |? ? ? ? Hstop|? ? ? ? ? ? Hmax| | | |]; subst;
    [exact Hbody|congruence].
Qed.

Lemma Matches_bol_inv ic st st' : Matches ic RBol st st' -> st' = st /\ ms_before st = [].
Proof. intros H. inversion H; subst. now split. Qed.

Lemma test_inv re text :
  test re text = true ->
  exists pre post st1,
    text = pre ++ post /\
    Matches (re_ignoreCase re) (re_pattern re) (startState (rev pre) post) st1.
Proof.
  unfold test. destruct (exec re text) as [m|] eqn:He; [|discriminate]. intros _.
  apply exec_inv in He as (pre & w & Ht & Hm & _). eauto.
Qed.

Lemma rev_nil_inv {A} (l : list A) : rev l = [] -> l = [].
Proof. destruct l as [|a l]; [reflexivity|]. cbn. intros H. now apply app_eq_nil in H as [_ H]. Qed.

Lemma digit_run_head (w rest : list ascii) :
  Forall (fun c => cs_mem false CsDigit c = true) w -> 1 <= length w ->
  digitLed (w ++ rest) = true.
Proof.
  intros Hw Hl. destruct w as [|c w]; [cbn in Hl; lia|].
  inversion Hw; subst. cbn [app digitLed].
  match goal with H : cs_mem false CsDigit c = true |- _ =>
    apply cs_mem_digit_inv in H; now rewrite H end.
Qed.

Lemma suffixPattern_head (ws : list string) pre post st1 :
  Matches false (suffixPattern ws) (startState (rev pre) post) st1 ->
  pre = [] /\ digitLed post = true.
Proof.
  intros H. unfold suffixPattern in H. cbn [RSeqs] in H.
  apply seq_peel in H as (sa & ua & _ & Ha & H).
  apply Matches_bol_inv in Ha as [-> Hbol]. cbn [startState ms_before] in Hbol.
  split; [now apply rev_nil_inv|].
  apply seq_peel in H as (sb & ub & _ & Hb & H).
  apply seq_peel in H as (sc & uc & _ & Hc & H).
  apply seq_peel in H as (sd & ud & _ & Hd & _).
  apply Matches_run_inv in Hb as (w1 & Hw1 & _ & [Hr1 _] & _).
  apply Matches_run_inv in Hd as (w2 & Hw2 & Hl2 & [Hr2 _] & _).
  cbn [startState ms_rest] in Hr1. rewrite Hr1.
  apply Matches_opt_inv in Hc as [->|Hc].
  - rewrite Hr2, app_assoc. apply digit_run_head; [|rewrite length_app; lia].
    apply Forall_app. now split.
  - cbn [groups_in clear_caps] in Hc.
    apply Matches_set_inv in Hc as (c & Hc & Hrc & _).
    apply cs_mem_char_inv in Hc. subst c. rewrite clear_caps_rest in Hrc.
    rewrite Hrc, Hr2.
    destruct w1 as [|d w1].
    + cbn [app digitLed]. destruct w2 as [|d2 w2]; [cbn in Hl2; lia|].
      inversion Hw2; subst. cbn [app].
      match goal with H : cs_mem false CsDigit d2 = true |- _ =>
        apply cs_mem_digit_inv in H; rewrite H end.
      reflexivity.
    + rewrite <- app_comm_cons. inversion Hw1; subst. cbn [digitLed].
      match goal with H : cs_mem false CsDigit d = true |- _ =>
        apply cs_mem_digit_inv in H; now rewrite H end.
Qed.

Lemma plain_inv pre post st1 :
  Matches false (re_pattern re_plain) (startState (rev pre) post) st1 ->
  pre = [] /\ ms_rest st1 = [] /\
  exists c t, post = c :: t /\ isDigit c || isComma c = true.
Proof.
  intros H. cbn [re_pattern re_plain RSeqs] in H.
  apply seq_peel in H as (sa & ua & _ & Ha & H).
  apply Matches_bol_inv in Ha as [-> Hbol]. cbn [startState ms_before] in Hbol.
  split; [now apply rev_nil_inv|].
  apply seq_peel in H as (sb & ub & _ & Hb & H).
  apply seq_peel in H as (sc & uc & _ & _ & H).
  apply Matches_eol_inv in H as [-> Hend]. split; [exact Hend|].
  apply Matches_run_inv in Hb as (w & Hw & Hl & [Hr _] & _).
  cbn [startState ms_rest] in Hr. destruct w as [|c w]; [cbn in Hl; lia|].
  exists c, (w ++ ms_rest sb). split; [exact Hr|].
  inversion Hw as [|? ? Hc _]; subst. revert Hc. unfold cs_mem, isComma. cbn [cs_has andb].
  rewrite orb_false_r. change (code ",") with 44%N. now rewrite (N.eqb_sym 44).
Qed.

Lemma normalized_no_comma (s : jsstring) c :
  c ∈ trim (replace re_comma [] s) -> isComma c = false.
Proof.
  intros H. apply trim_elem in H. rewrite replace_comma in H.
  unfold stripCommas in H. apply list_elem_of_In, filter_In in H as [_ H].
  now apply negb_true_iff in H.
Qed.

(** X8: when [normalizeNum] returns a Number, it is neither NaN nor
    negative (a text it cannot read gives [null]). *)
Theorem normalizeNum_number (s : jsstring) (v : jsnum) :
  normalizeNum s = Some v -> nonNegNumber v = true.
Proof.
  unfold normalizeNum. cbv zeta. set (n := trim (replace re_comma [] s)).
  assert (Hnc : forall c, c ∈ n -> isComma c = false) by apply normalized_no_comma.
  clearbody n.
  destruct (test re_allDigits n) eqn:H1.
  { intros [= <-]. apply test_inv in H1 as (pre & post & st1 & -> & Hm).
    pose proof Hm as Hm'. apply allDigits_inv in Hm as [-> Hd].
    cbn [app]. destruct post as [|c post].
    - exfalso. cbn [re_pattern re_allDigits RSeqs] in Hm'.
      apply seq_peel in Hm' as (sa & ua & _ & Ha & Hm').
      apply Matches_bol_inv in Ha as [-> _].
      apply seq_peel in Hm' as (sb & ub & _ & Hb & _).
      apply Matches_run_inv in Hb as (w & _ & Hl & [Hr _] & _).
      cbn [startState ms_rest] in Hr. destruct w; [cbn in Hl; lia|discriminate].
    - rewrite parseInt10_digits by (exact Hd || discriminate). apply num_of_dec_nonneg. }
  destruct (test re_million n) eqn:H2.
  { intros [= <-]. apply test_inv in H2 as (pre & post & st1 & -> & Hm).
    rewrite re_million_shape in Hm. apply suffixPattern_head in Hm as [-> Hd].
    apply num_mul_1e6_nonneg. now apply parseFloat_digitLed. }
  destruct (test re_thousand n) eqn:H3.
  { intros [= <-]. apply test_inv in H3 as (pre & post & st1 & -> & Hm).
    rewrite re_thousand_shape in Hm. apply suffixPattern_head in Hm as [-> Hd].
    apply num_mul_1e3_nonneg. now apply parseFloat_digitLed. }
  destruct (exec re_plain n) as [m|] eqn:H4; [|discriminate].
  intros [= <-]. apply exec_inv in H4 as (pre & w & Hn & Hm & H0 & _).
  apply plain_inv in Hm as (-> & Hend & c & t & Hw & Hc).
  rewrite Hend, app_nil_r in *. cbn [app] in Hn. subst w n.
  rewrite H0, replace_comma.
  assert (Hcc : isComma c = false) by (apply Hnc; left).
  unfold stripCommas. cbn [List.filter]. rewrite Hcc. cbn [negb].
  apply parseFloat_digitLed. cbn [digitLed]. rewrite Hcc, orb_false_r in Hc. now rewrite Hc.
Qed.

Lemma normalizeNum_number_witness :
  nonNegNumber (num_of_Z 1250500) = true.
Proof. apply (normalizeNum_number (str "1,250.5thousand")). reflexivity. Defined.

(** ** The currency parser on any text *)

Lemma captured_consumes st st' w : consumes st st' w -> captured st st' = w.
Proof.
  intros [Hr _]. unfold captured. rewrite Hr. apply firstn_app_exact.
Qed.

Lemma csNumeric_mem c : cs_mem true csNumeric c = isNumeric c.
Proof. ascii_cases c. Qed.

Lemma parseDollar_match_inv b post st1 :
  Matches true (re_pattern re_parseDollar) (startState b post) st1 ->
  exists w tail,
    post = "$"%char :: w ++ tail /\ w <> [] /\
    Forall (fun c => isNumeric c = true) w /\
    cap_lookup 1 (ms_caps st1) = Some w.
Proof.
  intros H. cbn [re_pattern re_parseDollar RSeqs] in H.
  apply seq_peel in H as (sa & ua & _ & Ha & H).
  apply seq_peel in H as (sb & ub & _ & Hb & H).
  apply seq_peel in H as (sc & uc & _ & Hc & H).
  apply Matches_set_inv in Ha as (c & Hc0 & Hra & _ & Hca).
  assert (c = "$"%char) as ->.
  { revert Hc0. clear. ascii_cases c. }
  cbn [startState ms_rest ms_caps] in Hra, Hca.
  apply Matches_group_inv in Hb as (sa' & Hrun & ->).
  apply Matches_run_inv in Hrun as (w & Hw & Hl & Hcons & Hcaps).
  rewrite (captured_consumes _ _ _ Hcons) in *.
  apply Matches_run_inv in Hc as (w2 & _ & _ & _ & Hcc).
  cbn [set_cap ms_caps] in Hcc. rewrite Hcaps, Hca in Hcc.
  exists w, (ms_rest sa'). split; [|split; [|split]].
  - rewrite Hra. f_equal. apply Hcons.
  - intros ->. cbn in Hl. lia.
  - eapply Forall_impl; [exact Hw|]. intros x Hx. rewrite <- csNumeric_mem. exact Hx.
  - apply Matches_opt_inv in H as [->|H]; [now rewrite Hcc|].
    apply Matches_group_inv in H as (sd & Hwords & ->).
    apply Matches_caps in Hwords; [|reflexivity].
    cbn [set_cap ms_caps]. rewrite Hwords.
    cbn [groups_in clear_caps ms_caps app RWords magnitudeWords map RAlts].
    rewrite Hcc. reflexivity.
Qed.

Lemma stripCommas_numeric (w : jsstring) :
  Forall (fun c => isNumeric c = true) w ->
  match stripCommas w with [] => True | c :: _ => isDigit c || isDot c = true end.
Proof.
  induction 1 as [|c w Hc _ IH]; [exact I|].
  unfold stripCommas. cbn [List.filter]. destruct (isComma c) eqn:E; cbn [negb].
  - exact IH.
  - unfold isNumeric in Hc. now rewrite E, orb_false_r in Hc.
Qed.

Lemma parseDollar_value s v :
  parseDollar s = Some v ->
  exists m w,
    exec re_parseDollar s = Some m /\ m_group 1 m = Some w /\ w <> [] /\
    Forall (fun c => isNumeric c = true) w /\
    (v = parseFloat (stripCommas w) \/
     v = num_mul (parseFloat (stripCommas w)) num_1e6 \/
     v = num_mul (parseFloat (stripCommas w)) num_1e3).
Proof.
  unfold parseDollar. destruct (exec re_parseDollar s) as [m|] eqn:He; [|discriminate].
  pose proof He as He'.
  apply exec_inv in He' as (pre & w0 & _ & Hm & _ & _ & Hcaps).
  apply parseDollar_match_inv in Hm as (w & tail & _ & Hne & Hw & Hg).
  unfold m_group at 1. rewrite Hcaps, Hg. rewrite replace_comma. intros Hv.
  exists m, w. split; [reflexivity|]. split; [unfold m_group; now rewrite Hcaps|].
  split; [exact Hne|]. split; [exact Hw|].
  destruct (m_group 2 m) as [[|c g2]|]; try (left; congruence).
  destruct (_ || _); [right; left; congruence|].
  destruct (_ || _); [right; right; congruence|left; congruence].
Qed.

(** X9: [parseDollar] never returns a negative Number: it returns NaN,
    [+0], a positive Number or [+Infinity]. *)
Theorem parseDollar_sign (s : jsstring) (v : jsnum) :
  parseDollar s = Some v -> v = NaN \/ nonNegNumber v = true.
Proof.
  intros H. apply parseDollar_value in H as (m & w & _ & _ & _ & Hw & Hv).
  destruct (parseFloat_unsigned _ (stripCommas_numeric w Hw)) as [Hn|Hn].
  - left. rewrite Hn in Hv. now destruct Hv as [->|[->| ->]].
  - right. destruct Hv as [->|[->| ->]];
      [exact Hn|now apply num_mul_1e6_nonneg|now apply num_mul_1e3_nonneg].
Qed.

Lemma parseDollar_sign_witness :
  num_of_Z 1250500 = NaN \/ nonNegNumber (num_of_Z 1250500) = true.
Proof. apply (parseDollar_sign (str "in total $1,250.5 Thousand")). reflexivity. Defined.

Lemma parseDollar_match (pre : jsstring) c post :
  isNumeric c = true ->
  exists st1, Matches true (re_pattern re_parseDollar)
                (startState (rev pre) ("$"%char :: c :: post)) st1.
Proof.
  intros Hc. eexists. cbn [re_pattern re_parseDollar RSeqs].
  eapply M_Seq; [apply M_Set; reflexivity|].
  eapply M_Seq.
  - apply M_Group.
    apply (M_run true _ [c] 1 ("$"%char :: rev pre) post []).
    + constructor; [|constructor].
      change (cs_mem true csNumeric c = true). now rewrite csNumeric_mem.
    + cbn. lia.
  - eapply M_Seq; [apply M_QuantStop; now left|]. apply M_opt_skip.
Qed.

(** X10: [parseDollar] returns [null] exactly when no dollar sign of the
    text is directly followed by a digit, a comma or a dot. *)
Theorem parseDollar_null_iff (s : jsstring) :
  parseDollar s = None <->
  (forall pre c post, s = pre ++ "$"%char :: c :: post -> isNumeric c = false).
Proof.
  split.
  - intros Hnone pre c post ->. destruct (isNumeric c) eqn:Hc; [|reflexivity]. exfalso.
    destruct (parseDollar_match pre c post Hc) as [st1 Hm].
    pose proof (exec_complete re_parseDollar _ _ _ Hm) as He.
    unfold parseDollar in Hnone.
    destruct (exec re_parseDollar _) as [m|] eqn:Hex; [|contradiction].
    pose proof Hex as Hex'.
    apply exec_inv in Hex' as (pre' & w0 & _ & Hm' & _ & _ & Hcaps).
    apply parseDollar_match_inv in Hm' as (w & tail & _ & _ & _ & Hg).
    unfold m_group at 1 in Hnone. rewrite Hcaps, Hg in Hnone.
    destruct (m_group 2 m) as [[|x g2]|]; try discriminate.
    destruct (_ || _); [discriminate|]. destruct (_ || _); discriminate.
  - intros Hall. destruct (parseDollar s) as [v|] eqn:Hp; [|reflexivity]. exfalso.
    apply parseDollar_value in Hp as (m & w & He & _ & _ & _ & _).
    apply exec_inv in He as (pre & w0 & Hs & Hm & _).
    apply parseDollar_match_inv in Hm as (w' & tail & Hpost & Hne & Hw & _).
    destruct w' as [|c w']; [contradiction|].
    apply List.Forall_inv in Hw. cbv beta in Hw.
    rewrite (Hall pre c (w' ++ tail)) in Hw; [discriminate|].
    rewrite Hs, Hpost. reflexivity.
Qed.

(** ** Small integers are exact *)

Lemma digits2_pos_shift p k :
  digits2_pos (Pos.iter xO p k) = (digits2_pos p + k)%positive.
Proof.
  induction k as [|k IH] using Pos.peano_ind.
  - cbn. now rewrite Pos.add_1_r.
  - rewrite Pos.iter_succ. cbn [digits2_pos]. rewrite IH. now rewrite Pos.add_succ_r.
Qed.

Lemma shift_value p k : Zpos (Pos.iter xO p k) = (Zpos p * 2 ^ Zpos k)%Z.
Proof.
  induction k as [|k IH] using Pos.peano_ind.
  - cbn [Pos.iter]. rewrite Z.pow_1_r. lia.
  - rewrite Pos.iter_succ, Pos2Z.inj_xO, IH, Pos2Z.inj_succ, Z.pow_succ_r by lia. lia.
Qed.

Lemma num_of_Z_small (p : positive) :
  (Zpos (digits2_pos p) < 53)%Z ->
  exists k, Zpos k = (53 - Zpos (digits2_pos p))%Z /\
            num_of_Z (Zpos p) = S754_finite false (Pos.iter xO p k) (Zneg k).
Proof.
  intros Hd. set (d := digits2_pos p) in *.
  destruct (53 - Zpos d)%Z as [|k|k] eqn:Hk; try lia.
  exists k. split; [reflexivity|].
  unfold num_of_Z, binary_normalize, binary_round, shl_align.
  assert (Hfexp : fexp prec emax (Zpos (digits2_pos p) + 0) = Zneg k).
  { unfold fexp, SpecFloat.emin, prec, emax. fold d. lia. }
  rewrite Hfexp, Z.sub_0_r. cbv beta iota.
  unfold binary_round_aux, shr_fexp.
  cbn [Zdigits2]. rewrite digits2_pos_shift. fold d.
  assert (Hfexp2 : (fexp prec emax (Zpos (d + k) + Zneg k) - Zneg k = 0)%Z).
  { unfold fexp, SpecFloat.emin, prec, emax. lia. }
  rewrite Hfexp2. cbn [shr shr_record_of_loc shr_m loc_of_shr_record round_nearest_even].
  cbn [Zdigits2]. rewrite digits2_pos_shift. fold d. rewrite Hfexp2.
  cbn [shr shr_record_of_loc shr_m].
  assert (Hle : (Zneg k <=? emax - prec)%Z = true) by (apply Z.leb_le; unfold emax, prec; lia).
  now rewrite Hle.
Qed.

Lemma num_of_N_exact (n : N) :
  (n < 2 ^ 52)%N ->
  finiteNonNeg (num_of_Z (Z.of_N n)) = true /\
  exists q, num_toQ (num_of_Z (Z.of_N n)) = Some q /\ (q == inject_Z (Z.of_N n))%Q.
Proof.
  intros Hn. destruct n as [|p].
  - split; [reflexivity|]. exists (Qmake 0 1). split; reflexivity.
  - cbn [Z.of_N].
    assert (Hd : (Zpos (digits2_pos p) < 53)%Z).
    { assert (Hlog : (Zpos p < 2 ^ 52)%Z) by (change (2 ^ 52)%Z with (Z.of_N (2 ^ 52)); lia).
      clear Hn. destruct (Z_lt_le_dec (Zpos (digits2_pos p)) 53) as [H|H]; [exact H|].
      exfalso.
      assert (Hpow : forall q, (2 ^ (Zpos (digits2_pos q) - 1) <= Zpos q)%Z).
      { induction q as [q IH|q IH|]; cbn [digits2_pos].
        - rewrite Pos2Z.inj_succ. replace (Z.succ (Zpos (digits2_pos q)) - 1)%Z
            with (Z.succ (Zpos (digits2_pos q) - 1))%Z by lia.
          rewrite Z.pow_succ_r by lia. lia.
        - rewrite Pos2Z.inj_succ. replace (Z.succ (Zpos (digits2_pos q)) - 1)%Z
            with (Z.succ (Zpos (digits2_pos q) - 1))%Z by lia.
          rewrite Z.pow_succ_r by lia. lia.
        - cbn. lia. }
      specialize (Hpow p).
      assert (2 ^ 52 <= 2 ^ (Zpos (digits2_pos p) - 1))%Z by (apply Z.pow_le_mono_r; lia).
      lia. }
    destruct (num_of_Z_small p Hd) as (k & Hk & ->). split; [reflexivity|].
    cbn [num_toQ]. eexists. split; [reflexivity|].
    unfold Qeq, inject_Z. cbn [Qnum Qden]. rewrite Pos2Z.inj_pow, shift_value. lia.
Qed.

(** ** What the extractor pushes *)

Lemma exec_from_records re text st m :
  text = rev (ms_before st) ++ ms_rest st ->
  exec_from re st = Some m ->
  text = rev (ms_before (resume m)) ++ ms_rest (resume m) /\
  forall f, f_raw f = m_0 m -> f_key f = makeContextKey text (m_index m) ->
            recordsMatch re text f (m_end m).
Proof.
  intros Hinv He. apply exec_from_inv in He as (pre & w & Hr & Hm & H0 & Hi & _ & Hb).
  assert (Htext : text = (rev (ms_before st) ++ pre) ++ w ++ ms_rest (m_end m)).
  { rewrite Hinv, Hr. now rewrite <- app_assoc. }
  split.
  - cbn [resume ms_before ms_rest]. rewrite Hb, !rev_app_distr, !rev_involutive.
    rewrite Htext. now rewrite <- !app_assoc.
  - intros f Hraw Hkey. exists (rev (ms_before st) ++ pre).
    rewrite Hraw, H0. split; [exact Htext|]. split.
    + rewrite Hkey, Hi. f_equal. rewrite length_app, length_rev. reflexivity.
    + now rewrite rev_app_distr, rev_involutive.
Qed.

Lemma dollarLoop_pushes filePath text fuel : forall st facts,
  text = rev (ms_before st) ++ ms_rest st ->
  exists new, dollarLoop fuel filePath text st facts = facts ++ new /\
              Forall (dollarFact filePath text) new.
Proof.
  induction fuel as [|fuel IH]; intros st facts Hinv; cbn [dollarLoop].
  { exists []. now rewrite app_nil_r. }
  destruct (exec_from dollarRe st) as [m|] eqn:He.
  2:{ exists []. now rewrite app_nil_r. }
  destruct (exec_from_records _ _ _ _ Hinv He) as [Hinv' Hrec].
  destruct (parseDollar (m_0 m)) as [value|] eqn:Hp; [|now apply IH].
  cbv zeta.
  destruct (length _ <? 12) eqn:Hlen; [now apply IH|].
  destruct (num_lt value num_10 && test re_codeLike _); [now apply IH|].
  destruct (IH (resume m)
              (facts ++ [mkFact dollar (makeContextKey text (m_index m)) value None
                                (m_0 m) filePath]) Hinv') as (new & -> & Hnew).
  eexists (_ :: new). rewrite <- app_assoc. split; [reflexivity|].
  constructor; [|exact Hnew].
  unfold dollarFact. cbn [f_type f_file f_unit f_key f_raw f_value].
  apply Nat.ltb_ge in Hlen. repeat split; try assumption.
  exists (m_end m). now apply Hrec.
Qed.

Lemma countLoop_pushes filePath text fuel : forall st facts,
  text = rev (ms_before st) ++ ms_rest st ->
  exists new, countLoop fuel filePath text st facts = facts ++ new /\
              Forall (countFact filePath text) new.
Proof.
  induction fuel as [|fuel IH]; intros st facts Hinv; cbn [countLoop].
  { exists []. now rewrite app_nil_r. }
  destruct (exec_from countRe st) as [m|] eqn:He.
  2:{ exists []. now rewrite app_nil_r. }
  destruct (exec_from_records _ _ _ _ Hinv He) as [Hinv' Hrec].
  apply exec_from_inv in He as (_ & _ & _ & _ & _ & _ & Hcaps & _).
  cbv zeta.
  destruct (length _ <? 5) eqn:Hlen; [now apply IH|].
  match goal with |- context [countLoop fuel filePath text (resume m) (facts ++ [?f])] =>
    destruct (IH (resume m) (facts ++ [f]) Hinv') as (new & -> & Hnew);
    exists (f :: new) end.
  rewrite <- app_assoc. split; [reflexivity|].
  constructor; [|exact Hnew].
  unfold countFact. cbn [f_type f_file f_unit f_key f_raw f_value].
  apply Nat.ltb_ge in Hlen. repeat split; try assumption.
  exists (m_end m). split; [now apply Hrec|].
  unfold groupOr, m_group, capOr. rewrite Hcaps. now split.
Qed.

Lemma extractFacts_split filePath file :
  exists ds cs,
    extractFacts filePath file = ds ++ cs /\
    Forall (dollarFact filePath (textOf file)) ds /\
    Forall (countFact filePath (textOf file)) cs.
Proof.
  unfold extractFacts. destruct file as [buf|]; [|now exists [], []].
  destruct (_ <? _)%N; [now exists [], []|]. cbn [textOf].
  destruct (buf_toString buf) as [|c text] eqn:Htext; [now exists [], []|].
  destruct (test re_nul (c :: text)); [now exists [], []|].
  destruct (dollarLoop_pushes filePath (c :: text) (S (length (c :: text)))
              (MState [] (c :: text) []) []) as (ds & Hds & Hd); [reflexivity|].
  rewrite Hds. cbn [app].
  destruct (countLoop_pushes filePath (c :: text) (S (length (c :: text)))
              (MState [] (c :: text) []) ds) as (cs & Hcs & Hc); [reflexivity|].
  exists ds, cs. split; [exact Hcs|]. split; [exact Hd|exact Hc].
Qed.

Lemma extractFacts_elem filePath file f :
  f ∈ extractFacts filePath file ->
  dollarFact filePath (textOf file) f \/ countFact filePath (textOf file) f.
Proof.
  destruct (extractFacts_split filePath file) as (ds & cs & -> & Hd & Hc).
  rewrite Forall_forall in Hd, Hc. intros H. apply elem_of_app in H as [H|H]; auto.
Qed.

(** X11: a fact of a document names that document; its raw text stands in
    the document at the offset its key was taken at; a monetary fact has no
    unit and a key of at least 12 code units, a unit count has a unit and
    a key of at least 5. *)
Theorem extractFacts_wellformed (filePath : jsstring) (buf : Buffer) (f : Fact) :
  f ∈ extractFacts filePath (ReadOk buf) ->
  f_file f = filePath /\
  (exists pre post,
     buf_toString buf = pre ++ f_raw f ++ post /\
     f_key f = makeContextKey (buf_toString buf) (length pre)) /\
  match f_type f with
  | dollar => f_unit f = None /\ 12 <= length (f_key f)
  | count => f_unit f <> None /\ 5 <= length (f_key f)
  end.
Proof.
  intros H. apply extractFacts_elem in H. cbn [textOf] in H.
  destruct H as [(Hty & Hfile & Hunit & Hlen & _ & st1 & pre & Htext & Hkey & _)
                |(Hty & Hfile & Hlen & st1 & (pre & Htext & Hkey & _) & _ & Hunit)].
  - split; [exact Hfile|]. split; [eauto|]. rewrite Hty. now split.
  - split; [exact Hfile|]. split; [eauto|]. rewrite Hty. split; [|exact Hlen].
    now rewrite Hunit.
Qed.

Lemma extractFacts_wellformed_witness :
  f_file factFee = str "fees.md" /\
  (exists pre post,
     str "The adoption fee is only $5 for each of the puppies." = pre ++ f_raw factFee ++ post /\
     f_key factFee
     = makeContextKey (str "The adoption fee is only $5 for each of the puppies.")
         (length pre)) /\
  f_unit factFee = None /\ 12 <= length (f_key factFee).
Proof.
  apply (extractFacts_wellformed (str "fees.md")
           (mkBuffer 52 (str "The adoption fee is only $5 for each of the puppies."))
           factFee).
  vm_compute. left.
Defined.

(** X12: the facts of a document are its monetary facts followed by its
    unit counts. *)
Theorem extractFacts_dollar_then_count (filePath : jsstring) (file : ReadResult) :
  exists ds cs,
    extractFacts filePath file = ds ++ cs /\
    Forall (fun f => f_type f = dollar) ds /\
    Forall (fun f => f_type f = count) cs.
Proof.
  destruct (extractFacts_split filePath file) as (ds & cs & Heq & Hd & Hc).
  exists ds, cs. split; [exact Heq|]. split.
  - eapply Forall_impl; [exact Hd|]. now intros f (Hty & _).
  - eapply Forall_impl; [exact Hc|]. now intros f (Hty & _).
Qed.

(** ** Unit counts *)

Lemma Matches_bounded_run_inv ic cs st st' : forall min max,
  Matches ic (RQuant min (Some max) (RSet cs)) st st' -> min <= max ->
  exists w, Forall (fun c => cs_mem ic cs c = true) w /\
            min <= length w <= max /\
            consumes st st' w /\ ms_caps st' = ms_caps st.
Proof.
  intros min max H. remember (RQuant min (Some max) (RSet cs)) as r eqn:Hr.
  revert min max Hr.
  induction H as [| | | | |min0 max0 r0 st Hstop
                 |min0 max0 r0 st st1 st2 Hmax Hbody _ Hprog Hrest IH| | | |];
    intros min max Hr Hle; try discriminate.
  - inversion Hr; subst. exists []. split; [constructor|].
    split; [destruct Hstop as [->|[= ->]]; cbn; lia|].
    split; [apply consumes_refl|reflexivity].
  - inversion Hr; subst. cbn [groups_in clear_caps option_map] in *.
    destruct max as [|max]; [congruence|].
    destruct (IH (pred min) max eq_refl ltac:(lia)) as (w & Hw & Hlen & Hcons & Hcaps).
    apply Matches_set_inv in Hbody as (c & Hc & Hr1 & Hb1 & Hc1).
    exists (c :: w). split; [now constructor|]. split; [cbn; lia|].
    destruct Hcons as [Hc2 Hc3]. split; [split|].
    + rewrite Hr1, Hc2. reflexivity.
    + rewrite Hc3, Hb1. cbn [rev]. now rewrite <- app_assoc.
    + now rewrite Hcaps.
Qed.

Lemma digit_mem_ic c : cs_mem true CsDigit c = isDigit c.
Proof. ascii_cases c. Qed.

Lemma Matches_startsWithin ic p r st st' :
  Matches ic r st st' -> startsWithin ic p r = true ->
  exists c rest, ms_rest st = c :: rest /\ p c = true /\
                 length (ms_rest st') <= length rest.
Proof.
  induction 1 as [st|cs c before rest caps Hc|r1 r2 st st1 st2 _ IH1 H2 _
                 |r1 r2 st st' _ IH|r1 r2 st st' _ IH|min max r st Hstop
                 |min max r st st1 st2 Hmax _ IH1 _ H2 _
                 |n r st st1 _ IH|st _|st _|st _];
    cbn [startsWithin]; intros Hs; try discriminate.
  - rewrite forallb_forall in Hs. specialize (Hs c (allAscii_all c)).
    rewrite Hc in Hs. exists c, rest. now repeat split.
  - destruct (IH1 Hs) as (c & rest & Hr & Hp & Hl). apply Matches_rest_le in H2.
    exists c, rest. repeat split; [exact Hr|exact Hp|lia].
  - apply andb_true_iff in Hs as [Hs _]. auto.
  - apply andb_true_iff in Hs as [_ Hs]. auto.
  - destruct Hstop as [->| ->]; [discriminate|]. now destruct min.
  - rewrite clear_caps_rest in IH1. apply Matches_rest_le in H2.
    destruct IH1 as (c & rest & Hr & Hp & Hl).
    { destruct min as [|min]; [discriminate|]. now destruct max as [[|max]|]. }
    exists c, rest. repeat split; [exact Hr|exact Hp|lia].
  - auto.
Qed.

Lemma countRe_inv b raw st1 :
  Matches true (re_pattern countRe) (startState b (raw ++ ms_rest st1)) st1 ->
  exists ds tail,
    raw = ds ++ tail /\ Forall (fun c => isDigit c = true) ds /\
    1 <= length ds <= 4 /\ headIsDigit tail = false /\ capOr 1 st1 = ds.
Proof.
  intros H. cbn [re_pattern countRe RSeqs] in H.
  apply seq_peel in H as (sa & ua & _ & Ha & H).
  inversion Ha; subst.
  apply seq_peel in H as (sb & ub & _ & Hb & H).
  pose proof (Matches_consumes _ _ _ _ H) as (u & Hu & _).
  apply seq_peel in H as (sc & uc & _ & Hc & H).
  apply seq_peel in H as (sd & ud & _ & Hd & H).
  inversion H; subst.
  destruct (Matches_startsWithin _ (fun c => negb (isDigit c)) _ _ _ Hd eq_refl)
    as (x & rest' & Hx & Hxd & Hle).
  apply Matches_group_inv in Hb as (sa' & Hrun & ->).
  apply Matches_bounded_run_inv in Hrun as (ds & Hds & Hlen & Hcons & Hcaps); [|lia].
  rewrite (captured_consumes _ _ _ Hcons) in *.
  apply Matches_run_inv in Hc as (w2 & Hw2 & _ & [Hw2r _] & Hcc).
  apply Matches_group_inv in Hd as (sd' & Halts & ->).
  apply Matches_caps in Halts; [|reflexivity].
  exists ds, u. split; [|split; [|split; [|split]]].
  - destruct Hcons as [Hr _]. cbn [startState ms_rest set_cap] in Hr, Hu.
    rewrite Hu in Hr. rewrite app_assoc in Hr. now apply app_inv_tail in Hr.
  - eapply Forall_impl; [exact Hds|]. intros c Hc. rewrite <- (digit_mem_ic c). exact Hc.
  - exact Hlen.
  - cbn [set_cap ms_rest] in Hu, Hw2r, Hle. rewrite Hw2r, Hx in Hu.
    destruct u as [|y u].
    + exfalso. cbn [app] in Hu. apply (f_equal (@length ascii)) in Hu.
      rewrite length_app in Hu. cbn [length] in Hu. lia.
    + cbn [headIsDigit]. destruct w2 as [|s w2].
      * cbn [app] in Hu. injection Hu as Hxy _. subst y. now apply negb_true_iff.
      * cbn [app] in Hu. injection Hu as Hsy _. subst y.
        inversion Hw2 as [|? ? Hs _]; subst.
        destruct (isDigit s) eqn:Hy; [|reflexivity].
        revert Hs Hy. clear. ascii_cases s.
  - unfold capOr. cbn [set_cap ms_caps cap_lookup Nat.eqb].
    rewrite Halts, Hcc. cbn [set_cap ms_caps cap_lookup Nat.eqb]. reflexivity.
Qed.

Lemma digitsValue_bound (ds : list ascii) : forall acc,
  Forall (fun c => isDigit c = true) ds ->
  (fold_left (fun acc c => acc * 10 + (code c - 48)) ds acc + 1
   <= (acc + 1) * 10 ^ N.of_nat (length ds))%N.
Proof.
  induction ds as [|c ds IH]; intros acc Hd.
  - cbn. lia.
  - inversion Hd as [|? ? Hc Hds]; subst. cbn [fold_left length].
    specialize (IH (acc * 10 + (code c - 48))%N Hds).
    rewrite Nat2N.inj_succ, N.pow_succ_r'.
    assert (code c - 48 <= 9)%N.
    { unfold isDigit in Hc. apply andb_true_iff in Hc as [H1 H2].
      apply N.leb_le in H1, H2. lia. }
    nia.
Qed.

Lemma parseInt10_value ds :
  Forall (fun c => isDigit c = true) ds -> ds <> [] ->
  parseInt10 ds = num_of_Z (Z.of_N (digitsValue ds)).
Proof.
  intros Hd Hne. rewrite parseInt10_digits by assumption.
  unfold num_of_dec. destruct (digitsValue ds) as [|p]; [reflexivity|].
  cbn [Z.leb Z.compare Z.of_N]. now rewrite Z.pow_0_r, Z.mul_1_r.
Qed.

Lemma takeWhile_digits (ds tail : jsstring) :
  Forall (fun c => isDigit c = true) ds -> headIsDigit tail = false ->
  takeWhile isDigit (ds ++ tail) = ds.
Proof.
  intros Hd Ht. apply takeWhile_app_stop; [exact Hd|]. now destruct tail.
Qed.

(** X13: the raw text of a unit count starts with one to four digits
    followed by a code unit that is not a digit, and the value of the fact
    is exactly the integer those leading digits write: a finite Number
    below 10000. *)
Theorem count_fact_value (filePath : jsstring) (file : ReadResult) (f : Fact) :
  f ∈ extractFacts filePath file -> f_type f = count ->
  exists ds tail,
    f_raw f = ds ++ tail /\ Forall (fun c => isDigit c = true) ds /\
    1 <= length ds <= 4 /\
    headIsDigit tail = false /\ ds = takeWhile isDigit (f_raw f) /\
    (digitsValue ds < 10000)%N /\
    f_value f = num_of_Z (Z.of_N (digitsValue ds)) /\
    finiteNonNeg (f_value f) = true /\
    exists q, num_toQ (f_value f) = Some q /\ (q == inject_Z (Z.of_N (digitsValue ds)))%Q.
Proof.
  intros Hin Hty. apply extractFacts_elem in Hin as [(Hd & _)|Hc]; [congruence|].
  destruct Hc as (_ & _ & _ & st1 & (pre & _ & _ & Hm) & Hval & _).
  apply countRe_inv in Hm as (ds & tail & Hraw & Hds & Hlen & Htail & Hcap).
  assert (Hne : ds <> []) by (intros ->; cbn in Hlen; lia).
  rewrite Hcap, (parseInt10_value ds Hds Hne) in Hval.
  assert (Hb : (digitsValue ds < 10000)%N).
  { pose proof (digitsValue_bound ds 0%N Hds) as Hb. unfold digitsValue.
    assert (10 ^ N.of_nat (length ds) <= 10 ^ 4)%N by (apply N.pow_le_mono_r; lia).
    change (10 ^ 4)%N with 10000%N in *. lia. }
  exists ds, tail. split; [exact Hraw|]. split; [exact Hds|]. split; [exact Hlen|].
  split; [exact Htail|]. split; [rewrite Hraw; symmetry; now apply takeWhile_digits|].
  split; [exact Hb|]. split; [exact Hval|].
  assert (Hsmall : (digitsValue ds < 2 ^ 52)%N).
  { change (2 ^ 52)%N with 4503599627370496%N. lia. }
  destruct (num_of_N_exact (digitsValue ds) Hsmall) as (Hfin & q & Hq & Hqe).
  rewrite <- Hval in Hfin, Hq. split; [exact Hfin|]. now exists q.
Qed.

Lemma count_fact_value_witness :
  exists ds tail,
    f_raw factDogs = ds ++ tail /\ Forall (fun c => isDigit c = true) ds /\
    1 <= length ds <= 4 /\
    headIsDigit tail = false /\ ds = takeWhile isDigit (f_raw factDogs) /\
    (digitsValue ds < 10000)%N /\
    f_value factDogs = num_of_Z (Z.of_N (digitsValue ds)) /\
    finiteNonNeg (f_value factDogs) = true /\
    exists q, num_toQ (f_value factDogs) = Some q /\
              (q == inject_Z (Z.of_N (digitsValue ds)))%Q.
Proof.
  apply (count_fact_value (str "a.md") docDogs factDogs); [vm_compute; left|reflexivity].
Defined.

(** ** Monetary amounts *)

Lemma cap_lookup_clear n gs caps :
  existsb (Nat.eqb n) gs = false ->
  cap_lookup n (List.filter (fun p => negb (existsb (Nat.eqb (fst p)) gs)) caps)
  = cap_lookup n caps.
Proof.
  intros Hn. induction caps as [|[m s] caps IH]; [reflexivity|].
  cbn [List.filter fst cap_lookup].
  destruct (m =? n) eqn:E.
  - apply Nat.eqb_eq in E. subst m. rewrite Hn. cbn [negb cap_lookup].
    now rewrite Nat.eqb_refl.
  - destruct (negb _); [cbn [cap_lookup]; now rewrite E|exact IH].
Qed.

Lemma magnitude_group_caps st x w :
  Matches true (RSeq (RStar cSpace) (ROpt (RGroup 2 (RWords magnitudeWords)))) st x ->
  cap_lookup 1 (ms_caps st) = Some w -> cap_lookup 1 (ms_caps x) = Some w.
Proof.
  intros H Hw. apply seq_peel in H as (sa & ua & _ & Ha & H).
  apply Matches_run_inv in Ha as (w2 & _ & _ & _ & Hca).
  apply Matches_opt_inv in H as [->|H]; [now rewrite Hca|].
  apply Matches_group_inv in H as (sd & Hwords & ->).
  apply Matches_caps in Hwords; [|reflexivity].
  cbn [set_cap ms_caps cap_lookup Nat.eqb]. rewrite Hwords.
  cbn [groups_in clear_caps ms_caps app RWords magnitudeWords map RAlts].
  rewrite cap_lookup_clear by reflexivity. now rewrite Hca.
Qed.

Lemma match_here_parseDollar_run (run tail : jsstring) :
  Forall (fun c => cs_mem true csNumeric c = true) run -> 1 <= length run ->
  headOutside true csNumeric tail ->
  exists x, match_here re_parseDollar [] ("$"%char :: run ++ tail) = Some x /\
            cap_lookup 1 (ms_caps x) = Some run.
Proof.
  intros Hrun Hlen Hout.
  set (st := MState (rev run ++ ["$"%char]) tail [(1, run)]).
  destruct (rmatch true (RSeq (RStar cSpace) (ROpt (RGroup 2 (RWords magnitudeWords))))
              st Some) as [x|] eqn:Hk.
  2:{ exfalso. revert Hk. apply (rmatch_complete true _ st st Some); [|discriminate].
      eapply M_Seq; [apply M_QuantStop; now left|apply M_opt_skip]. }
  exists x. split.
  - unfold match_here, re_parseDollar.
    cbn [re_pattern re_ignoreCase RSeqs rmatch ms_rest ms_before ms_caps].
    change (cs_mem true (CsChar "$") "$") with true. cbv iota.
    change (RPlus (RSet (CsUnion CsDigit (CsUnion (CsChar ",") (CsChar ".")))))
      with (RQuant 1 None (RSet csNumeric)).
    apply quant_set_run; [exact Hrun|exact Hout|exact Hlen|].
    unfold captured, set_cap. cbn [ms_rest ms_before ms_caps].
    rewrite firstn_app_exact. exact Hk.
  - destruct (rmatch_sound true _ st Some x Hk) as (st' & Hm & [= ->]).
    now apply (magnitude_group_caps st).
Qed.

Lemma parseDollar_run (run tail : jsstring) v :
  Forall (fun c => cs_mem true csNumeric c = true) run -> 1 <= length run ->
  headOutside true csNumeric tail ->
  parseDollar ("$"%char :: run ++ tail) = Some v ->
  v = parseFloat (stripCommas run) \/
  v = num_mul (parseFloat (stripCommas run)) num_1e6 \/
  v = num_mul (parseFloat (stripCommas run)) num_1e3.
Proof.
  intros Hrun Hlen Hout.
  destruct (match_here_parseDollar_run run tail Hrun Hlen Hout) as (x & Hx & Hcap).
  unfold parseDollar, exec, exec_from. cbn [ms_before ms_rest scan]. rewrite Hx.
  cbn [option_map]. unfold m_group at 1. cbn [mkResult m_caps snd]. rewrite Hcap.
  rewrite replace_comma. intros Hv.
  destruct (m_group 2 _) as [[|c g2]|]; try (left; congruence).
  destruct (_ || _); [right; left; congruence|].
  destruct (_ || _); [right; right; congruence|left; congruence].
Qed.

Lemma magnitudeTail_inv st st' :
  Matches false magnitudeTail st st' ->
  exists tail, consumes st st' tail /\ headOutside true csNumeric tail /\
               existsb isDigit tail = false.
Proof.
  intros H. apply Matches_opt_inv in H as [->|H].
  { exists []. split; [apply consumes_refl|]. now split. }
  change (clear_caps _ st) with st in H.
  apply seq_peel in H as (sa & ua & _ & Ha & H).
  apply Matches_run_inv in Ha as (sp & Hsp & _ & Hc1 & _).
  apply Matches_words_inv in H as (w & Hw & Hc2); [|discriminate].
  exists (sp ++ str w). split; [now apply (consumes_trans _ sa)|].
  assert (Hword : headOutside true csNumeric (str w) /\ existsb isDigit (str w) = false).
  { unfold magnitudeWords in Hw.
    repeat (apply elem_of_cons in Hw as [->|Hw]; [now split|]). now apply elem_of_nil in Hw. }
  destruct Hword as [Hw1 Hw2]. split.
  - destruct sp as [|c sp]; [exact Hw1|]. cbn [app headOutside].
    inversion Hsp as [|? ? Hc _]; subst. revert Hc. clear. ascii_cases c.
  - rewrite existsb_app, Hw2, orb_false_r.
    clear -Hsp. induction Hsp as [|c sp Hc _ IH]; [reflexivity|].
    cbn [existsb]. rewrite IH, orb_false_r. revert Hc. clear. ascii_cases c.
Qed.

Lemma fraction_inv st st' :
  Matches false (ROpt (RSeq (RChar ".") (RPlus cDigit))) st st' ->
  exists fs, consumes st st' (fractionText fs) /\ Forall (fun c => isDigit c = true) fs.
Proof.
  intros H. apply Matches_opt_inv in H as [->|H].
  { exists []. split; [apply consumes_refl|constructor]. }
  change (clear_caps _ st) with st in H.
  apply seq_peel in H as (sa & ua & _ & Ha & H).
  apply Matches_set_inv in Ha as (c & Hc & Hr & Hb & _).
  apply cs_mem_char_inv in Hc. subst c.
  apply Matches_run_inv in H as (fs & Hfs & Hl & Hcons & _).
  exists fs. split.
  - destruct fs as [|d fs]; [cbn in Hl; lia|]. cbn [fractionText].
    apply (consumes_trans st sa st' ["."%char] (d :: fs)); [now split|exact Hcons].
  - eapply Forall_impl; [exact Hfs|]. intros c. apply cs_mem_digit_inv.
Qed.

Lemma dollarRe_inv b raw st1 :
  Matches false (re_pattern dollarRe) (startState b (raw ++ ms_rest st1)) st1 ->
  exists ip fs tail,
    raw = "$"%char :: (ip ++ fractionText fs) ++ tail /\ ip <> [] /\
    Forall (fun c => isDigit c || isComma c = true) ip /\
    Forall (fun c => isDigit c = true) fs /\
    headOutside true csNumeric tail /\ existsb isDigit tail = false.
Proof.
  intros H. cbn [re_pattern dollarRe RSeqs] in H.
  apply seq_peel in H as (sa & ua & _ & Ha & H).
  apply seq_peel in H as (sb & ub & _ & Hb & H).
  apply seq_peel in H as (sc & uc & _ & Hc & H).
  apply Matches_set_inv in Ha as (c & Hc0 & Hra & _).
  apply cs_mem_char_inv in Hc0. subst c. cbn [startState ms_rest] in Hra.
  apply Matches_run_inv in Hb as (ip & Hip & Hl & [Hrb _] & _).
  apply fraction_inv in Hc as (fs & [Hrc _] & Hfs).
  apply magnitudeTail_inv in H as (tail & [Hrd _] & Hout & Hnd).
  exists ip, fs, tail. split; [|split; [|split; [|split; [|split]]]]; try assumption.
  - rewrite Hrb, Hrc, Hrd in Hra.
    replace ("$"%char :: ip ++ fractionText fs ++ tail ++ ms_rest st1)
      with (("$"%char :: (ip ++ fractionText fs) ++ tail) ++ ms_rest st1) in Hra
      by (cbn [app]; now rewrite <- !app_assoc).
    now apply app_inv_tail in Hra.
  - intros ->. cbn in Hl. lia.
  - eapply Forall_impl; [exact Hip|]. intros c. unfold cs_mem, isComma. cbn [cs_has andb].
    rewrite orb_false_r. change (code ",") with 44%N. now rewrite (N.eqb_sym 44).
Qed.

Lemma stripCommas_only (ip : jsstring) :
  Forall (fun c => isDigit c || isComma c = true) ip ->
  Forall (fun c => isDigit c = true) (stripCommas ip) /\
  existsb isDigit (stripCommas ip) = existsb isDigit ip.
Proof.
  induction 1 as [|c ip Hc _ [IH1 IH2]]; [now split|].
  unfold stripCommas in *. cbn [List.filter existsb].
  destruct (isComma c) eqn:E; cbn [negb].
  - split; [exact IH1|]. rewrite IH2.
    assert (isDigit c = false) as -> by (revert E; clear; unfold isComma; ascii_cases c).
    reflexivity.
  - rewrite orb_false_r in Hc. split; [now constructor|].
    cbn [existsb]. now rewrite IH2.
Qed.

Lemma existsb_digits (ds : jsstring) :
  Forall (fun c => isDigit c = true) ds -> existsb isDigit ds = negb (bool_decide (ds = [])).
Proof. intros H. destruct H as [|c ds Hc _]; [reflexivity|]. cbn. now rewrite Hc. Qed.

Lemma numeric_run (ip fs : jsstring) :
  Forall (fun c => isDigit c || isComma c = true) ip ->
  Forall (fun c => isDigit c = true) fs ->
  Forall (fun c => cs_mem true csNumeric c = true) (ip ++ fractionText fs).
Proof.
  intros Hip Hfs. apply Forall_app. split.
  - eapply Forall_impl; [exact Hip|]. intros c Hc. rewrite csNumeric_mem.
    unfold isNumeric. now rewrite Hc.
  - destruct fs as [|d fs]; [constructor|]. cbn [fractionText]. constructor; [reflexivity|].
    eapply Forall_impl; [exact Hfs|]. intros c Hc. rewrite csNumeric_mem.
    unfold isNumeric. now rewrite Hc.
Qed.

Lemma dollar_value_cases (raw : jsstring) v b st1 :
  Matches false (re_pattern dollarRe) (startState b (raw ++ ms_rest st1)) st1 ->
  parseDollar raw = Some v ->
  (exists tail, raw = "$"%char :: tail) /\
  if existsb isDigit raw then nonNegNumber v = true else v = NaN.
Proof.
  intros Hm Hp.
  apply dollarRe_inv in Hm as (ip & fs & tail & -> & Hne & Hip & Hfs & Hout & Hnd).
  split; [eauto|].
  pose proof (numeric_run ip fs Hip Hfs) as Hrun.
  apply parseDollar_run in Hp; [|exact Hrun| |exact Hout].
  2:{ rewrite length_app. destruct ip; [contradiction|cbn; lia]. }
  rewrite stripCommas_app, stripCommas_fraction in Hp by exact Hfs.
  destruct (stripCommas_only ip Hip) as [Hds Hex].
  cbn [existsb]. change (isDigit "$") with false. cbn [orb].
  rewrite !existsb_app, Hnd, orb_false_r, <- Hex.
  destruct (existsb isDigit (stripCommas ip) || existsb isDigit (fractionText fs)) eqn:Hd.
  - assert (Hled : digitLed (stripCommas ip ++ fractionText fs) = true).
    { destruct (stripCommas ip) as [|d ds].
      - cbn [existsb orb app] in *. destruct fs as [|d fs]; [discriminate|].
        cbn [fractionText digitLed]. inversion Hfs as [|? ? Hd1 _]; subst.
        now rewrite Hd1.
      - inversion Hds as [|? ? Hd1 _]; subst. cbn [app digitLed]. now rewrite Hd1. }
    apply parseFloat_digitLed in Hled.
    destruct Hp as [->|[->| ->]];
      [exact Hled|now apply num_mul_1e6_nonneg|now apply num_mul_1e3_nonneg].
  - apply orb_false_iff in Hd as [Hd1 Hd2].
    rewrite (existsb_digits _ Hds) in Hd1. apply negb_false_iff, bool_decide_eq_true in Hd1.
    assert (fs = []) as ->.
    { destruct fs as [|d fs]; [reflexivity|]. cbn [fractionText existsb] in Hd2.
      inversion Hfs as [|? ? Hd3 _]; subst. rewrite Hd3, orb_true_r in Hd2. discriminate. }
    rewrite Hd1 in Hp. cbn [fractionText app] in Hp.
    change (parseFloat []) with NaN in Hp. now destruct Hp as [->|[->| ->]].
Qed.

(** X14: the raw text of a monetary fact starts with a dollar sign and its
    value is what [parseDollar] returns for the raw text: NaN when the
    raw text holds no digit, and otherwise a Number that is not negative. *)
Theorem dollar_fact_value (filePath : jsstring) (file : ReadResult) (f : Fact) :
  f ∈ extractFacts filePath file -> f_type f = dollar ->
  (exists tail, f_raw f = "$"%char :: tail) /\
  parseDollar (f_raw f) = Some (f_value f) /\
  if existsb isDigit (f_raw f) then nonNegNumber (f_value f) = true else f_value f = NaN.
Proof.
  intros Hin Hty. apply extractFacts_elem in Hin as [Hd|(Hc & _)]; [|congruence].
  destruct Hd as (_ & _ & _ & _ & Hp & st1 & pre & _ & _ & Hm).
  destruct (dollar_value_cases _ _ _ _ Hm Hp) as [H1 H2]. auto.
Qed.

Lemma dollar_fact_value_witness :
  (exists tail, f_raw factFee = "$"%char :: tail) /\
  parseDollar (f_raw factFee) = Some (f_value factFee) /\
  if existsb isDigit (f_raw factFee)
  then nonNegNumber (f_value factFee) = true else f_value factFee = NaN.
Proof.
  apply (dollar_fact_value (str "fees.md")
           (doc "The adoption fee is only $5 for each of the puppies.") factFee);
    [vm_compute; left|reflexivity].
Defined.

(** ** Lookups in an insertion-ordered map *)

Section MapLookup.
Context {K X : Type} (eqb : K -> K -> bool).
Hypothesis eqb_refl : forall a, eqb a a = true.
Hypothesis eqb_sym : forall a b, eqb a b = eqb b a.
Hypothesis eqb_trans : forall a b c, eqb a b = true -> eqb b c = true -> eqb a c = true.

Lemma eqb_congr a b c : eqb b c = true -> eqb a b = eqb a c.
Proof.
  intros Hbc. destruct (eqb a b) eqn:Eab, (eqb a c) eqn:Eac; try reflexivity.
  - rewrite <- Eac. symmetry. now apply (eqb_trans a b c).
  - rewrite <- Eab. apply (eqb_trans a c b); [exact Eac|now rewrite eqb_sym].
Qed.

Lemma map_get_equiv (k k0 : K) (m : list (K * X)) :
  eqb k k0 = true -> map_get eqb k m = map_get eqb k0 m.
Proof.
  intros He. induction m as [|[k' v'] m IH]; cbn [map_get]; [reflexivity|].
  rewrite (eqb_congr k' k k0 He). now rewrite IH.
Qed.

Lemma map_get_set_same (k : K) (v : X) m : map_get eqb k (map_set eqb k v m) = Some v.
Proof.
  induction m as [|[k' v'] m IH]; cbn [map_set map_get].
  - now rewrite eqb_refl.
  - destruct (eqb k' k) eqn:E; cbn [map_get]; rewrite E; [reflexivity|exact IH].
Qed.

Lemma map_get_set_other (k k0 : K) (v : X) m :
  eqb k k0 = false -> map_get eqb k0 (map_set eqb k v m) = map_get eqb k0 m.
Proof.
  intros Hne. induction m as [|[k' v'] m IH]; cbn [map_set map_get].
  - now rewrite Hne.
  - destruct (eqb k' k) eqn:E; cbn [map_get].
    + assert (eqb k' k0 = false) as ->; [|reflexivity].
      rewrite (eqb_sym k' k0), (eqb_congr k0 k' k E), (eqb_sym k0 k). exact Hne.
    + destruct (eqb k' k0); [reflexivity|exact IH].
Qed.

Lemma map_set_keys (k : K) (v : X) m :
  map fst (map_set eqb k v m)
  = if map_has eqb k m then map fst m else map fst m ++ [k].
Proof.
  unfold map_has. induction m as [|[k' v'] m IH]; cbn [map_set map_get map fst app].
  - reflexivity.
  - destruct (eqb k' k) eqn:E; cbn [map fst]; [reflexivity|].
    rewrite IH. now destruct (map_get eqb k m).
Qed.

Lemma map_has_keys (k : K) (m : list (K * X)) :
  map_has eqb k m = existsb (eqb k) (map fst m).
Proof.
  unfold map_has. induction m as [|[k' v'] m IH]; cbn [map_get map fst existsb]; [reflexivity|].
  rewrite (eqb_sym k k'). destruct (eqb k' k); [reflexivity|exact IH].
Qed.

End MapLookup.

Section MapPush.
Context {K X : Type} (eqb : K -> K -> bool).
Hypothesis eqb_refl : forall a, eqb a a = true.
Hypothesis eqb_sym : forall a b, eqb a b = eqb b a.
Hypothesis eqb_trans : forall a b c, eqb a b = true -> eqb b c = true -> eqb a c = true.

Lemma map_push_same (k : K) (x : X) (m : list (K * list X)) :
  map_get eqb k (map_push eqb k x m)
  = Some (match map_get eqb k m with Some l => l | None => [] end ++ [x]).
Proof.
  unfold map_push, map_has. destruct (map_get eqb k m) as [l|] eqn:E.
  - rewrite E. now rewrite (map_get_set_same eqb eqb_refl).
  - rewrite (map_get_set_same eqb eqb_refl). now rewrite (map_get_set_same eqb eqb_refl).
Qed.

Lemma map_push_other (k k0 : K) (x : X) (m : list (K * list X)) :
  eqb k k0 = false -> map_get eqb k0 (map_push eqb k x m) = map_get eqb k0 m.
Proof.
  intros Hne. unfold map_push, map_has. destruct (map_get eqb k m) as [l|] eqn:E.
  - rewrite E. now rewrite (map_get_set_other eqb eqb_sym eqb_trans).
  - rewrite (map_get_set_same eqb eqb_refl).
    now rewrite !(map_get_set_other eqb eqb_sym eqb_trans) by exact Hne.
Qed.

Lemma map_push_keys (k : K) (x : X) (m : list (K * list X)) :
  map fst (map_push eqb k x m)
  = if existsb (eqb k) (map fst m) then map fst m else map fst m ++ [k].
Proof.
  rewrite <- (map_has_keys eqb eqb_sym). unfold map_push, map_has.
  destruct (map_get eqb k m) as [l|] eqn:E.
  - rewrite E, map_set_keys. unfold map_has. now rewrite E.
  - rewrite (map_get_set_same eqb eqb_refl), map_set_keys.
    unfold map_has. rewrite (map_get_set_same eqb eqb_refl).
    rewrite map_set_keys. unfold map_has. now rewrite E.
Qed.

(** What is pushed under the keys of one class, in the order of the
    pushes. *)
Lemma fold_push_get (key : X -> K) (xs : list X) : forall (m : list (K * list X)) k,
  map_get eqb k (fold_left (fun m x => map_push eqb (key x) x m) xs m)
  = match map_get eqb k m, List.filter (fun x => eqb (key x) k) xs with
    | Some l, fs => Some (l ++ fs)
    | None, [] => None
    | None, fs => Some fs
    end.
Proof.
  induction xs as [|x xs IH]; intros m k.
  - cbn [fold_left List.filter].
    destruct (map_get eqb k m); [now rewrite app_nil_r|reflexivity].
  - cbn [fold_left List.filter]. rewrite IH.
    destruct (eqb (key x) k) eqn:E.
    + rewrite <- (map_get_equiv eqb eqb_sym eqb_trans (key x) k _ E),
              <- (map_get_equiv eqb eqb_sym eqb_trans (key x) k m E).
      rewrite map_push_same.
      destruct (map_get eqb (key x) m) as [l|]; [now rewrite <- app_assoc|reflexivity].
    + now rewrite map_push_other by exact E.
Qed.

Lemma fold_push_keys (key : X -> K) (xs : list X) : forall (m : list (K * list X)),
  map fst (fold_left (fun m x => map_push eqb (key x) x m) xs m)
  = fold_left (fun acc v => if existsb (eqb v) acc then acc else acc ++ [v])
      (map key xs) (map fst m).
Proof.
  induction xs as [|x xs IH]; intros m; [reflexivity|].
  cbn [fold_left map]. now rewrite IH, map_push_keys.
Qed.

End MapPush.

Section MapLeibniz.
Context {K X : Type} (eqb : K -> K -> bool).
Hypothesis eqb_eq : forall a b, eqb a b = true <-> a = b.

Lemma map_get_elem_of (k : K) (m : list (K * X)) v :
  map_get eqb k m = Some v -> (k, v) ∈ m.
Proof.
  induction m as [|[k' v'] m IH]; cbn [map_get]; [discriminate|].
  destruct (eqb k' k) eqn:E.
  - apply eqb_eq in E. subst k'. intros [= ->]. left.
  - intros H. right. auto.
Qed.

Lemma elem_of_map_get (k : K) (m : list (K * X)) v :
  NoDup (map fst m) -> (k, v) ∈ m -> map_get eqb k m = Some v.
Proof.
  induction m as [|[k' v'] m IH]; intros Hnd Hin; [inversion Hin|].
  cbn [map fst] in Hnd. apply NoDup_cons in Hnd as [Hk Hnd].
  cbn [map_get]. apply elem_of_cons in Hin as [[= <- <-]|Hin].
  - now rewrite (proj2 (eqb_eq k k) eq_refl).
  - destruct (eqb k' k) eqn:E; [|now apply IH].
    apply eqb_eq in E. subst k'. exfalso. apply Hk.
    apply list_elem_of_In, in_map_iff. exists (k, v).
    split; [reflexivity|now apply list_elem_of_In].
Qed.

End MapLeibniz.

Lemma jsstring_eqb_refl a : jsstring_eqb a a = true.
Proof. now apply jsstring_eqb_eq. Qed.

Lemma jsstring_eqb_sym a b : jsstring_eqb a b = jsstring_eqb b a.
Proof.
  destruct (jsstring_eqb a b) eqn:E1, (jsstring_eqb b a) eqn:E2; try reflexivity.
  - apply jsstring_eqb_eq in E1. subst. now rewrite jsstring_eqb_refl in E2.
  - apply jsstring_eqb_eq in E2. subst. now rewrite jsstring_eqb_refl in E1.
Qed.

Lemma jsstring_eqb_trans a b c :
  jsstring_eqb a b = true -> jsstring_eqb b c = true -> jsstring_eqb a c = true.
Proof. rewrite !jsstring_eqb_eq. congruence. Qed.

(** ** Grouping by context key *)

Lemma groupByKey_get_from (facts : list Fact) (m : KeyMap) k :
  map_get jsstring_eqb k (fold_left pushByKey facts m)
  = match map_get jsstring_eqb k m, factsUnder k facts with
    | Some l, fs => Some (l ++ fs)
    | None, [] => None
    | None, fs => Some fs
    end.
Proof.
  apply (fold_push_get jsstring_eqb jsstring_eqb_refl jsstring_eqb_sym jsstring_eqb_trans
           f_key).
Qed.

Lemma groupByKey_keys_from (facts : list Fact) (m : KeyMap) :
  map fst (fold_left pushByKey facts m)
  = fold_left (fun acc v => if existsb (jsstring_eqb v) acc then acc else acc ++ [v])
      (map f_key facts) (map fst m).
Proof.
  apply (fold_push_keys jsstring_eqb jsstring_eqb_refl jsstring_eqb_sym f_key).
Qed.

Lemma existsb_eqb_elem (v : jsstring) acc : existsb (jsstring_eqb v) acc = true <-> v ∈ acc.
Proof.
  rewrite existsb_exists. split.
  - intros (x & Hx & He). apply jsstring_eqb_eq in He. subst x. now apply list_elem_of_In.
  - intros H. exists v. split; [now apply list_elem_of_In|now apply jsstring_eqb_eq].
Qed.

Lemma uniq_fold_spec (l : list jsstring) : forall acc,
  NoDup acc ->
  NoDup (fold_left (fun acc v => if existsb (jsstring_eqb v) acc then acc else acc ++ [v])
           l acc) /\
  forall x, x ∈ fold_left (fun acc v => if existsb (jsstring_eqb v) acc then acc
                                        else acc ++ [v]) l acc
            <-> x ∈ acc \/ x ∈ l.
Proof.
  induction l as [|v l IH]; intros acc Hnd; cbn [fold_left].
  - split; [exact Hnd|]. intros x. split; [auto|]. intros [H|H]; [exact H|inversion H].
  - destruct (existsb (jsstring_eqb v) acc) eqn:E.
    + destruct (IH acc Hnd) as [H1 H2]. split; [exact H1|].
      intros x. rewrite H2, elem_of_cons. apply existsb_eqb_elem in E.
      split; [tauto|]. intros [H|[->|H]]; auto.
    + assert (Hv : v ∉ acc).
      { intros H. apply existsb_eqb_elem in H. congruence. }
      destruct (IH (acc ++ [v])) as [H1 H2].
      { apply NoDup_app. repeat split; [exact Hnd| |apply NoDup_singleton].
        intros x Hx Hxv. apply list_elem_of_singleton in Hxv. now subst. }
      split; [exact H1|].
      intros x. rewrite H2, elem_of_app, list_elem_of_singleton, elem_of_cons. tauto.
Qed.

Lemma groupByKey_length (allFacts : list Fact) :
  length (groupByKey allFacts) <= length allFacts.
Proof.
  unfold groupByKey. rewrite <- (length_map fst), groupByKey_keys_from. cbn [map].
  destruct (uniq_fold_spec (map f_key allFacts) [] (NoDup_nil_2)) as [Hnd Hel].
  rewrite <- (length_map f_key allFacts).
  apply NoDup_incl_length; [now apply NoDup_ListNoDup|].
  intros x Hx. apply list_elem_of_In, Hel in Hx as [Hx|Hx]; [inversion Hx|].
  now apply list_elem_of_In.
Qed.

(** X16: the map built from the facts gives, for a key, the facts with
    that key in the order of the pass, and nothing for a key no fact has. *)
Theorem groupByKey_lookup (allFacts : list Fact) (k : jsstring) :
  map_get jsstring_eqb k (groupByKey allFacts)
  = match factsUnder k allFacts with
    | [] => None
    | l => Some l
    end.
Proof.
  unfold groupByKey. rewrite groupByKey_get_from.
  cbn [map_get]. reflexivity.
Qed.

(** X17: the keys of the map are the keys of the facts in the order of
    their first occurrence, each once; so there are at most as many keys
    as facts. *)
Theorem groupByKey_keys (allFacts : list Fact) :
  map fst (groupByKey allFacts) = uniqStrings (map f_key allFacts) /\
  NoDup (map fst (groupByKey allFacts)) /\
  (forall k, k ∈ map fst (groupByKey allFacts) <-> exists f, f ∈ allFacts /\ f_key f = k) /\
  length (groupByKey allFacts) <= length allFacts.
Proof.
  unfold groupByKey. rewrite groupByKey_keys_from. cbn [map].
  destruct (uniq_fold_spec (map f_key allFacts) [] (NoDup_nil_2)) as [Hnd Hel].
  split; [reflexivity|]. split; [exact Hnd|]. split.
  - intros k. rewrite Hel. split.
    + intros [H|H]; [inversion H|].
      apply list_elem_of_In, in_map_iff in H as (f & Hf & Hin).
      exists f. split; [now apply list_elem_of_In|exact Hf].
    + intros (f & Hin & Hf). right. apply list_elem_of_In, in_map_iff.
      exists f. split; [exact Hf|now apply list_elem_of_In].
  - apply groupByKey_length.
Qed.

(** ** Distinct values *)

Lemma sameValueZero_keyOf x y : sameValueZero x y = true <-> keyOf x = keyOf y.
Proof.
  destruct x as [sx|sx| |sx mx ex], y as [sy|sy| |sy my ey];
    cbn [sameValueZero keyOf]; unfold SFeqb, SFcompare;
    try solve [split; [discriminate|intros [=]]]; try (now split);
    try solve [repeat match goal with b : bool |- _ => destruct b end;
               split; solve [discriminate | reflexivity | intros [=]]].
  destruct sx, sy; try solve [split; [discriminate|intros [=]]].
  - destruct (Z.compare_spec ex ey) as [->| |]; try solve [split; [discriminate|intros [=]; lia]].
    change (PosDef.Pos.compare_cont Eq mx my) with (Pos.compare mx my).
    destruct (Pos.compare_spec mx my) as [->| |]; cbn [CompOpp];
      try solve [split; [discriminate|intros [=]; lia]]. now split.
  - destruct (Z.compare_spec ex ey) as [->| |]; try solve [split; [discriminate|intros [=]; lia]].
    change (PosDef.Pos.compare_cont Eq mx my) with (Pos.compare mx my).
    destruct (Pos.compare_spec mx my) as [->| |];
      try solve [split; [discriminate|intros [=]; lia]]. now split.
Qed.

Lemma sameValueZero_refl x : sameValueZero x x = true.
Proof. now apply sameValueZero_keyOf. Qed.

Lemma sameValueZero_false x y : sameValueZero x y = false <-> keyOf x <> keyOf y.
Proof.
  rewrite <- sameValueZero_keyOf. destruct (sameValueZero x y); split; congruence.
Qed.

Lemma uniqValues_from (vs : list jsnum) : forall acc,
  let out := fold_left (fun acc v => if existsb (fun u => sameValueZero u v) acc
                                     then acc else acc ++ [v]) vs acc in
  (forall v, v ∈ vs \/ v ∈ acc -> exists u, u ∈ out /\ keyOf u = keyOf v) /\
  (forall u, u ∈ out -> u ∈ acc \/ u ∈ vs) /\
  (NoDup (map keyOf acc) -> NoDup (map keyOf out)).
Proof.
  induction vs as [|v vs IH]; intros acc; cbv zeta; cbn [fold_left].
  - split; [|split; auto].
    intros v [H|H]; [inversion H|]. now exists v.
  - destruct (existsb (fun u => sameValueZero u v) acc) eqn:E.
    + destruct (IH acc) as (H1 & H2 & H3). split; [|split; [|exact H3]].
      * intros w [Hw|Hw]; [|apply H1; now right].
        apply elem_of_cons in Hw as [->|Hw]; [|apply H1; now left].
        apply existsb_exists in E as (u & Hu & Huv).
        apply sameValueZero_keyOf in Huv.
        destruct (H1 u) as (u' & Hu' & Hk); [right; now apply list_elem_of_In|].
        exists u'. split; [exact Hu'|congruence].
      * intros u Hu. apply H2 in Hu as [Hu|Hu]; [now left|right; now right].
    + destruct (IH (acc ++ [v])) as (H1 & H2 & H3). split; [|split].
      * intros w [Hw|Hw].
        -- apply elem_of_cons in Hw as [->|Hw]; [|apply H1; now left].
           apply H1. right. apply elem_of_app. right. left.
        -- apply H1. right. apply elem_of_app. now left.
      * intros u Hu. apply H2 in Hu as [Hu|Hu]; [|right; now right].
        apply elem_of_app in Hu as [Hu|Hu]; [now left|].
        apply list_elem_of_singleton in Hu. subst. right. left.
      * intros Hnd. apply H3. rewrite map_app. cbn [map].
        apply NoDup_app. repeat split; [exact Hnd| |apply NoDup_singleton].
        intros k Hk Hkv. apply list_elem_of_singleton in Hkv. subst k.
        apply list_elem_of_In, in_map_iff in Hk as (u & Hku & Hu).
        assert (existsb (fun u => sameValueZero u v) acc = true); [|congruence].
        apply existsb_exists. exists u. split; [exact Hu|].
        now apply sameValueZero_keyOf.
Qed.

Lemma uniqValues_several (vs : list jsnum) :
  1 < length (uniqValues vs) <->
  exists a b, a ∈ vs /\ b ∈ vs /\ sameValueZero a b = false.
Proof.
  destruct (uniqValues_from vs []) as (H1 & H2 & H3). cbv zeta in *.
  fold (uniqValues vs) in *. specialize (H3 (NoDup_nil_2)). split.
  - intros Hlen. destruct (uniqValues vs) as [|a [|b l]]; cbn in Hlen; try lia.
    exists a, b.
    destruct (H2 a) as [H|H]; [left|inversion H|].
    destruct (H2 b) as [H'|H']; [right; left|inversion H'|].
    split; [exact H|]. split; [exact H'|].
    apply sameValueZero_false. cbn [map] in H3.
    apply NoDup_cons in H3 as [Hab _]. intros Heq. apply Hab. rewrite Heq. left.
  - intros (a & b & Ha & Hb & Hab). apply sameValueZero_false in Hab.
    destruct (H1 a) as (u & Hu & Hua); [now left|].
    destruct (H1 b) as (u' & Hu' & Hub); [now left|].
    destruct (uniqValues vs) as [|x [|y l]]; [inversion Hu| |cbn; lia].
    apply list_elem_of_singleton in Hu, Hu'. subst. congruence.
Qed.

Lemma directConflicts_flat_map (byKey : KeyMap) :
  directConflicts byKey
  = flat_map (fun e => if length (uniqValues (map f_value (snd e))) <=? 1 then []
                       else [mkConflict (fst e) (fold_left pushByValue (snd e) []) (snd e)])
      byKey.
Proof.
  unfold directConflicts.
  enough (H : forall acc,
    fold_left
      (fun conflicts (e : jsstring * list Fact) =>
         let '(key, list) := e in
         let values := map f_value list in
         let uniq := uniqValues values in
         if length uniq <=? 1 then conflicts
         else conflicts ++ [mkConflict key (fold_left pushByValue list []) list])
      byKey acc
    = acc ++ flat_map (fun e => if length (uniqValues (map f_value (snd e))) <=? 1 then []
                                else [mkConflict (fst e) (fold_left pushByValue (snd e) [])
                                                 (snd e)]) byKey) by apply (H []).
  induction byKey as [|[k l] byKey IH]; intros acc.
  - cbn. now rewrite app_nil_r.
  - cbn [fold_left flat_map fst snd]. rewrite IH. cbv zeta.
    destruct (length _ <=? 1); [reflexivity|]. now rewrite <- app_assoc.
Qed.

(** X18: a key has a direct conflict exactly when two facts with that key
    have values that differ as [Set] elements (SameValueZero). *)
Theorem direct_conflict_iff (allFacts : list Fact) (k : jsstring) :
  (exists c, c ∈ directConflicts (groupByKey allFacts) /\ c_key c = k) <->
  (exists f g, f ∈ allFacts /\ g ∈ allFacts /\ f_key f = k /\ f_key g = k /\
               sameValueZero (f_value f) (f_value g) = false).
Proof.
  assert (Hunder : forall f, f ∈ factsUnder k allFacts <-> f ∈ allFacts /\ f_key f = k).
  { intros f. unfold factsUnder. rewrite list_elem_of_In, filter_In, <- list_elem_of_In.
    now rewrite jsstring_eqb_eq. }
  assert (Hvals : forall l,
            (exists a b, a ∈ map f_value l /\ b ∈ map f_value l /\ sameValueZero a b = false)
            <-> exists f g, f ∈ l /\ g ∈ l /\ sameValueZero (f_value f) (f_value g) = false).
  { intros l. split.
    - intros (a & b & Ha & Hb & Hab).
      apply list_elem_of_In, in_map_iff in Ha as (f & <- & Hf).
      apply list_elem_of_In, in_map_iff in Hb as (g & <- & Hg).
      exists f, g. rewrite !list_elem_of_In. auto.
    - intros (f & g & Hf & Hg & Hfg). exists (f_value f), (f_value g).
      split; [|split; [|exact Hfg]]; apply list_elem_of_In, in_map; now apply list_elem_of_In. }
  split.
  - intros (c & Hc & Hk). apply directConflicts_sound in Hc as (Hentry & Hlen & _).
    rewrite Hk in Hentry.
    assert (Hget : map_get jsstring_eqb k (groupByKey allFacts) = Some (c_list c)).
    { apply (elem_of_map_get jsstring_eqb jsstring_eqb_eq); [|exact Hentry].
      unfold groupByKey. rewrite groupByKey_keys_from.
      apply (uniq_fold_spec _ [] (NoDup_nil_2)). }
    unfold groupByKey in Hget. rewrite groupByKey_get_from in Hget. cbn [map_get] in Hget.
    assert (Hl : c_list c = factsUnder k allFacts)
      by (destruct (factsUnder k allFacts); congruence).
    apply uniqValues_several, Hvals in Hlen as (f & g & Hf & Hg & Hfg).
    rewrite Hl in Hf, Hg. apply Hunder in Hf as [Hf Hkf], Hg as [Hg Hkg].
    exists f, g. auto.
  - intros (f & g & Hf & Hg & Hkf & Hkg & Hfg).
    set (l := factsUnder k allFacts).
    assert (Hfl : f ∈ l) by (apply Hunder; auto).
    assert (Hgl : g ∈ l) by (apply Hunder; auto).
    assert (Hget : map_get jsstring_eqb k (groupByKey allFacts) = Some l).
    { unfold groupByKey. rewrite groupByKey_get_from. cbn [map_get]. fold l.
      destruct l; [inversion Hfl|reflexivity]. }
    apply (map_get_elem_of jsstring_eqb jsstring_eqb_eq) in Hget.
    exists (mkConflict k (fold_left pushByValue l []) l). split; [|reflexivity].
    rewrite directConflicts_flat_map. apply list_elem_of_In, in_flat_map.
    exists (k, l). split; [now apply list_elem_of_In|]. cbn [fst snd].
    assert (Hlen : 1 < length (uniqValues (map f_value l))).
    { apply uniqValues_several, Hvals. exists f, g. auto. }
    apply Nat.leb_gt in Hlen. rewrite Hlen. now left.
Qed.

(** ** Grouping by value *)

Lemma sameValueZero_sym x y : sameValueZero x y = sameValueZero y x.
Proof.
  destruct (sameValueZero x y) eqn:E1, (sameValueZero y x) eqn:E2; try reflexivity.
  - apply sameValueZero_keyOf in E1. symmetry in E1. apply sameValueZero_keyOf in E1. congruence.
  - apply sameValueZero_keyOf in E2. symmetry in E2. apply sameValueZero_keyOf in E2. congruence.
Qed.

Lemma sameValueZero_trans x y z :
  sameValueZero x y = true -> sameValueZero y z = true -> sameValueZero x z = true.
Proof. rewrite !sameValueZero_keyOf. congruence. Qed.

(** X19: the map by value of a conflict gives, for a value, the facts with
    that value (as a [Map] key) in their order, and nothing for a value no
    fact has. *)
Theorem byValue_lookup (l : list Fact) (v : jsnum) :
  map_get sameValueZero v (fold_left pushByValue l [])
  = match factsWorth v l with
    | [] => None
    | fs => Some fs
    end.
Proof.
  exact (fold_push_get sameValueZero sameValueZero_refl sameValueZero_sym
           sameValueZero_trans f_value l [] v).
Qed.

(** ** Cross-context conflicts *)

Lemma crossConflicts_flat_map (byKey : KeyMap) (groups : list (list jsstring)) :
  crossConflicts byKey groups
  = flat_map
      (fun group =>
         let allInGroup :=
           flat_map (fun k => match map_get jsstring_eqb k byKey with
                              | Some l => l
                              | None => []
                              end) group in
         if length group <=? 1 then []
         else if length (uniqValues (map f_value allInGroup)) <=? 1 then []
         else if forallb (fun v => num_lt v num_20) (map f_value allInGroup)
                 && existsb (test re_codeLikeGroup) group
              then []
              else [mkCross group (fold_left pushByValue allInGroup []) allInGroup])
      groups.
Proof.
  unfold crossConflicts.
  match goal with |- fold_left ?F groups [] = flat_map ?G groups =>
    enough (H : forall acc, fold_left F groups acc = acc ++ flat_map G groups)
      by apply (H []) end.
  induction groups as [|g groups IH]; intros acc.
  - cbn. now rewrite app_nil_r.
  - cbn [fold_left flat_map]. rewrite IH. cbv zeta.
    destruct (length g <=? 1); [reflexivity|].
    destruct (length _ <=? 1); [reflexivity|].
    destruct (_ && _); [reflexivity|]. now rewrite <- app_assoc.
Qed.

Lemma lookup_facts (allFacts : list Fact) k :
  match map_get jsstring_eqb k (groupByKey allFacts) with
  | Some l => l
  | None => []
  end = factsUnder k allFacts.
Proof.
  unfold groupByKey. rewrite groupByKey_get_from. cbn [map_get].
  now destruct (factsUnder k allFacts).
Qed.

Lemma factsUnder_elem k allFacts f :
  f ∈ factsUnder k allFacts <-> f ∈ allFacts /\ f_key f = k.
Proof.
  unfold factsUnder. rewrite list_elem_of_In, filter_In, <- list_elem_of_In.
  now rewrite jsstring_eqb_eq.
Qed.

Lemma several_values (l : list Fact) :
  1 < length (uniqValues (map f_value l)) <->
  exists f g, f ∈ l /\ g ∈ l /\ sameValueZero (f_value f) (f_value g) = false.
Proof.
  rewrite uniqValues_several. split.
  - intros (a & b & Ha & Hb & Hab).
    apply list_elem_of_In, in_map_iff in Ha as (f & <- & Hf).
    apply list_elem_of_In, in_map_iff in Hb as (g & <- & Hg).
    exists f, g. rewrite !list_elem_of_In. auto.
  - intros (f & g & Hf & Hg & Hfg). exists (f_value f), (f_value g).
    split; [|split; [|exact Hfg]]; apply list_elem_of_In, in_map; now apply list_elem_of_In.
Qed.

(** X20: a cross-context conflict comes from a cluster of at least two
    keys; its facts are exactly the facts whose key is in the cluster; two
    of them differ in value; and it is not the case that all its values
    are under 20 while a key of the cluster holds a code-like word. *)
Theorem cross_conflict_facts (allFacts : list Fact) (groups : list (list jsstring))
    (x : CrossConflict) :
  x ∈ crossConflicts (groupByKey allFacts) groups ->
  x_keys x ∈ groups /\ 1 < length (x_keys x) /\
  (forall f, f ∈ x_facts x <-> f ∈ allFacts /\ f_key f ∈ x_keys x) /\
  (exists f g, f ∈ x_facts x /\ g ∈ x_facts x /\
               sameValueZero (f_value f) (f_value g) = false) /\
  (forallb (fun f => num_lt (f_value f) num_20) (x_facts x)
   && existsb (test re_codeLikeGroup) (x_keys x) = false).
Proof.
  rewrite crossConflicts_flat_map. intros Hx.
  apply list_elem_of_In, in_flat_map in Hx as (g & Hg & Hx). cbv zeta in Hx.
  destruct (length g <=? 1) eqn:Hl; [inversion Hx|].
  destruct (length (uniqValues _) <=? 1) eqn:Hu; [inversion Hx|].
  destruct (forallb _ _ && _) eqn:Hc; [inversion Hx|].
  destruct Hx as [<-|[]]. cbn [x_keys x_facts].
  apply Nat.leb_gt in Hl, Hu.
  split; [now apply list_elem_of_In|]. split; [exact Hl|]. split; [|split].
  - intros f. rewrite list_elem_of_In, in_flat_map. split.
    + intros (k & Hk & Hf). rewrite lookup_facts in Hf.
      apply list_elem_of_In, factsUnder_elem in Hf as [Hf <-].
      split; [exact Hf|now apply list_elem_of_In].
    + intros [Hf Hk]. exists (f_key f). split; [now apply list_elem_of_In|].
      rewrite lookup_facts. apply list_elem_of_In, factsUnder_elem. now split.
  - now apply several_values.
  - rewrite <- Hc. f_equal. clear. induction (flat_map _ g) as [|f l IH]; [reflexivity|].
    cbn [map forallb]. now rewrite IH.
Qed.

Lemma cross_conflict_facts_witness :
  x_keys crossThree ∈ groupSimilarKeys (groupByKey (collectFacts corpusThree)) /\
  1 < length (x_keys crossThree) /\
  (forall f, f ∈ x_facts crossThree <->
             f ∈ collectFacts corpusThree /\ f_key f ∈ x_keys crossThree) /\
  (exists f g, f ∈ x_facts crossThree /\ g ∈ x_facts crossThree /\
               sameValueZero (f_value f) (f_value g) = false) /\
  (forallb (fun f => num_lt (f_value f) num_20) (x_facts crossThree)
   && existsb (test re_codeLikeGroup) (x_keys crossThree) = false).
Proof.
  apply (cross_conflict_facts (collectFacts corpusThree)
           (groupSimilarKeys (groupByKey (collectFacts corpusThree))) crossThree).
  vm_compute. left.
Defined.

(** ** Clusters that reach the report *)

Lemma allInGroup_clusterFacts (allFacts : list Fact) (group : list jsstring) :
  flat_map (fun k => match map_get jsstring_eqb k (groupByKey allFacts) with
                     | Some l => l
                     | None => []
                     end) group
  = clusterFacts allFacts group.
Proof. unfold clusterFacts. apply flat_map_ext. intros k. apply lookup_facts. Qed.

Lemma forallb_values (l : list Fact) :
  forallb (fun v => num_lt v num_20) (map f_value l)
  = forallb (fun f => num_lt (f_value f) num_20) l.
Proof. induction l as [|f l IH]; [reflexivity|]. cbn [map forallb]. now rewrite IH. Qed.

Lemma crossConflicts_cluster (allFacts : list Fact) (groups : list (list jsstring)) x :
  x ∈ crossConflicts (groupByKey allFacts) groups <->
  x_keys x ∈ groups /\
  x = mkCross (x_keys x)
        (fold_left pushByValue (clusterFacts allFacts (x_keys x)) [])
        (clusterFacts allFacts (x_keys x)) /\
  1 < length (x_keys x) /\
  1 < length (uniqValues (map f_value (clusterFacts allFacts (x_keys x)))) /\
  forallb (fun f => num_lt (f_value f) num_20) (clusterFacts allFacts (x_keys x))
  && existsb (test re_codeLikeGroup) (x_keys x) = false.
Proof.
  rewrite crossConflicts_flat_map, list_elem_of_In, in_flat_map. cbv zeta. split.
  - intros (g & Hg & Hx). rewrite allInGroup_clusterFacts, forallb_values in Hx.
    destruct (length g <=? 1) eqn:Hl; [inversion Hx|].
    destruct (length (uniqValues _) <=? 1) eqn:Hu; [inversion Hx|].
    destruct (forallb _ _ && _) eqn:Hc; [inversion Hx|].
    destruct Hx as [<-|[]]. cbn [x_keys]. apply Nat.leb_gt in Hl, Hu.
    split; [now apply list_elem_of_In|]. now repeat split.
  - intros (Hg & Hx & Hl & Hu & Hc). exists (x_keys x).
    split; [now apply list_elem_of_In|].
    rewrite allInGroup_clusterFacts, forallb_values.
    apply Nat.leb_gt in Hl, Hu. rewrite Hl, Hu, Hc. left. now symmetry.
Qed.

(** C4 (amended): a list of keys is shown in section 2 of the report
    exactly when it is a cluster of at least two keys whose facts have two
    different values, the cluster is not dropped as code-like (all its
    values under 20 and a code-like word in one of its keys), and none of
    its keys is the key of a direct conflict.  A cross-context conflict is
    suppressed as soon as one of its keys has a direct conflict. *)
Theorem cross_conflict_reported_iff (allFacts : list Fact) :
  let byKey := groupByKey allFacts in
  let conflicts := directConflicts byKey in
  let cross := crossConflicts byKey (groupSimilarKeys byKey) in
  (forall group,
     (exists x, x ∈ reportedCross conflicts cross /\ x_keys x = group) <->
     group ∈ groupSimilarKeys byKey /\
     1 < length group /\
     1 < length (uniqValues (map f_value (clusterFacts allFacts group))) /\
     forallb (fun f => num_lt (f_value f) num_20) (clusterFacts allFacts group)
     && existsb (test re_codeLikeGroup) group = false /\
     forall c, c ∈ conflicts -> c_key c ∉ group) /\
  (forall x, x ∈ cross ->
     (x ∉ reportedCross conflicts cross <->
      exists c, c ∈ conflicts /\ c_key c ∈ x_keys x)).
Proof.
  intros byKey conflicts cross.
  assert (Hrep : forall x, x ∈ reportedCross conflicts cross <->
                   x ∈ cross /\ forall c, c ∈ conflicts -> c_key c ∉ x_keys x).
  { intros x. unfold reportedCross.
    rewrite list_elem_of_In, filter_In, <- list_elem_of_In, negb_true_iff.
    rewrite <- not_true_iff_false, alreadyReported_spec.
    split; intros (Hx & Hn); (split; [exact Hx|]).
    - intros c Hc Hk. apply Hn. now exists c.
    - intros (c & Hc & Hk). exact (Hn c Hc Hk). }
  split.
  - intros group. split.
    + intros (x & Hx & <-). apply Hrep in Hx as [Hx Hn].
      apply crossConflicts_cluster in Hx as (Hg & _ & Hl & Hu & Hc).
      repeat split; assumption.
    + intros (Hg & Hl & Hu & Hc & Hn).
      exists (mkCross group (fold_left pushByValue (clusterFacts allFacts group) [])
                      (clusterFacts allFacts group)).
      split; [|reflexivity]. apply Hrep. split; [|exact Hn].
      apply crossConflicts_cluster. cbn [x_keys]. repeat split; assumption.
  - intros x Hx. rewrite Hrep. split.
    + intros Hn. destruct (alreadyReported conflicts x) eqn:Ha.
      * now apply alreadyReported_spec.
      * exfalso. apply Hn. split; [exact Hx|]. intros c Hc Hk.
        apply not_true_iff_false in Ha. apply Ha, alreadyReported_spec. now exists c.
    + intros (c & Hc & Hk) [_ Hn]. exact (Hn c Hc Hk).
Qed.

Lemma cross_conflict_reported_iff_witness :
  exists x,
    x ∈ reportedCross (directConflicts (groupByKey (collectFacts corpusTwoKeys)))
          (crossConflicts (groupByKey (collectFacts corpusTwoKeys))
             (groupSimilarKeys (groupByKey (collectFacts corpusTwoKeys)))) /\
    x_keys x = [str "our shelter program now serves # dogs every single week";
                str "the shelter program serves # dogs every week"].
Proof.
  apply (proj1 (cross_conflict_reported_iff (collectFacts corpusTwoKeys))).
  split; [vm_compute; left|].
  split; [vm_compute; lia|].
  split; [vm_compute; lia|].
  split; [vm_compute; reflexivity|].
  assert (directConflicts (groupByKey (collectFacts corpusTwoKeys)) = []) as ->
    by (vm_compute; reflexivity).
  intros c Hc. inversion Hc.
Defined.

(** A cluster of two keys with two values and no direct conflict that the
    code-like filter drops: nothing is reported. *)
Lemma code_like_cluster_dropped :
  let byKey := groupByKey (collectFacts corpusStory) in
  map f_value (collectFacts corpusStory) = [num_of_Z 12; num_of_Z 15] /\
  groupSimilarKeys byKey
  = [[str "every character in the story feeds # dogs each day";
      str "every character in this story feeds # dogs each day"]] /\
  directConflicts byKey = [] /\
  crossConflicts byKey (groupSimilarKeys byKey) = [].
Proof. cbv zeta. repeat split; vm_compute; reflexivity. Qed.

(** ** The numbers of the summary *)

Lemma flat_map_length_le {A B} (f : A -> list B) (l : list A) :
  (forall x, length (f x) <= 1) -> length (flat_map f l) <= length l.
Proof.
  intros Hf. induction l as [|x l IH]; [reflexivity|].
  cbn [flat_map length]. rewrite length_app. specialize (Hf x). lia.
Qed.

Lemma directConflicts_length (byKey : KeyMap) :
  length (directConflicts byKey) <= length byKey.
Proof.
  rewrite directConflicts_flat_map. apply flat_map_length_le.
  intros e. destruct (length _ <=? 1); cbn; lia.
Qed.

Lemma crossConflicts_length (byKey : KeyMap) (groups : list (list jsstring)) :
  2 * length (crossConflicts byKey groups) <= length (concat groups).
Proof.
  rewrite crossConflicts_flat_map. cbv zeta.
  induction groups as [|g groups IH]; [reflexivity|].
  cbn [flat_map concat]. rewrite !length_app.
  destruct (length g <=? 1) eqn:Hl; [cbn [length]; lia|].
  apply Nat.leb_gt in Hl.
  destruct (length (uniqValues _) <=? 1); [cbn [length]; lia|].
  destruct (_ && _); cbn [length]; lia.
Qed.

Lemma clusters_length (factsByKey : KeyMap) :
  length (concat (groupSimilarKeys factsByKey)) <= length factsByKey.
Proof.
  unfold groupSimilarKeys. set (keys := map fst factsByKey).
  destruct (cluster_fold_inv keys keys (∅, [])) as ((Hnd & Hused & Hsub & Hne) & Hcov).
  { auto. }
  { unfold clusterInv. cbn [fst snd concat]. split; [constructor|].
    split; [|split; [|constructor]].
    - intros x. split; intros Hx; [now apply not_elem_of_empty in Hx | inversion Hx].
    - intros x Hx. inversion Hx. }
  rewrite <- (length_map fst factsByKey). fold keys.
  apply NoDup_incl_length; [now apply NoDup_ListNoDup|].
  intros x Hx. apply list_elem_of_In. apply Hsub. now apply list_elem_of_In.
Qed.

(** X28: in the summary there are at most as many direct conflicts as
    keys, at most as many keys as facts, and at most half as many
    similar-context groups as keys. *)
Theorem summary_counts (files : Corpus) :
  let allFacts := collectFacts files in
  let byKey := groupByKey allFacts in
  let conflicts := directConflicts byKey in
  let cross := crossConflicts byKey (groupSimilarKeys byKey) in
  length conflicts <= length byKey /\
  length byKey <= length allFacts /\
  2 * length cross <= length byKey.
Proof.
  cbv zeta. split; [apply directConflicts_length|]. split; [apply groupByKey_length|].
  etransitivity; [apply crossConflicts_length|apply clusters_length].
Qed.

(** ** How clusters grow *)

Lemma absorb_chained st o : Chained (fst st) -> Chained (fst (absorb st o)).
Proof.
  destruct st as [group used]. unfold absorb. intros H.
  case_bool_decide; [exact H|].
  destruct (existsb (fun g => linked g o) group) eqn:E; [|exact H].
  cbn [fst]. apply chained_push; [exact H|].
  apply existsb_exists in E as (g & Hg & Hl). exists g. split; [now apply list_elem_of_In|exact Hl].
Qed.

Lemma absorb_fold_chained l : forall st,
  Chained (fst st) -> Chained (fst (fold_left absorb l st)).
Proof.
  induction l as [|o l IH]; intros st H; [exact H|].
  cbn [fold_left]. apply IH. now apply absorb_chained.
Qed.

Lemma cluster_chained keys st k :
  Forall Chained (snd st) -> Forall Chained (snd (cluster keys st k)).
Proof.
  destruct st as [used groups]. unfold cluster. intros H.
  case_bool_decide; [exact H|].
  pose proof (absorb_fold_chained keys ([k], {[k]} ∪ used) (chained_seed k)) as Hc.
  destruct (fold_left absorb keys ([k], {[k]} ∪ used)) as [group used'].
  cbn [fst snd] in *. apply Forall_app. split; [exact H|]. now constructor.
Qed.

(** X21: every cluster is grown from its first key: each later key was
    linked to a key already in the cluster when it was added. *)
Theorem groupSimilarKeys_chained (factsByKey : KeyMap) :
  Forall Chained (groupSimilarKeys factsByKey).
Proof.
  unfold groupSimilarKeys. generalize (map fst factsByKey) at 1. intros keys.
  assert (H : forall l st, Forall Chained (snd st) ->
                           Forall Chained (snd (fold_left (cluster keys) l st))).
  { induction l as [|k l IH]; intros st Hst; [exact Hst|].
    cbn [fold_left]. apply IH. now apply cluster_chained. }
  apply H. constructor.
Qed.

(** ** What a new cluster absorbs *)

Lemma absorb_mono st o :
  (forall g, g ∈ fst st -> g ∈ fst (absorb st o)) /\
  (forall x, x ∈ snd st -> x ∈ snd (absorb st o)).
Proof.
  destruct st as [group used]. unfold absorb.
  case_bool_decide; [now split|].
  destruct (existsb _ group); [|now split]. cbn [fst snd]. split.
  - intros g Hg. apply elem_of_app. now left.
  - intros x Hx. apply elem_of_union. now right.
Qed.

Lemma absorb_fold_mono l : forall st,
  (forall g, g ∈ fst st -> g ∈ fst (fold_left absorb l st)) /\
  (forall x, x ∈ snd st -> x ∈ snd (fold_left absorb l st)).
Proof.
  induction l as [|o l IH]; intros st; [now split|].
  cbn [fold_left]. destruct (IH (absorb st o)) as [H1 H2].
  destruct (absorb_mono st o) as [H3 H4]. split; auto.
Qed.

Lemma absorb_takes st o :
  (exists g, g ∈ fst st /\ linked g o = true) -> o ∈ snd (absorb st o).
Proof.
  destruct st as [group used]. unfold absorb. intros (g & Hg & Hl).
  case_bool_decide as Hin; [exact Hin|].
  assert (existsb (fun g => linked g o) group = true) as ->.
  { apply existsb_exists. exists g. split; [now apply list_elem_of_In|exact Hl]. }
  cbn [snd]. apply elem_of_union. left. now apply elem_of_singleton.
Qed.

Lemma absorb_fold_takes l : forall st o,
  o ∈ l -> (exists g, g ∈ fst st /\ linked g o = true) ->
  o ∈ snd (fold_left absorb l st).
Proof.
  induction l as [|a l IH]; intros st o Ho Hg; [inversion Ho|].
  cbn [fold_left]. apply elem_of_cons in Ho as [->|Ho].
  - apply absorb_fold_mono. now apply absorb_takes.
  - apply IH; [exact Ho|]. destruct Hg as (g & Hg & Hl). exists g.
    split; [|exact Hl]. now apply absorb_mono.
Qed.

Lemma absorb_fold_head l : forall st k,
  head (fst st) = Some k -> head (fst (fold_left absorb l st)) = Some k.
Proof.
  induction l as [|o l IH]; intros st k H; [exact H|].
  cbn [fold_left]. apply IH. destruct st as [group used]. unfold absorb.
  case_bool_decide; [exact H|]. destruct (existsb _ group); [|exact H].
  cbn [fst] in *. destruct group; [discriminate|exact H].
Qed.

Lemma cluster_seedsAbsorb keys st k :
  clusterInv keys st -> seedsAbsorb keys (snd st) ->
  seedsAbsorb keys (snd (cluster keys st k)).
Proof.
  destruct st as [used groups]. intros Hinv HP. unfold cluster.
  case_bool_decide as Hin; [exact HP|].
  destruct Hinv as (Hnd & Hused & Hsub & Hne). cbn [fst snd] in *.
  pose proof (absorb_fold_takes keys ([k], {[k]} ∪ used)) as Htakes.
  pose proof (absorb_fold_head keys ([k], {[k]} ∪ used) k eq_refl) as Hhead.
  assert (Hu : forall x, x ∈ snd (fold_left absorb keys ([k], {[k]} ∪ used)) ->
                         x ∈ used \/ x ∈ fst (fold_left absorb keys ([k], {[k]} ∪ used))).
  { assert (Hgen : forall l st,
              (forall x, x ∈ snd st -> x ∈ used \/ x ∈ fst st) ->
              forall x, x ∈ snd (fold_left absorb l st) ->
                        x ∈ used \/ x ∈ fst (fold_left absorb l st)).
    { induction l as [|o l IH]; intros st Hst; [exact Hst|].
      cbn [fold_left]. apply IH. destruct st as [g u]. unfold absorb.
      case_bool_decide; [exact Hst|]. destruct (existsb _ g); [|exact Hst].
      cbn [fst snd] in *. intros x Hx. apply elem_of_union in Hx as [Hx|Hx].
      - apply elem_of_singleton in Hx. subst. right. apply elem_of_app. right. left.
      - destruct (Hst x Hx) as [H'|H']; [now left|right]. apply elem_of_app. now left. }
    apply Hgen. cbn [fst snd]. intros x Hx. apply elem_of_union in Hx as [Hx|Hx].
    - apply elem_of_singleton in Hx. subst. right. left.
    - now left. }
  destruct (fold_left absorb keys ([k], {[k]} ∪ used)) as [group used'].
  cbn [fst snd] in *.
  intros i g k0 o Hi Hk0 Ho Hl.
  destruct (decide (i < length groups)) as [Hlt|Hge].
  - rewrite lookup_app_l in Hi by exact Hlt.
    destruct (HP i g k0 o Hi Hk0 Ho Hl) as (j & g' & Hj & Hg' & Hog').
    exists j, g'. split; [exact Hj|]. split; [|exact Hog'].
    rewrite lookup_app_l; [exact Hg'|]. apply lookup_lt_Some in Hg'. lia.
  - assert (i = length groups) as ->.
    { apply lookup_lt_Some in Hi. rewrite length_app in Hi. cbn in Hi. lia. }
    rewrite lookup_app_r, Nat.sub_diag in Hi by lia. cbn in Hi. injection Hi as <-.
    assert (k0 = k) as -> by congruence.
    assert (Hou : o ∈ used').
    { apply Htakes; [exact Ho|]. exists k. split; [left|exact Hl]. }
    apply Hu in Hou as [Hou|Hou].
    + apply Hused, elem_of_concat in Hou as (g' & Hog' & Hg').
      apply list_elem_of_lookup in Hg' as (j & Hj).
      exists j, g'. split; [apply lookup_lt_Some in Hj; lia|]. split; [|exact Hog'].
      rewrite lookup_app_l; [exact Hj|]. now apply lookup_lt_Some in Hj.
    + exists (length groups), group. split; [lia|]. split; [|exact Hou].
      rewrite lookup_app_r, Nat.sub_diag by lia. reflexivity.
Qed.

(** X22: a key linked to the first key of a cluster lies in that cluster
    or in an earlier one: a new cluster takes every free key linked to
    the key it starts from. *)
Theorem groupSimilarKeys_absorbs (factsByKey : KeyMap) (i : nat) (g : list jsstring)
    (k o : jsstring) :
  groupSimilarKeys factsByKey !! i = Some g -> head g = Some k ->
  o ∈ map fst factsByKey -> linked k o = true ->
  exists j g', j <= i /\ groupSimilarKeys factsByKey !! j = Some g' /\ o ∈ g'.
Proof.
  revert i g k o.
  change (seedsAbsorb (map fst factsByKey) (groupSimilarKeys factsByKey)).
  unfold groupSimilarKeys. set (keys := map fst factsByKey).
  assert (H : forall l st,
            (forall k, k ∈ l -> k ∈ keys) -> clusterInv keys st ->
            seedsAbsorb keys (snd st) ->
            seedsAbsorb keys (snd (fold_left (cluster keys) l st))).
  { induction l as [|k l IH]; intros st Hl Hinv HP; [exact HP|].
    cbn [fold_left]. apply IH.
    - intros x Hx. apply Hl. now right.
    - apply cluster_inv; [apply Hl; left|exact Hinv].
    - now apply cluster_seedsAbsorb. }
  apply H; [auto| |].
  - unfold clusterInv. cbn [fst snd concat]. split; [constructor|].
    split; [|split; [|constructor]].
    + intros x. split; intros Hx; [now apply not_elem_of_empty in Hx | inversion Hx].
    + intros x Hx. inversion Hx.
  - intros i g k o Hi. inversion Hi.
Qed.

Lemma groupSimilarKeys_absorbs_witness :
  exists j g', j <= 0 /\ groupSimilarKeys keysShelter !! j = Some g' /\
               str "shelter program serves cats" ∈ g'.
Proof.
  apply (groupSimilarKeys_absorbs keysShelter 0
           [str "shelter program serves dogs"; str "shelter program serves cats"]
           (str "shelter program serves dogs")).
  - vm_compute. reflexivity.
  - reflexivity.
  - right. left.
  - vm_compute. reflexivity.
Defined.

(** ** The threshold on the similarity *)

Lemma keySimilarity_sizes (a b : jsstring) :
  keySimilarity a b
  = if size (tokenSet a ∪ tokenSet b) =? 0 then Qmake 0 1
    else Qmake (Z.of_nat (size (tokenSet a ∩ tokenSet b)))
               (Pos.of_nat (size (tokenSet a ∪ tokenSet b))).
Proof. unfold keySimilarity. cbv zeta. now rewrite filter_elem_inter. Qed.

(** X23: two keys are linked (similarity at least 0.5) exactly when they
    have a token and share at least half of the tokens of both. *)
Theorem linked_iff (g o : jsstring) :
  linked g o = true <->
  0 < size (tokenSet g ∪ tokenSet o) /\
  size (tokenSet g ∪ tokenSet o) <= 2 * size (tokenSet g ∩ tokenSet o).
Proof.
  unfold linked. rewrite Qle_bool_iff, keySimilarity_sizes.
  destruct (size (tokenSet g ∪ tokenSet o)) as [|u] eqn:Hu; cbn [Nat.eqb].
  - unfold Qle. cbn. split; [intros H; lia|intros [H _]; lia].
  - unfold Qle. cbn [Qnum Qden]. rewrite <- Pos.of_nat_succ, Zpos_P_of_succ_nat. lia.
Qed.

(** X24: the similarity is 1 exactly when the two keys have the same,
    non-empty, set of tokens, and 0 exactly when they share no token. *)
Theorem keySimilarity_extremes (a b : jsstring) :
  ((keySimilarity a b == 1)%Q <-> tokenSet a = tokenSet b /\ tokenSet a <> ∅) /\
  ((keySimilarity a b == 0)%Q <-> tokenSet a ∩ tokenSet b = ∅).
Proof.
  rewrite keySimilarity_sizes.
  pose proof (inter_le_union (tokenSet a) (tokenSet b)) as Hle.
  set (A := tokenSet a) in *. set (B := tokenSet b) in *.
  destruct (size (A ∪ B)) as [|u] eqn:Hu; cbn [Nat.eqb].
  - apply size_empty_inv in Hu. apply leibniz_equiv in Hu.
    assert (A = ∅ /\ B = ∅) as [HA HB].
    { split; apply set_eq; intros x; split; intros Hx;
        try (now apply not_elem_of_empty in Hx);
        rewrite <- Hu; apply elem_of_union; auto. }
    split.
    + split; [discriminate|]. intros [_ H]. contradiction.
    + split; [|reflexivity]. intros _. rewrite HA. apply set_eq. intros x.
      rewrite elem_of_intersection. split; [tauto|]. intros Hx. now apply not_elem_of_empty in Hx.
  - split.
    + unfold Qeq. cbn [Qnum Qden]. rewrite <- Pos.of_nat_succ, Zpos_P_of_succ_nat. split.
      * intros H. assert (Hsz : size (A ∪ B) <= size (A ∩ B)) by lia.
        assert (Hsub : A ∩ B ⊆ A ∪ B).
        { intros x Hx. apply elem_of_intersection in Hx as [Hx _]. apply elem_of_union. now left. }
        pose proof (set_subseteq_size_eq _ _ Hsub Hsz) as Heq.
        assert (HAB : A = B).
        { apply set_eq. intros x. split; intros Hx.
          - assert (x ∈ A ∪ B) as Hx' by (apply elem_of_union; now left).
            rewrite <- Heq in Hx'. apply elem_of_intersection in Hx'. tauto.
          - assert (x ∈ A ∪ B) as Hx' by (apply elem_of_union; now right).
            rewrite <- Heq in Hx'. apply elem_of_intersection in Hx'. tauto. }
        split; [exact HAB|]. intros HA. rewrite <- HAB, HA in Hu.
        rewrite (left_id_L ∅ (∪)), size_empty in Hu. discriminate.
      * intros [HAB _]. rewrite <- HAB in *.
        replace (A ∩ A) with A by (apply set_eq; intros x; rewrite elem_of_intersection; tauto).
        replace (A ∪ A) with A in Hu by (apply set_eq; intros x; rewrite elem_of_union; tauto).
        lia.
    + unfold Qeq. cbn [Qnum Qden]. split.
      * intros H. assert (Hz : size (A ∩ B) = 0) by lia.
        apply size_empty_inv in Hz. now apply leibniz_equiv in Hz.
      * intros ->. rewrite size_empty. reflexivity.
Qed.

(** ** Splitting a key into its words *)

Lemma match_here_spaces_nil before : match_here re_spaces before [] = None.
Proof. reflexivity. Qed.

Lemma split_loop_word (w : jsstring) : forall fuel chunk before rest,
  forallb (fun c => negb (isSpace c)) w = true ->
  split_loop (length w + S fuel) re_spaces chunk before (w ++ rest)
  = split_loop (S fuel) re_spaces (rev w ++ chunk) (rev w ++ before) rest.
Proof.
  induction w as [|c w IH]; intros fuel chunk before rest Hw; [reflexivity|].
  cbn [forallb] in Hw. apply andb_true_iff in Hw as [Hc Hw]. apply negb_true_iff in Hc.
  cbn [length app Nat.add split_loop]. rewrite match_here_spaces, Hc.
  rewrite IH by exact Hw. cbn [rev]. now rewrite <- !app_assoc.
Qed.

Lemma split_loop_space fuel chunk before c rest :
  isSpace c = false ->
  split_loop (S fuel) re_spaces chunk before (" "%char :: c :: rest)
  = rev chunk :: split_loop fuel re_spaces [] (" "%char :: before) (c :: rest).
Proof.
  intros Hc. cbn [split_loop]. rewrite match_here_spaces.
  change (isSpace " ") with true. cbv iota.
  cbn [takeWhile dropWhile]. change (isSpace " ") with true. cbv iota.
  cbn [takeWhile dropWhile]. rewrite Hc. cbn [ms_rest ms_before rev app length].
  assert (E : (S (length rest) =? S (S (length rest))) = false)
    by (apply Nat.eqb_neq; lia).
  now rewrite E.
Qed.

Lemma isWord_inv w :
  isWord w = true ->
  (exists c t, w = c :: t /\ isSpace c = false) /\
  forallb (fun c => negb (isSpace c)) w = true.
Proof.
  unfold isWord. intros H. apply andb_true_iff in H as [Hne Hw]. split; [|exact Hw].
  destruct w as [|c t]; [discriminate|]. exists c, t. split; [reflexivity|].
  cbn [forallb] in Hw. apply andb_true_iff in Hw as [Hc _]. now apply negb_true_iff in Hc.
Qed.

Lemma split_loop_words (ws : list jsstring) : forall w fuel chunk before,
  forallb isWord (w :: ws) = true ->
  length (join (str " ") (w :: ws)) < fuel ->
  split_loop fuel re_spaces chunk before (join (str " ") (w :: ws))
  = (rev chunk ++ w) :: ws.
Proof.
  induction ws as [|w' ws IH]; intros w fuel chunk before Hws Hfuel.
  - cbn [join] in *. cbn [forallb] in Hws. apply andb_true_iff in Hws as [Hw _].
    apply isWord_inv in Hw as [_ Hw].
    replace fuel with (length w + S (fuel - length w - 1)) by lia.
    pose proof (split_loop_word w (fuel - length w - 1) chunk before [] Hw) as H.
    rewrite app_nil_r in H. rewrite H.
    cbn [split_loop]. now rewrite rev_app_distr, rev_involutive.
  - cbn [forallb] in Hws. apply andb_true_iff in Hws as [Hw Hws].
    pose proof Hws as Hws'. cbn [forallb] in Hws'. apply andb_true_iff in Hws' as [Hw' _].
    apply isWord_inv in Hw as [_ Hw]. apply isWord_inv in Hw' as [(c & t & -> & Hc) _].
    change (join (str " ") (w :: (c :: t) :: ws))
      with (w ++ str " " ++ join (str " ") ((c :: t) :: ws)) in *.
    assert (Hj : exists r, join (str " ") ((c :: t) :: ws) = c :: r).
    { destruct ws; cbn [join]; eauto. }
    destruct Hj as [r Hj].
    rewrite !length_app in Hfuel. change (length (str " ")) with 1 in Hfuel.
    replace fuel with (length w + S (fuel - length w - 1)) by lia.
    rewrite split_loop_word by exact Hw.
    rewrite Hj. change (str " " ++ c :: r) with (" "%char :: c :: r).
    rewrite split_loop_space by exact Hc. rewrite <- Hj.
    rewrite IH; [|exact Hws|unfold jsstring in *; lia].
    cbn [rev app]. now rewrite rev_app_distr, rev_involutive.
Qed.

(** X25: splitting at white space the words joined by single spaces gives
    the words back; so the tokens of such a key are its words of two code
    units or more other than [#]. *)
Theorem split_join_words (w : jsstring) (ws : list jsstring) :
  forallb isWord (w :: ws) = true ->
  split re_spaces (join (str " ") (w :: ws)) = w :: ws /\
  tokenSet (join (str " ") (w :: ws)) = list_to_set (List.filter isToken (w :: ws)).
Proof.
  intros Hws.
  assert (Hs : split re_spaces (join (str " ") (w :: ws)) = w :: ws).
  { unfold split.
    assert (Hne : exists c r, join (str " ") (w :: ws) = c :: r).
    { pose proof Hws as H. cbn [forallb] in H. apply andb_true_iff in H as [Hw _].
      apply isWord_inv in Hw as [(c & t & -> & _) _]. destruct ws; cbn [join app]; eauto. }
    destruct Hne as (c & r & Hj). rewrite Hj. rewrite <- Hj.
    rewrite split_loop_words; [reflexivity|exact Hws|lia]. }
  split; [exact Hs|]. unfold tokenSet. now rewrite Hs.
Qed.

Lemma split_join_words_witness :
  split re_spaces (join (str " ") [str "shelter"; str "serves"; str "#"; str "dogs"])
  = [str "shelter"; str "serves"; str "#"; str "dogs"] /\
  tokenSet (join (str " ") [str "shelter"; str "serves"; str "#"; str "dogs"])
  = list_to_set (List.filter isToken [str "shelter"; str "serves"; str "#"; str "dogs"]).
Proof. apply split_join_words. reflexivity. Defined.

(** ** Matches are not empty *)

Lemma exec_from_m0 re st m :
  exec_from re st = Some m ->
  exists b, Matches (re_ignoreCase re) (re_pattern re)
              (startState b (m_0 m ++ ms_rest (m_end m))) (m_end m).
Proof.
  intros H. apply exec_from_inv in H as (pre & w & _ & Hm & -> & _). eauto.
Qed.

(** X15: no match of the monetary pattern or of the unit-count pattern is
    empty, so each [exec] of the two loops moves [lastIndex] forward. *)
Theorem matches_not_empty (st : mstate) (m : MatchResult) :
  exec_from dollarRe st = Some m \/ exec_from countRe st = Some m ->
  m_0 m <> [] /\ length (ms_rest (resume m)) < length (ms_rest st).
Proof.
  intros [H|H].
  - split; [|now apply dollarRe_progress].
    apply exec_from_m0 in H as (b & Hm). cbn [re_pattern dollarRe RSeqs] in Hm.
    apply Matches_set_first in Hm. cbn [startState ms_rest] in Hm.
    intros Hnil. rewrite Hnil in Hm. cbn in Hm. lia.
  - split; [|now apply countRe_progress].
    apply exec_from_m0 in H as (b & Hm). cbn [re_pattern countRe RSeqs] in Hm.
    apply seq_peel in Hm as (sa & ua & _ & Ha & Hm).
    apply seq_peel in Hm as (sb & ub & _ & Hb & Hm).
    apply Matches_rest_le in Ha, Hm.
    apply Matches_group_rest in Hb as (sc & Hq & Hsc).
    apply Matches_quant_first in Hq. rewrite Hsc in Hm.
    cbn [startState ms_rest] in *.
    intros Hnil. rewrite Hnil in *. cbn [app] in *. lia.
Qed.

Lemma matches_not_empty_witness :
  m_0 matchFee <> [] /\ length (ms_rest (resume matchFee)) < length (ms_rest stateFee).
Proof. apply (matches_not_empty stateFee matchFee). left. reflexivity. Defined.

(** ** The documents of the pass *)

Lemma collectFacts_elem (files : Corpus) f :
  f ∈ collectFacts files <->
  exists d, d ∈ files /\ f ∈ extractFacts (fst d) (snd d).
Proof.
  rewrite collectFacts_flat_map, list_elem_of_In, in_flat_map.
  split; intros (d & Hd & Hf); exists d.
  - split; now apply list_elem_of_In.
  - split; now apply list_elem_of_In.
Qed.

Lemma extractFacts_file filePath file f :
  f ∈ extractFacts filePath file -> f_file f = filePath.
Proof.
  intros H. apply extractFacts_elem in H as [(_ & H & _)|(_ & H & _)]; exact H.
Qed.

Lemma extractFacts_accepts filePath file f :
  f ∈ extractFacts filePath file ->
  exists buf, file = ReadOk buf /\
              (buf_length buf <= MAX_FILE_MB * 1024 * 1024)%N /\
              test re_nul (buf_toString buf) = false.
Proof.
  unfold extractFacts. destruct file as [buf|]; [|intros H; inversion H].
  destruct (_ <? _)%N eqn:Hsz; [intros H; inversion H|].
  destruct (buf_toString buf) as [|c text] eqn:Ht; [intros H; inversion H|].
  destruct (test re_nul (c :: text)) eqn:Hn; [intros H; inversion H|].
  intros _. exists buf. split; [reflexivity|]. split; [now apply N.ltb_ge in Hsz|].
  now rewrite Ht.
Qed.

(** X26: every fact of a pass comes from a document returned by [walk]
    that could be read, was not over the size limit and holds no NUL. *)
Theorem facts_from_walked_documents (dir : Listing) (readFile : jsstring -> ReadResult)
    (f : Fact) :
  f ∈ collectFacts (documents dir readFile) ->
  f_file f ∈ walk dir [] /\
  exists buf, readFile (f_file f) = ReadOk buf /\
              (buf_length buf <= MAX_FILE_MB * 1024 * 1024)%N /\
              test re_nul (buf_toString buf) = false /\
              f ∈ extractFacts (f_file f) (ReadOk buf).
Proof.
  intros H. apply collectFacts_elem in H as ([p r] & Hd & Hf). cbn [fst snd] in Hf.
  unfold documents in Hd. apply list_elem_of_In, in_map_iff in Hd as (p' & [= -> <-] & Hp).
  pose proof (extractFacts_file _ _ _ Hf) as Hfile. rewrite Hfile.
  split; [now apply list_elem_of_In|].
  destruct (extractFacts_accepts _ _ _ Hf) as (buf & Hr & Hsz & Hn).
  exists buf. rewrite <- Hr. auto.
Qed.

Lemma facts_from_walked_documents_witness :
  f_file factFee ∈ walk treeFees [] /\
  exists buf, readFees (f_file factFee) = ReadOk buf /\
              (buf_length buf <= MAX_FILE_MB * 1024 * 1024)%N /\
              test re_nul (buf_toString buf) = false /\
              factFee ∈ extractFacts (f_file factFee) (ReadOk buf).
Proof. apply (facts_from_walked_documents treeFees readFees factFee). vm_compute. left. Defined.

(** ** Context lines *)

Lemma makeContextKey_length text pos : length (makeContextKey text pos) <= 70.
Proof.
  unfold makeContextKey, makeContextKeyLen, sliceLast. cbv zeta. rewrite length_skipn. lia.
Qed.

Lemma fact_key_length (files : Corpus) f :
  f ∈ collectFacts files -> length (f_key f) <= 70.
Proof.
  intros H. apply collectFacts_elem in H as (d & _ & Hf).
  apply extractFacts_elem in Hf
    as [(_ & _ & _ & _ & _ & st1 & pre & _ & -> & _)
       |(_ & _ & _ & st1 & (pre & _ & -> & _) & _)];
    apply makeContextKey_length.
Qed.

Lemma ellipsis_short n (k : jsstring) : length k <= n -> ellipsis n k = k.
Proof.
  intros H. unfold ellipsis, slice. cbn [skipn]. rewrite Nat.sub_0_r.
  rewrite firstn_all2 by exact H.
  destruct (n <? length k) eqn:E; [apply Nat.ltb_lt in E; lia|apply app_nil_r].
Qed.

Lemma directConflict_key (allFacts : list Fact) c :
  c ∈ directConflicts (groupByKey allFacts) ->
  exists f, f ∈ allFacts /\ f_key f = c_key c.
Proof.
  intros Hc. apply directConflicts_sound in Hc as (Hentry & _ & _).
  assert (Hk : c_key c ∈ map fst (groupByKey allFacts)).
  { apply list_elem_of_In, in_map_iff. exists (c_key c, c_list c).
    split; [reflexivity|now apply list_elem_of_In]. }
  unfold groupByKey in Hk. rewrite groupByKey_keys_from in Hk.
  apply (uniq_fold_spec _ [] (NoDup_nil_2)) in Hk as [Hk|Hk]; [inversion Hk|].
  apply list_elem_of_In, in_map_iff in Hk as (f & Hf & Hin).
  exists f. split; [now apply list_elem_of_In|exact Hf].
Qed.

(** X27: the context of a direct conflict is printed in full: a key has
    at most 70 code units and the report cuts at 80. *)
Theorem direct_context_never_truncated (files : Corpus) (c : Conflict) :
  c ∈ directConflicts (groupByKey (collectFacts files)) ->
  ellipsis 80 (c_key c) = c_key c.
Proof.
  intros Hc. apply directConflict_key in Hc as (f & Hf & <-).
  apply ellipsis_short. pose proof (fact_key_length files f Hf). lia.
Qed.

Lemma direct_context_never_truncated_witness :
  ellipsis 80 (c_key conflictThree) = c_key conflictThree.
Proof.
  apply (direct_context_never_truncated corpusThree conflictThree). vm_compute. left.
Defined.

(** ** The report and the documents of the next run *)






Section Runs.
Variables toLocaleString numberToString : jsnum -> jsstring.




End Runs.



